(** * Marketplace asset scraper: record store, page scraper, threshold analyzer

    A shallow embedding of [src/data/Main.py] ([DatabaseManager],
    [MarketplaceScraper], [AuctionManager], [AssetAnalyzer] and the
    handlers of [ApplicationGUI]) and the properties of its pipeline.

    Conventions of the embedding.
    - A Python [float] or SQLite [REAL] value is the rational it denotes
      ([Q]), and [Binary64] has the rounding of binary64.  [float(str)]
      and the threshold of [quantile64] round as Python, pandas and NumPy
      do.  [mean], [quantile] and the discount of [annotate] are over
      the rationals: what is proved of them is what rounding does not
      touch (which rows, which formula), and what rounding can break is
      stated of [quantile64].  The infinities and nan are outside the
      embedding; [price_embedded] and [Binary64.representable] tell, as
      hypotheses, where a statement needs its values inside it.
    - A Python call either returns or raises: [result].  The requests,
      pauses and log records of the scraper are collected in a trace;
      the state of the SQLite connection is passed explicitly, and so
      is, in [Frames], the heap of frame objects.  The log records of
      the store and of the analyzer change no result and are left out.
    - Library code the program calls (pandas, numpy, sqlite3, requests,
      BeautifulSoup) is modelled by its documented behaviour.  The
      sorting algorithm of [sort_values] is a parameter bound by the
      contract of [numpy.argsort]: the order it gives to equal values
      depends on the version of NumPy and on the processor.
    - Of [ApplicationGUI] the handlers [handle_scrape] and
      [handle_post_auction] are embedded: what they ask of the store,
      the scraper and [AuctionManager], the values they read from the
      tree, and the message box they end with.  Of [handle_display] the
      text of the Price column is.  The widgets and the main loop are
      not. *)

From Stdlib Require Import String Ascii.
From Stdlib Require Import ZArith QArith Qround Qabs Qpower List Bool Lia.
From Stdlib Require Import Permutation Sorted Orders Mergesort.
From Stdlib Require Import DecimalString DecimalZ DecimalPos Lqa.
Import ListNotations.

Set Implicit Arguments.

(** ** Python results *)

Module Py.

(** The exception classes the program can meet.  [SqliteError] stands
    for [sqlite3.Error] and its subclasses, [RequestException] for
    [requests.exceptions.RequestException] and its subclasses. *)
Inductive exn : Type :=
| AttributeError
| ValueError
| TypeError
| KeyError
| RequestException
| SqliteError.

Definition exn_eqb (a b : exn) : bool :=
  match a, b with
  | AttributeError, AttributeError | ValueError, ValueError
  | TypeError, TypeError | KeyError, KeyError
  | RequestException, RequestException | SqliteError, SqliteError => true
  | _, _ => false
  end.

Inductive result (A : Type) : Type :=
| Ok (a : A)
| Raise (e : exn).

Arguments Ok {A} a.
Arguments Raise {A} e.

Definition is_ok {A} (r : result A) : bool :=
  match r with Ok _ => true | Raise _ => false end.

Definition bind {A B} (r : result A) (k : A -> result B) : result B :=
  match r with
  | Ok a => k a
  | Raise e => Raise e
  end.

End Py.

Import Py.

Declare Scope py_scope.
Delimit Scope py_scope with py.
Notation "x <- c ;; k" := (Py.bind c (fun x => k))
  (at level 61, c at next level, right associativity) : py_scope.

(** ** Rationals *)

Definition Qlt_bool (x y : Q) : bool := negb (Qle_bool y x).

Definition Qsum (l : list Q) : Q := fold_right Qplus 0 l.

Module QOrder <: TotalLeBool.
Definition t := Q.
Definition leb := Qle_bool.
Theorem leb_total : forall a1 a2, leb a1 a2 = true \/ leb a2 a1 = true.
Proof.
  intros a b. unfold leb. destruct (Qlt_le_dec b a) as [H|H].
  - right. apply Qle_bool_iff. apply Qlt_le_weak. exact H.
  - left. apply Qle_bool_iff. exact H.
Qed.
End QOrder.

Module QSort := Sort QOrder.

(** ** Binary64

    The finite values of IEEE 754 binary64 among the rationals, and the
    rounding to the nearest of them, ties to the even significand, that
    every arithmetic operation of a Python [float] ends with. *)

Module Binary64.

(** [floor(log2(abs(x)))], for [x] other than zero. *)
Definition binade (x : Q) : Z :=
  let k := (Z.log2 (Z.abs (Qnum x)) - Z.log2 (Zpos (Qden x)))%Z in
  if Qle_bool (Qpower 2 k) (Qabs x) then k else (k - 1)%Z.

(** The nearest integer, the even one of two that are as near. *)
Definition nearest_even (x : Q) : Z :=
  let below := Qfloor x in
  match Qcompare (x - inject_Z below) (1 # 2) with
  | Lt => below
  | Gt => (below + 1)%Z
  | Eq => if Z.even below then below else (below + 1)%Z
  end.

(** The nearest multiple of the unit in the last place: 53 bits of
    significand, and no unit below [2 ** -1074]. *)
Definition round (x : Q) : Q :=
  if Qeq_bool x 0 then 0
  else let unit := Qpower 2 (Z.max (binade x - 52) (-1074)) in
       Qred (inject_Z (nearest_even (x / unit)) * unit).

(** Below [2 ** 1024]: a rounded value that is not is an infinity of
    binary64. *)
Definition finite (x : Q) : bool := Qlt_bool (Qabs x) (Qpower 2 1024).

(** [x] is a finite value of binary64. *)
Definition representable (x : Q) : bool := Qeq_bool (round x) x && finite x.

(** The operations on finite values whose result is finite. *)
Definition add (x y : Q) : Q := round (x + y).

Definition sub (x y : Q) : Q := round (x - y).

Definition mul (x y : Q) : Q := round (x * y).

Definition div (x y : Q) : Q := round (x / y).

End Binary64.

(** ** Positional selection

    [take rows indexer] is [rows[indexer]] (numpy fancy indexing,
    [BlockManager.take]): the rows at the listed positions, in the order
    of the list.  The indexers of this program are permutations of the
    positions of [rows]; a position outside, which numpy refuses, gives
    no row here. *)

Definition take {A} (rows : list A) (indexer : list nat) : list A :=
  flat_map (fun i => match nth_error rows i with
                     | Some r => [r]
                     | None => []
                     end) indexer.

(** ** Data model *)

(** A row of table [assets], and of the frame read from it. *)
Record StoredAsset : Type := {
  id : Z;
  title : string;
  price : Q;
  link : string;
  date_added : Z
}.

(** A frame of stored assets: its rows in index order. *)
Definition DataFrame := list StoredAsset.

(** A row of the frame the analyzer returns: the stored columns and
    [discount_percent]. *)
Record UndervaluedAsset : Type := {
  asset : StoredAsset;
  discount_percent : Q
}.

(** ** DatabaseManager *)

Module DatabaseManager.

(** One parameter tuple of [executemany]: the values bound to [title],
    [price] and [link]; [None] is Python's [None], bound as SQL NULL. *)
Definition parameters : Type :=
  (option string * option Q * option string)%type.

(** The parameters of a scraped item. *)
Definition of_item (it : string * Q * string) : parameters :=
  let '(title, price, link) := it in (Some title, Some price, Some link).

(** The connection [self.conn]: the rows of table [assets] as the
    connection sees them, in rowid order; inside a transaction, the rows
    at its start, to which a rollback returns; and the number of writes
    (INSERT, COMMIT) it has asked for. *)
Record connection : Type := {
  table : list StoredAsset;
  journal : option (list StoredAsset);
  writes : nat
}.

(** The committed rows: what another connection, or this one after a
    rollback, reads. *)
Definition committed (c : connection) : list StoredAsset :=
  match journal c with
  | Some rows => rows
  | None => table c
  end.

(** A statement on the connection. *)
Definition db (A : Type) : Type := connection -> result A * connection.

Definition ret {A} (a : A) : db A := fun c => (Ok a, c).

Definition throw {A} (e : exn) : db A := fun c => (Raise e, c).

Definition bind {A B} (m : db A) (k : A -> db B) : db B :=
  fun c => match m c with
           | (Ok a, c') => k a c'
           | (Raise e, c') => (Raise e, c')
           end.

(** [try: m except classes: handler]. *)
Definition try_except {A} (m : db A) (classes : list exn) (handler : db A)
    : db A :=
  fun c => match m c with
           | (Raise e, c') =>
               if existsb (exn_eqb e) classes then handler c'
               else (Raise e, c')
           | ok => ok
           end.

Declare Scope db_scope.
Delimit Scope db_scope with db.
Notation "x <- c ;; k" := (bind c (fun x => k))
  (at level 61, c at next level, right associativity) : db_scope.
Notation "c ;; k" := (bind c (fun _ => k))
  (at level 61, right associativity) : db_scope.
Local Open Scope db_scope.

Section Environment.

(** Whether the [n]-th write of the connection meets a failure of the
    medium (disk full, database locked): [sqlite3.OperationalError]. *)
Variable fault : nat -> bool.

(** [CURRENT_TIMESTAMP] at the [n]-th write. *)
Variable current_timestamp : nat -> Z.

(** The rowid SQLite gives a row inserted without one: one more than the
    largest in the table, 1 in an empty table.  (A rowid is a signed
    64-bit integer; where the largest is [2 ** 63 - 1] SQLite looks for
    an unused rowid at random, which is outside the embedding: see
    [rowids_left].) *)
Definition next_rowid (rows : list StoredAsset) : Z :=
  match map id rows with
  | [] => 1
  | i :: ids => fold_right Z.max i ids + 1
  end.

(** The table has [count] rowids left above its largest. *)
Definition rowids_left (rows : list StoredAsset) (count : nat) : Prop :=
  (next_rowid rows + Z.of_nat count <= 2 ^ 63)%Z.

(** The implicit BEGIN before a data-modifying statement. *)
Definition begin : db unit :=
  fun c => (Ok tt,
            match journal c with
            | Some _ => c
            | None => {| table := table c; journal := Some (table c);
                         writes := writes c |}
            end).

(** One write: its number, unless it meets a failure of the medium. *)
Definition write : db nat :=
  fun c =>
    let c' := {| table := table c; journal := journal c;
                 writes := S (writes c) |} in
    if fault (writes c) then (Raise SqliteError, c')
    else (Ok (writes c), c').

(** [INSERT INTO assets (title, price, link) VALUES (?, ?, ?)]: the three
    columns are NOT NULL ([sqlite3.IntegrityError]). *)
Definition insert (p : parameters) : db unit :=
  n <- write ;;
  match p with
  | (Some title, Some price, Some link) =>
      fun c =>
        let row := {| id := next_rowid (table c); title := title;
                      price := price; link := link;
                      date_added := current_timestamp n |} in
        (Ok tt, {| table := table c ++ [row]; journal := journal c;
                   writes := writes c |})
  | _ => throw SqliteError
  end.

Fixpoint insert_all (ps : list parameters) : db unit :=
  match ps with
  | [] => ret tt
  | p :: ps' => insert p ;; insert_all ps'
  end.

(** [cursor.executemany(sql, seq_of_parameters)]. *)
Definition executemany (assets : list parameters) : db unit :=
  begin ;; insert_all assets.

(** [conn.commit()]. *)
Definition commit : db unit :=
  write ;;
  fun c => (Ok tt, {| table := table c; journal := None;
                      writes := writes c |}).

(** [conn.rollback()]. *)
Definition rollback : db unit :=
  fun c => (Ok tt, {| table := committed c; journal := None;
                      writes := writes c |}).

Definition insert_assets (assets : list parameters) : db bool :=
  try_except
    (executemany assets ;;
     commit ;;
     ret true)
    [SqliteError]
    (rollback ;;
     ret false).

(** [pd.read_sql_query("SELECT * FROM assets", self.conn)]. *)
Definition get_all_assets : db DataFrame :=
  fun c => (Ok (table c), c).

(** No write from the next one on, for [n] writes, meets a failure of
    the medium. *)
Definition no_fault (c : connection) (n : nat) : Prop :=
  forall k, (k < n)%nat -> fault (writes c + k) = false.

(** A sequence of calls of [insert_assets], whatever they return. *)
Fixpoint insert_batches (batches : list (list parameters)) (c : connection)
    : connection :=
  match batches with
  | [] => c
  | assets :: rest => insert_batches rest (snd (insert_assets assets c))
  end.

End Environment.

(** The database file at start-up: out of reach, or a file, with the rows
    of table [assets] where it has that table. *)
Inductive medium : Type :=
| Unreachable
| File (assets : option (list StoredAsset)).

(** [setup_database]: the connection it leaves after CREATE TABLE IF NOT
    EXISTS, which creates the table empty where the file has none; a
    failure of [sqlite3.connect] or of the statement is logged and raised
    again. *)
Definition setup_database (m : medium) : result connection :=
  match m with
  | Unreachable => Raise SqliteError
  | File assets =>
      Ok {| table := match assets with Some rows => rows | None => [] end;
            journal := None;
            writes := 0 |}
  end.

(** [close]: the connection is given up.  SQLite rolls back a
    transaction that is open, and the file keeps the committed rows. *)
Definition close (c : connection) : medium := File (Some (committed c)).

(** The rowids grow along the rows. *)
Definition ascending (rows : list StoredAsset) : Prop :=
  StronglySorted Z.lt (map id rows).

(** The parameter tuple passes the NOT NULL constraints. *)
Definition accepted (p : parameters) : bool :=
  match p with
  | (Some _, Some _, Some _) => true
  | _ => false
  end.

(** The row holds the values of the parameter tuple. *)
Definition stores (p : parameters) (row : StoredAsset) : Prop :=
  p = (Some (title row), Some (price row), Some (link row)).

End DatabaseManager.

(** ** MarketplaceScraper *)

Module MarketplaceScraper.

(** *** Strings *)

(** [s.replace(old, new)] for a pattern [old] of one character. *)
Fixpoint replace (old : ascii) (new : string) (s : string) : string :=
  match s with
  | EmptyString => EmptyString
  | String c s' =>
      if Ascii.eqb c old then (new ++ replace old new s')%string
      else String c (replace old new s')
  end.

Definition is_space (c : ascii) : bool :=
  let n := nat_of_ascii c in
  ((9 <=? n) && (n <=? 13) || (28 <=? n) && (n <=? 32))%nat.

Definition is_digit (c : ascii) : bool :=
  let n := nat_of_ascii c in ((48 <=? n) && (n <=? 57))%nat.

Definition digit_value (c : ascii) : Z := Z.of_nat (nat_of_ascii c - 48).

Fixpoint lstrip (s : list ascii) : list ascii :=
  match s with
  | c :: s' => if is_space c then lstrip s' else s
  | [] => []
  end.

Definition strip (s : list ascii) : list ascii :=
  rev (lstrip (rev (lstrip s))).

(** *** [float(str)]

    The grammar of the language reference,
<<
    floatvalue  ::= [sign] floatnumber
    floatnumber ::= number [exponent]
    number      ::= [digitpart] "." digitpart | digitpart ["."]
    exponent    ::= ("e" | "E") [sign] digitpart
    digitpart   ::= digit (["_"] digit)*
>>
    between optional white space, over the ASCII digits, and the
    rounding of the number read to binary64.  Outside the embedding, and
    told by [float_embedded]: text with characters beyond ASCII (Python
    reads the digits and the white space of Unicode), the spellings of
    infinity and nan, and numbers beyond the range of binary64, which
    Python reads as non-finite values. *)

(** The rest of a [digitpart] after its first digit: [acc] is the number
    read so far, [count] the number of its digits. *)
Fixpoint digitpart_rest (s : list ascii) (acc : Z) (count : nat)
    : Z * nat * list ascii :=
  match s with
  | c :: s' =>
      if is_digit c
      then digitpart_rest s' (10 * acc + digit_value c) (S count)
      else if Ascii.eqb c "_" then
        match s' with
        | d :: s'' =>
            if is_digit d
            then digitpart_rest s'' (10 * acc + digit_value d) (S count)
            else (acc, count, s)
        | [] => (acc, count, s)
        end
      else (acc, count, s)
  | [] => (acc, count, s)
  end.

(** A [digitpart] that continues the digits of [acc]: the number read,
    how many digits it added, and the rest of the text. *)
Definition digitpart (s : list ascii) (acc : Z)
    : option (Z * nat * list ascii) :=
  match s with
  | c :: s' =>
      if is_digit c
      then Some (digitpart_rest s' (10 * acc + digit_value c) 1%nat)
      else None
  | [] => None
  end.

(** An optional sign: whether it is a minus, and the rest of the text. *)
Definition sign (s : list ascii) : bool * list ascii :=
  match s with
  | c :: s' =>
      if Ascii.eqb c "-" then (true, s')
      else if Ascii.eqb c "+" then (false, s')
      else (false, s)
  | [] => (false, s)
  end.

(** [number]: its digits as one integer, the count of digits after the
    point, and the rest of the text. *)
Definition number (s : list ascii) : option (Z * nat * list ascii) :=
  match digitpart s 0 with
  | Some (whole, _, rest) =>
      match rest with
      | c :: rest' =>
          if Ascii.eqb c "." then
            match digitpart rest' whole with
            | Some r => Some r
            | None => Some (whole, 0%nat, rest')
            end
          else Some (whole, 0%nat, rest)
      | [] => Some (whole, 0%nat, rest)
      end
  | None =>
      match s with
      | c :: rest' => if Ascii.eqb c "." then digitpart rest' 0 else None
      | [] => None
      end
  end.

(** [exponent], where the text goes on: its value and the rest. *)
Definition exponent (s : list ascii) : option (Z * list ascii) :=
  match s with
  | [] => Some (0%Z, [])
  | c :: s' =>
      if Ascii.eqb c "e" || Ascii.eqb c "E" then
        let (neg, s'') := sign s' in
        match digitpart s'' 0 with
        | Some (e, _, rest) => Some (if neg then (- e)%Z else e, rest)
        | None => None
        end
      else None
  end.

(** [mantissa * 10 ^ scale]. *)
Definition decimal (mantissa scale : Z) : Q :=
  Qred (inject_Z mantissa * Qpower 10 scale).

(** The number a text of the grammar denotes. *)
Definition floatvalue (s : string) : result Q :=
  let (neg, s1) := sign (strip (list_ascii_of_string s)) in
  match number s1 with
  | Some (digits, places, s2) =>
      match exponent s2 with
      | Some (e, []) =>
          let m := if neg then (- digits)%Z else digits in
          Ok (decimal m (e - Z.of_nat places))
      | _ => Raise ValueError
      end
  | None => Raise ValueError
  end.

(** [float(str)]: the binary64 nearest to the number read. *)
Definition float (s : string) : result Q :=
  match floatvalue s with
  | Ok value => Ok (Binary64.round value)
  | Raise e => Raise e
  end.





(** *** The page *)

(** What the calls of [find] give on one [<div class="item-class">]: the
    stripped text of its first [h2] and of its first
    [<span class="price-class">], where there is one, and for its first
    [a], where there is one, the [href] attribute, where it has one. *)
Record listing_block : Type := {
  h2 : option string;
  price_span : option string;
  anchor : option (option string)
}.

(** An element of [items]: [(title, price, link)]. *)
Definition item : Type := (string * Q * string)%type.

(** What [requests.get], with the headers of the scraper and its timeout
    of 10 seconds, meets: no response (connection error, timeout), or a
    response with its status code and, in [content], the blocks that
    [soup.find_all("div", class_="item-class")] finds. *)
Inductive http_outcome : Type :=
| NoResponse
| Response (status_code : Z) (content : list listing_block).

(** *** Effects *)

Inductive message : Type :=
| ParseFailed (e : exn)
| Scraped (count : nat) (url : string)
| FetchFailed (url : string) (e : exn).

Inductive event : Type :=
| Get (url : string)
| Sleep (seconds : Z)
| LogInfo (m : message)
| LogWarning (m : message)
| LogError (m : message).

(** A computation: its result and the events it caused, in order. *)
Definition io (A : Type) : Type := (result A * list event)%type.

Definition ret {A} (a : A) : io A := (Ok a, []).

Definition throw {A} (e : exn) : io A := (Raise e, []).

Definition emit (ev : event) : io unit := (Ok tt, [ev]).

Definition bind {A B} (m : io A) (k : A -> io B) : io B :=
  match m with
  | (Ok a, t) => let (r, t') := k a in (r, t ++ t')
  | (Raise e, t) => (Raise e, t)
  end.

(** [try: m except classes as e: handler e]. *)
Definition try_except {A} (m : io A) (classes : list exn)
    (handler : exn -> io A) : io A :=
  match m with
  | (Raise e, t) =>
      if existsb (exn_eqb e) classes
      then let (r, t') := handler e in (r, t ++ t')
      else (Raise e, t)
  | (Ok a, t) => (Ok a, t)
  end.

Declare Scope io_scope.
Delimit Scope io_scope with io.
Notation "x <- c ;; k" := (bind c (fun x => k))
  (at level 61, c at next level, right associativity) : io_scope.
Notation "c ;; k" := (bind c (fun _ => k))
  (at level 61, right associativity) : io_scope.
Local Open Scope io_scope.

(** *** [scrape_page] *)

(** The number in the text of a price, without currency symbol and group
    separators. *)
Definition price_number (price_text : string) : result Q :=
  float (replace "," "" (replace "$" "" price_text)).

(** The body of the inner [try]: the item to append, when the listing
    passes the check. *)
Definition parse_listing (listing : listing_block) : io (option item) :=
  let title := match h2 listing with
               | Some text => text
               | None => "N/A"%string
               end in
  price_text <- match price_span listing with
                | Some text => ret text
                | None => throw AttributeError
                end ;;
  price <- (price_number price_text, []) ;;
  link <- match anchor listing with
          | None => throw TypeError
          | Some None => throw KeyError
          | Some (Some href) => ret href
          end ;;
  if negb (String.eqb title "N/A") && Qlt_bool 0 price
     && negb (String.eqb link "")
  then ret (Some (title, price, link))
  else ret None.

(** One turn of the loop over the listings: the inner [try] and its
    handler, from the value of [items] before the listing. *)
Definition scrape_listing (listing : listing_block) (items : list item)
    : io (list item) :=
  try_except
    (parsed <- parse_listing listing ;;
     ret (match parsed with
          | Some it => items ++ [it]
          | None => items
          end))
    [AttributeError; ValueError]
    (fun e => emit (LogWarning (ParseFailed e)) ;; ret items).

(** The loop over the listings, from the value of [items] before the
    listings that remain. *)
Fixpoint scrape_listings (listings : list listing_block)
    (items : list item) : io (list item) :=
  match listings with
  | [] => ret items
  | listing :: rest =>
      items <- scrape_listing listing items ;;
      scrape_listings rest items
  end.

(** [response.raise_for_status()]. *)
Definition raise_for_status (status_code : Z) : io unit :=
  if ((400 <=? status_code) && (status_code <? 600))%Z
  then throw RequestException
  else ret tt.

(** [range(start, stop)]. *)
Definition range (start stop : Z) : list Z :=
  map (fun i => (start + Z.of_nat i)%Z) (seq 0 (Z.to_nat (stop - start))).

(** [str(n)]. *)
Definition str (n : Z) : string := NilZero.string_of_int (Z.to_int n).

(** [f"{base_url}/page/{page_num}"]. *)
Definition page_url (base_url : string) (page_num : Z) : string :=
  (base_url ++ "/page/" ++ str page_num)%string.

Section Network.

(** The marketplace: what a GET of each URL meets. *)
Variable get : string -> http_outcome.

Definition scrape_page (url : string) : io (list item) :=
  try_except
    (emit (Get url) ;;
     match get url with
     | NoResponse => throw RequestException
     | Response status_code content =>
         raise_for_status status_code ;;
         items <- scrape_listings content [] ;;
         emit (LogInfo (Scraped (length items) url)) ;;
         ret items
     end)
    [RequestException]
    (fun e => emit (LogError (FetchFailed url e)) ;; ret []).

(** The loop over the page numbers, from the value of [all_items] before
    the pages that remain. *)
Fixpoint scrape_pages (base_url : string) (page_nums : list Z)
    (all_items : list item) : io (list item) :=
  match page_nums with
  | [] => ret all_items
  | page_num :: rest =>
      let url := page_url base_url page_num in
      items <- scrape_page url ;;
      let all_items := all_items ++ items in
      emit (Sleep 1) ;;
      scrape_pages base_url rest all_items
  end.

Definition scrape_multiple_pages (base_url : string)
    (start_page end_page : Z) : io (list item) :=
  scrape_pages base_url (range start_page (end_page + 1)) [].

(** The network-level failures of a page: no response, or a response
    whose status [raise_for_status] refuses. *)
Definition fetch_fails (url : string) : bool :=
  match get url with
  | NoResponse => true
  | Response status_code _ =>
      ((400 <=? status_code) && (status_code <? 600))%Z
  end.

(** The items a page contributes. *)
Definition page_items (url : string) : list item :=
  match fst (scrape_page url) with
  | Ok items => items
  | Raise _ => []
  end.

End Network.

(** The URLs requested, in order. *)
Definition requests (trace : list event) : list string :=
  flat_map (fun ev => match ev with Get url => [url] | _ => [] end) trace.

(** The candidate passes extraction and the check of [scrape_page]: it
    has a title other than the placeholder, a price text that reads as a
    positive number, and a non-empty link. *)
Definition well_formed (listing : listing_block) : option item :=
  match h2 listing, price_span listing, anchor listing with
  | Some title, Some price_text, Some (Some href) =>
      match price_number price_text with
      | Ok price =>
          if negb (String.eqb title "N/A") && Qlt_bool 0 price
             && negb (String.eqb href "")
          then Some (title, price, href)
          else None
      | Raise _ => None
      end
  | _, _, _ => None
  end.

(** The listing has an anchor with an [href] attribute. *)
Definition has_link (listing : listing_block) : Prop :=
  exists href, anchor listing = Some (Some href).

(** The items the well-formed listings give, in their order. *)
Definition well_formed_items (listings : list listing_block)
    : list item :=
  flat_map (fun listing => match well_formed listing with
                           | Some it => [it]
                           | None => []
                           end) listings.





(** The seconds paused. *)
Definition pauses (trace : list event) : Z :=
  fold_right (fun ev total => match ev with
                              | Sleep seconds => (seconds + total)%Z
                              | _ => total
                              end) 0%Z trace.

(** The check of [scrape_page] on an item:
    [all([title != "N/A", price > 0, link])]. *)
Definition passes_check (it : item) : bool :=
  let '(title, price, link) := it in
  negb (String.eqb title "N/A") && Qlt_bool 0 price
  && negb (String.eqb link "").

End MarketplaceScraper.

(** ** AssetAnalyzer *)

Module AssetAnalyzer.

Definition prices (df : DataFrame) : list Q := map price df.

(** [Series.mean]. *)
Definition mean (values : list Q) : Q :=
  Qsum values / inject_Z (Z.of_nat (length values)).

(** [Series.quantile(q)] with the default [interpolation='linear'], over
    the rationals: [q] outside [0, 1] is a [ValueError]; otherwise the
    value at the virtual index [(n - 1) * q] of the sorted values,
    interpolated linearly between its two neighbours.  This is the
    number that pandas computes in binary64; [quantile64] below is the
    computation with its rounding.  (On an empty series pandas answers
    NaN; [identify_undervalued_assets] returns before that.) *)
Definition quantile (values : list Q) (q : Q) : result Q :=
  if Qle_bool 0 q && Qle_bool q 1 then
    let arr := QSort.sort values in
    let n := length arr in
    let virtual_index := (inject_Z (Z.of_nat n) - 1) * q in
    let previous := Qfloor virtual_index in
    let gamma := virtual_index - inject_Z previous in
    let lo := Z.to_nat previous in
    let hi := Nat.min (S lo) (n - 1) in
    let a := nth lo arr 0 in
    let b := nth hi arr 0 in
    Ok (a + (b - a) * gamma)
  else Raise ValueError.

(** [Series.quantile(q)] as pandas and NumPy compute it on a column of
    floats, every operation rounded to binary64.  [validate_percentile]
    refuses [q] outside [0, 1]; [quantile_with_mask] hands [q * 100.0]
    to [numpy.percentile], which divides by 100 and checks the range
    again; [_quantile] takes the virtual index [(n - 1) * q], the last
    value where the index reaches the last position, and otherwise
    [_lerp] between the two neighbours: [a + (b - a) * gamma], and
    [b - (b - a) * (1 - gamma)] where [gamma] is a half or more. *)
Definition quantile64 (values : list Q) (q : Q) : result Q :=
  if Qle_bool 0 q && Qle_bool q 1 then
    let q := Binary64.div (Binary64.mul q 100) 100 in
    if Qle_bool 0 q && Qle_bool q 1 then
      let arr := QSort.sort values in
      let n := length arr in
      let last := Binary64.round (inject_Z (Z.of_nat n) - 1) in
      let virtual_index := Binary64.mul last q in
      if Qle_bool last virtual_index then Ok (nth (n - 1) arr 0)
      else
        let previous := Qfloor virtual_index in
        let gamma := Binary64.sub virtual_index (inject_Z previous) in
        let a := nth (Z.to_nat previous) arr 0 in
        let b := nth (S (Z.to_nat previous)) arr 0 in
        let diff_b_a := Binary64.sub b a in
        Ok (if Qle_bool (1 # 2) gamma
            then Binary64.sub b (Binary64.mul diff_b_a (Binary64.sub 1 gamma))
            else Binary64.add a (Binary64.mul diff_b_a gamma))
    else Raise ValueError
  else Raise ValueError.

(** [df[df["price"] < price_threshold]]. *)
Definition below (price_threshold : Q) (df : DataFrame) : DataFrame :=
  filter (fun a => Qlt_bool (price a) price_threshold) df.

(** The assignment of column [discount_percent], row by row, over the
    rationals.  (A mean of zero makes the quotient non-finite in
    binary64: what is stated of the values of the discounts is stated
    for a mean other than zero.) *)
Definition annotate (mean_price : Q) (a : StoredAsset) : UndervaluedAsset :=
  {| asset := a;
     discount_percent := (mean_price - price a) / mean_price * 100 |}.

Section SortValues.

(** [numpy.argsort(kind='quicksort')], the default [kind] of
    [DataFrame.sort_values]: the positions of the values in ascending
    order of value.  NumPy documents this kind as not stable, and which
    algorithm runs depends on its version and on the processor, so the
    algorithm is a parameter, bound by the contract [ArgsortOk] below. *)
Variable argsort : list Q -> list nat.

(** [pandas.core.sorting.nargsort] on a column without missing values:
    for a descending sort the values and their positions are reversed,
    sorted ascending, and the result is reversed. *)
Definition nargsort (items : list Q) (ascending : bool) : list nat :=
  let idx := seq 0 (length items) in
  let non_nans := if ascending then items else rev items in
  let non_nan_idx := if ascending then idx else rev idx in
  let indexer := take non_nan_idx (argsort non_nans) in
  if ascending then indexer else rev indexer.

(** [DataFrame.sort_values(by, ascending=...)] on one column. *)
Definition sort_values {A} (by_ : A -> Q) (ascending : bool)
    (rows : list A) : list A :=
  take rows (nargsort (map by_ rows) ascending).

Definition identify_undervalued_assets (df : DataFrame)
    (threshold_percentile : Q) : result (list UndervaluedAsset) :=
  match df with
  | [] => Ok []
  | _ :: _ =>
      (price_threshold <- quantile (prices df) (threshold_percentile / 100) ;;
       let undervalued := below price_threshold df in
       let undervalued := map (annotate (mean (prices df))) undervalued in
       Ok (sort_values discount_percent false undervalued))%py
  end.

(** The function with the threshold of line 148 as binary64 gives it:
    the quotient [threshold_percentile / 100] is rounded, and the
    quantile is [quantile64].  The comparison of line 149 rounds
    nothing; the discounts are those of [annotate]. *)
Definition identify_undervalued_assets64 (df : DataFrame)
    (threshold_percentile : Q) : result (list UndervaluedAsset) :=
  match df with
  | [] => Ok []
  | _ :: _ =>
      (price_threshold <-
         quantile64 (prices df) (Binary64.div threshold_percentile 100) ;;
       let undervalued := below price_threshold df in
       let undervalued := map (annotate (mean (prices df))) undervalued in
       Ok (sort_values discount_percent false undervalued))%py
  end.
End SortValues.

(** The contract of [numpy.argsort]: a permutation of the positions that
    lists the values in ascending order.  The order of equal values is
    left open (only [kind='stable'] fixes it). *)
Record ArgsortOk (argsort : list Q -> list nat) : Prop := {
  argsort_perm : forall v, Permutation (argsort v) (seq 0 (length v));
  argsort_sorted : forall v, Sorted Qle (take v (argsort v))
}.

(** A sorting algorithm within the contract: insertion of the values one
    by one, from the last to the first, into a sorted list of positions
    paired with their values, each before the first element that
    [before] puts it before. *)
Fixpoint insert_by {X} (key : X -> Q) (before : Q -> Q -> bool) (x : X)
    (l : list X) : list X :=
  match l with
  | [] => [x]
  | y :: l' => if before (key x) (key y) then x :: y :: l'
               else y :: insert_by key before x l'
  end.

Definition sort_by {X} (key : X -> Q) (before : Q -> Q -> bool)
    (l : list X) : list X :=
  fold_right (insert_by key before) [] l.

Definition argsort_by (before : Q -> Q -> bool) (v : list Q) : list nat :=
  map fst (sort_by snd before (combine (seq 0 (length v)) v)).

(** Equal values keep their order, as with [kind='stable']. *)
Definition argsort_stable : list Q -> list nat := argsort_by Qle_bool.

(** The linear-interpolation percentile in the words of the
    specification: [v] lies at position [(n - 1) * p / 100] of the sorted
    values, a whole part [k] and a fraction [t] of the way from the
    [k]-th value to the next. *)
Definition is_linear_percentile (values : list Q) (p v : Q) : Prop :=
  exists (sorted : list Q) (k : nat) (t : Q),
    Permutation sorted values /\ Sorted Qle sorted /\
    (k < length values)%nat /\ 0 <= t /\ t < 1 /\
    (inject_Z (Z.of_nat (length values)) - 1) * (p / 100)
      == inject_Z (Z.of_nat k) + t /\
    v == nth k sorted 0 + t * (nth (S k) sorted 0 - nth k sorted 0).

(** The computation of the threshold in binary64 rounds nothing away: it
    gives the percentile itself. *)
Definition exact_percentile (values : list Q) (p : Q) : bool :=
  match quantile64 values (Binary64.div p 100), quantile values (p / 100) with
  | Ok computed, Ok exact => Qeq_bool computed exact
  | _, _ => false
  end.

(** Descending order of discount. *)
Definition descending (out : list UndervaluedAsset) : Prop :=
  StronglySorted (fun x y => discount_percent y <= discount_percent x) out.

End AssetAnalyzer.

Import AssetAnalyzer.

(** ** Frames as objects

    A pandas frame is an object, and a statement can change it in place
    or make a new one.  The analyzer over a heap of frame objects: what
    [identify_undervalued_assets] reads, makes and changes, statement by
    statement. *)

Module Frames.

(** A frame object: its rows and, where the frame has the column, the
    values of [discount_percent], row by row. *)
Record frame : Type := {
  assets : DataFrame;
  discounts : option (list Q)
}.

(** The frame objects of the program, by address. *)
Definition heap : Type := list frame.

(** [pd.DataFrame()]. *)
Definition empty : frame := {| assets := []; discounts := None |}.

Definition read (h : heap) (address : nat) : frame := nth address h empty.

(** A new object: its address, and the heap with it. *)
Definition new (f : frame) (h : heap) : nat * heap := (length h, h ++ [f]).

(** The object at [address] replaced, as a statement that changes a
    frame in place leaves the heap. *)
Fixpoint write (address : nat) (f : frame) (h : heap) : heap :=
  match h, address with
  | [], _ => []
  | _ :: rest, O => f :: rest
  | g :: rest, S n => g :: write n f rest
  end.

(** The elements the mask keeps. *)
Definition keep {A} (mask : list bool) (l : list A) : list A :=
  map snd (filter fst (combine mask l)).

(** [frame[mask]]: the rows the mask keeps, as a frame of its own. *)
Definition getitem (mask : list bool) (f : frame) : frame :=
  {| assets := keep mask (assets f);
     discounts := option_map (keep mask) (discounts f) |}.

(** [frame["discount_percent"] = values]. *)
Definition setitem (values : list Q) (f : frame) : frame :=
  {| assets := assets f; discounts := Some values |}.

Section SortValues.

Variable argsort : list Q -> list nat.

(** [frame.sort_values("discount_percent", ascending=...)]: a frame of
    its own, and a [KeyError] where the frame has no such column. *)
Definition sort_values (f : frame) (ascending : bool) : result frame :=
  match discounts f with
  | Some values =>
      let indexer := nargsort argsort values ascending in
      Ok {| assets := take (assets f) indexer;
            discounts := Some (take values indexer) |}
  | None => Raise KeyError
  end.

(** [identify_undervalued_assets(df, threshold_percentile)] on the frame
    object at address [df]: the address of the frame it returns, and the
    heap it leaves. *)
Definition identify_undervalued_assets (df : nat) (threshold_percentile : Q)
    (h : heap) : result nat * heap :=
  match assets (read h df) with
  | [] => let (out, h) := new empty h in (Ok out, h)
  | _ :: _ =>
      match quantile64 (prices (assets (read h df)))
                       (Binary64.div threshold_percentile 100) with
      | Raise e => (Raise e, h)
      | Ok price_threshold =>
          let mask := map (fun a => Qlt_bool (price a) price_threshold)
                          (assets (read h df)) in
          let (selected, h) := new (getitem mask (read h df)) h in
          let (undervalued, h) := new (read h selected) h in
          let mean_price := mean (prices (assets (read h df))) in
          let values :=
            map (fun a => (mean_price - price a) / mean_price * 100)
                (assets (read h undervalued)) in
          let h := write undervalued
                         (setitem values (read h undervalued)) h in
          match sort_values (read h undervalued) false with
          | Ok sorted => let (out, h) := new sorted h in (Ok out, h)
          | Raise e => (Raise e, h)
          end
      end
  end.

(** Two calls in a row on the same frame object: the second. *)
Definition identify_again (df : nat) (threshold_percentile : Q) (h : heap)
    : result nat * heap :=
  identify_undervalued_assets df threshold_percentile
    (snd (identify_undervalued_assets df threshold_percentile h)).

End SortValues.

(** The rows of a frame with their discounts. *)
Definition records (f : frame) : list UndervaluedAsset :=
  match discounts f with
  | Some values =>
      map (fun r => {| asset := fst r; discount_percent := snd r |})
          (combine (assets f) values)
  | None => []
  end.

End Frames.

(** ** Concrete frames *)

Definition asset_of (i : Z) (p : Q) : StoredAsset :=
  {| id := i; title := "item"; price := p;
     link := "https://example-marketplace.com/item"; date_added := 0 |}.

Definition frame_five : DataFrame :=
  [asset_of 1 10; asset_of 2 20; asset_of 3 30; asset_of 4 40; asset_of 5 100].

(** Two assets of equal price below the median. *)
Definition frame_pair : DataFrame :=
  [asset_of 1 10; asset_of 2 10; asset_of 3 30; asset_of 4 40; asset_of 5 100].

(** Twenty-six assets priced 1 to 26. *)
Definition frame_26 : DataFrame :=
  map (fun i => asset_of (Z.of_nat i) (inject_Z (Z.of_nat i))) (seq 1 26).

(** A heap of two frames read from the store. *)
Definition heap_five : Frames.heap :=
  [{| Frames.assets := frame_pair; Frames.discounts := None |};
   {| Frames.assets := frame_five; Frames.discounts := None |}].

(** A medium that never fails, a clock that ticks with the writes, and a
    batch of two listings. *)
Definition never_fails (n : nat) : bool := false.

Definition ticking (n : nat) : Z := 1700000000 + Z.of_nat n.

Definition two_listings : list DatabaseManager.parameters :=
  [(Some "Lamp", Some (2469 # 2), Some "/item/lamp");
   (Some "Desk", Some 80, Some "/item/desk")]%string.

(** The connection on a new database file, and after [two_listings] went
    into it. *)
Definition new_database : DatabaseManager.connection :=
  {| DatabaseManager.table := [];
     DatabaseManager.journal := None;
     DatabaseManager.writes := 0 |}.

Definition after_two_listings : DatabaseManager.connection :=
  snd (DatabaseManager.insert_assets never_fails ticking two_listings
         new_database).

(** Listings and marketplaces. *)

Definition lamp : MarketplaceScraper.listing_block :=
  {| MarketplaceScraper.h2 := Some "Lamp"%string;
     MarketplaceScraper.price_span := Some "$1,234.50"%string;
     MarketplaceScraper.anchor := Some (Some "/item/lamp"%string) |}.

Definition desk : MarketplaceScraper.listing_block :=
  {| MarketplaceScraper.h2 := Some "Desk"%string;
     MarketplaceScraper.price_span := Some "$80"%string;
     MarketplaceScraper.anchor := Some (Some "/item/desk"%string) |}.

(** A listing without price element. *)
Definition no_price : MarketplaceScraper.listing_block :=
  {| MarketplaceScraper.h2 := Some "Chair"%string;
     MarketplaceScraper.price_span := None;
     MarketplaceScraper.anchor := Some (Some "/item/chair"%string) |}.

(** A listing with title and price and without anchor. *)
Definition no_anchor : MarketplaceScraper.listing_block :=
  {| MarketplaceScraper.h2 := Some "Vase"%string;
     MarketplaceScraper.price_span := Some "$5"%string;
     MarketplaceScraper.anchor := None |}.

(** A marketplace whose page 2 does not answer. *)
Definition marketplace (url : string) : MarketplaceScraper.http_outcome :=
  if (url =? "https://example-marketplace.com/page/2")%string
  then MarketplaceScraper.NoResponse
  else MarketplaceScraper.Response 200 [lamp; no_price; desk].

(** A marketplace whose pages hold a listing without anchor between two
    well-formed listings. *)
Definition marketplace_no_anchor (url : string)
    : MarketplaceScraper.http_outcome :=
  MarketplaceScraper.Response 200 [lamp; no_anchor; desk].

(** A marketplace whose page 2 holds a listing without anchor. *)
Definition marketplace_unlinked_page_2 (url : string)
    : MarketplaceScraper.http_outcome :=
  if (url =? "https://example-marketplace.com/page/2")%string
  then MarketplaceScraper.Response 200 [lamp; no_anchor; desk]
  else MarketplaceScraper.Response 200 [lamp; desk].

(** ** AuctionManager *)

(** A value of a row of the tree as [Treeview.item] hands it back, and of
    the dict made from it: the text the tree was given, or the [int] ttk
    makes of a text that reads as one. *)
Inductive cell : Type :=
| Str (s : string)
| Int (n : Z).

Module AuctionManager.

(** The dict [item]: the values under the keys ["title"], ["price"] and
    ["link"], where it has the key. *)
Record item : Type := {
  title : option cell;
  price : option Q;
  link : option cell
}.

(** The JSON document posted. *)
Record payload : Type := {
  payload_title : cell;
  payload_price : Q;
  payload_link : cell;
  timestamp : Z
}.

(** What [requests.post] meets: no response, or a response with its
    status code. *)
Inductive post_outcome : Type :=
| NoResponse
| Response (status_code : Z).

Inductive event : Type :=
| Post (url : string) (json : payload)
| LogInfo (posted : cell)
| LogError (failed : cell) (e : exn).

Section Site.

(** The auction site, and the URL of its API. *)
Variable post : string -> payload -> post_outcome.
Variable api_url : string.

(** [post_to_auction(item)] at the time [now]: the lookups of the three
    keys come first, and a missing key is a [KeyError] that the handler,
    which is for [RequestException], lets through. *)
Definition post_to_auction (now : Z) (it : item)
    : result bool * list event :=
  match title it, price it, link it with
  | Some item_title, Some item_price, Some item_link =>
      let payload := {| payload_title := item_title;
                        payload_price := item_price;
                        payload_link := item_link;
                        timestamp := now |} in
      let url := (api_url ++ "/create-auction")%string in
      match post url payload with
      | NoResponse =>
          (Ok false, [Post url payload; LogError item_title RequestException])
      | Response status_code =>
          if ((400 <=? status_code) && (status_code <? 600))%Z
          then (Ok false,
                [Post url payload; LogError item_title RequestException])
          else (Ok true, [Post url payload; LogInfo item_title])
      end
  | _, _, _ => (Raise KeyError, [])
  end.

(** The site accepts the document. *)
Definition accepts (json : payload) : bool :=
  match post (api_url ++ "/create-auction")%string json with
  | NoResponse => false
  | Response status_code =>
      negb ((400 <=? status_code) && (status_code <? 600))%Z
  end.

End Site.

(** The documents posted, in order. *)
Definition posts (trace : list event) : list payload :=
  flat_map (fun ev => match ev with Post _ json => [json] | _ => [] end)
           trace.

End AuctionManager.

(** ** ApplicationGUI *)

Module ApplicationGUI.

Import MarketplaceScraper.

(** *** The formatting of numbers *)

(** The character of a decimal digit. *)
Definition digit_char (d : Z) : ascii := ascii_of_nat (48 + Z.to_nat d).

(** The last [n] decimal digits of [v]. *)
Fixpoint digits (n : nat) (v : Z) : string :=
  match n with
  | O => EmptyString
  | S n' => (digits n' (v / 10) ++ String (digit_char (v mod 10)) "")%string
  end.

(** The nearest integer, the even one of two that are as near. *)
Definition round_half_even (x : Q) : Z :=
  let below := Qfloor x in
  match Qcompare (x - inject_Z below) (1 # 2) with
  | Lt => below
  | Gt => (below + 1)%Z
  | Eq => if Z.even below then below else (below + 1)%Z
  end.

(** [format(x, ".<places>f")] for the float of value [x]: the sign of a
    negative number, the digits of [abs(x) * 10 ** places] rounded to an
    integer, and the point before the last [places] of them.  Python
    rounds the value the float has, a tie to the even digit: the float
    nearest to 2.675 lies below it and is written [2.67], and 0.125 is
    written [0.12]. *)
Definition format_fixed (places : nat) (x : Q) : string :=
  let scaled :=
    round_half_even (Qabs x * inject_Z (10 ^ Z.of_nat places)) in
  ((if Qlt_bool x 0 then "-" else "") ++
   str (scaled / 10 ^ Z.of_nat places) ++
   match places with
   | O => ""
   | S _ => "." ++ digits places scaled
   end)%string.

(** The number [format_fixed] writes. *)
Definition rounded (places : nat) (x : Q) : Q :=
  let scaled :=
    round_half_even (Qabs x * inject_Z (10 ^ Z.of_nat places)) in
  decimal (if Qlt_bool x 0 then (- scaled)%Z else scaled)
          (- Z.of_nat places).

(** *** The tree *)

(** [self.tree.item(item_id)["values"]]: the values under the columns
    Title, Price, Discount % and Link, as ttk hands them back. *)
Definition values : Type := (cell * cell * cell * cell)%type.

(** The text [handle_display] writes under Price for a row of price
    [price]: [f"${row['price']:.2f}"]. *)
Definition shown_price (price : Q) : string :=
  "$" ++ format_fixed 2 price.

(** The message boxes of the handlers. *)
Inductive dialog : Type :=
| ScrapeStored (count : nat)
| ScrapeFailed
| ScrapeRaised (e : exn)
| NoData
| SelectionRequired
| PostingComplete (posted total : nat).

(** The base URL of [MarketplaceScraper()] and the API URL of
    [AuctionManager()]. *)
Definition base_url : string := "https://example-marketplace.com".

Definition api_url : string := "https://your-auction-site.com/api".

(** The dict [handle_post_auction] makes of the values of a row. *)
Definition auction_item (v : values) : result AuctionManager.item :=
  let '(title_value, price_value, _, link_value) := v in
  (price_text <- match price_value with
                 | Str text => Ok (replace "$" "" text)
                 | Int _ => Raise AttributeError
                 end ;;
   price <- float price_text ;;
   Ok {| AuctionManager.title := Some title_value;
         AuctionManager.price := Some price;
         AuctionManager.link := Some link_value |})%py.

Section Handlers.

Variable get : string -> http_outcome.
Variable fault : nat -> bool.
Variable current_timestamp : nat -> Z.
Variable post :
  string -> AuctionManager.payload -> AuctionManager.post_outcome.

(** [datetime.now()] at the [k]-th call of [post_to_auction] of a
    click. *)
Variable now : nat -> Z.

(** [handle_scrape]: the message box, the connection and the trace of
    the scraper it leaves. *)
Definition handle_scrape (c : DatabaseManager.connection)
    : dialog * DatabaseManager.connection * list MarketplaceScraper.event :=
  match scrape_multiple_pages get base_url 1 3 with
  | (Ok items, trace) =>
      match items with
      | [] => (ScrapeFailed, c, trace)
      | _ :: _ =>
          match DatabaseManager.insert_assets fault current_timestamp
                  (map DatabaseManager.of_item items) c with
          | (Ok true, c') => (ScrapeStored (length items), c', trace)
          | (Ok false, c') => (ScrapeFailed, c', trace)
          | (Raise e, c') => (ScrapeRaised e, c', trace)
          end
      end
  | (Raise e, trace) => (ScrapeRaised e, c, trace)
  end.

(** The loop of [handle_post_auction] over the selection, from the
    number of calls made and the value of [posted]. *)
Fixpoint post_selection (selection : list values) (calls posted : nat)
    : result nat * list AuctionManager.event :=
  match selection with
  | [] => (Ok posted, [])
  | v :: rest =>
      match auction_item v with
      | Ok it =>
          match AuctionManager.post_to_auction post api_url (now calls) it
          with
          | (Ok succeeded, trace) =>
              let (r, trace') :=
                post_selection rest (S calls)
                  (if succeeded then S posted else posted) in
              (r, trace ++ trace')
          | (Raise e, trace) => (Raise e, trace)
          end
      | Raise e => (Raise e, [])
      end
  end.

Definition handle_post_auction (selection : list values)
    : result dialog * list AuctionManager.event :=
  match selection with
  | [] => (Ok SelectionRequired, [])
  | _ :: _ =>
      match post_selection selection 0 0 with
      | (Ok posted, trace) =>
          (Ok (PostingComplete posted (length selection)), trace)
      | (Raise e, trace) => (Raise e, trace)
      end
  end.

End Handlers.

(** The stored row holds an item that passes the check of the scraper. *)
Definition checked (a : StoredAsset) : bool :=
  passes_check (title a, price a, link a).

(** A row of the tree whose Price column [handle_display] wrote: the
    values of the columns Title, Discount % and Link as ttk hands them
    back, and the price of the row. *)
Definition shown : Type := (cell * Q * cell * cell)%type.

Definition shown_values (r : shown) : values :=
  let '(title_value, price, discount_value, link_value) := r in
  (title_value, Str (shown_price price), discount_value, link_value).

(** The document posted at [time] for such a row: its price is the float
    nearest to the price shown. *)
Definition shown_payload (time : Z) (r : shown) : AuctionManager.payload :=
  let '(title_value, price, _, link_value) := r in
  {| AuctionManager.payload_title := title_value;
     AuctionManager.payload_price := Binary64.round (rounded 2 price);
     AuctionManager.payload_link := link_value;
     AuctionManager.timestamp := time |}.

(** The documents for the rows [rs], from the [calls]-th call on. *)
Fixpoint documents (now : nat -> Z) (calls : nat) (rs : list shown)
    : list AuctionManager.payload :=
  match rs with
  | [] => []
  | r :: rest => shown_payload (now calls) r :: documents now (S calls) rest
  end.

End ApplicationGUI.

(** * Properties *)

(** ** Rationals *)

Lemma Qlt_bool_iff x y : Qlt_bool x y = true <-> x < y.
Proof.
  unfold Qlt_bool. rewrite negb_true_iff.
  split; intros H.
  - apply Qnot_le_lt. intros L. apply Qle_bool_iff in L. congruence.
  - destruct (Qle_bool y x) eqn:E; [|reflexivity].
    apply Qle_bool_iff in E. exfalso. apply (Qlt_not_le _ _ H E).
Qed.

(** ** Binary64 *)

Section Binary64Facts.

Import Binary64.

Lemma Qpower2_pos k : 0 < 2 ^ k.
Proof. apply Qpower_0_lt. reflexivity. Qed.

Lemma Qdiv_Z_lt N D A B :
  (0 < D)%Z -> (0 < B)%Z -> (N * B < A * D)%Z ->
  inject_Z N / inject_Z D < inject_Z A / inject_Z B.
Proof.
  intros HD HB H.
  destruct D as [|d|d]; try lia. destruct B as [|b|b]; try lia.
  unfold Qdiv, Qlt, Qmult, Qinv, inject_Z. cbn [Qnum Qden].
  rewrite !Z.mul_1_r, !Pos.mul_1_l. exact H.
Qed.

Lemma Qpower2_minus u v :
  (0 <= u)%Z -> (0 <= v)%Z ->
  2 ^ (u - v) == inject_Z (2 ^ u) / inject_Z (2 ^ v).
Proof.
  intros Hu Hv. rewrite Qpower_minus by (intros E; discriminate E).
  rewrite !Zpower_Qpower by assumption. reflexivity.
Qed.

(** [binade x] is the exponent of the power of two at or below [abs x]. *)
Lemma binade_spec x :
  ~ x == 0 -> 2 ^ binade x <= Qabs x /\ Qabs x < 2 ^ (binade x + 1).
Proof.
  intros Hx. destruct x as [n d].
  assert (Hn : (0 < Z.abs n)%Z).
  { destruct n; try (cbn; lia). exfalso. apply Hx. reflexivity. }
  unfold binade. cbn [Qnum Qden].
  set (a := Z.log2 (Z.abs n)). set (b := Z.log2 (Z.pos d)).
  destruct (Z.log2_spec (Z.abs n) Hn) as [La Ua]. fold a in La, Ua.
  destruct (Z.log2_spec (Z.pos d)) as [Lb Ub]; [lia|]. fold b in Lb, Ub.
  assert (Ha : (0 <= a)%Z) by apply Z.log2_nonneg.
  assert (Hb : (0 <= b)%Z) by apply Z.log2_nonneg.
  rewrite Z.pow_succ_r in Ua, Ub by assumption.
  assert (Pa : (0 < 2 ^ a)%Z) by (apply Z.pow_pos_nonneg; lia).
  assert (Pb : (0 < 2 ^ b)%Z) by (apply Z.pow_pos_nonneg; lia).
  assert (Eabs : Qabs (n # d) == inject_Z (Z.abs n) / inject_Z (Z.pos d)).
  { cbn [Qabs]. apply Qmake_Qdiv. }
  assert (U : Qabs (n # d) < 2 ^ (a - b + 1)).
  { replace (a - b + 1)%Z with (a + 1 - b)%Z by lia.
    rewrite Qpower2_minus, Eabs by lia. apply Qdiv_Z_lt; [lia|lia|].
    rewrite Z.pow_add_r, Z.pow_1_r by lia. nia. }
  assert (L : 2 ^ (a - b - 1) <= Qabs (n # d)).
  { replace (a - b - 1)%Z with (a - (b + 1))%Z by lia.
    rewrite Qpower2_minus, Eabs by lia. apply Qlt_le_weak.
    apply Qdiv_Z_lt; [|lia|].
    - apply Z.pow_pos_nonneg; lia.
    - rewrite Z.pow_add_r, Z.pow_1_r by lia. nia. }
  destruct (Qle_bool (2 ^ (a - b)) (Qabs (n # d))) eqn:E.
  - apply Qle_bool_iff in E. split; assumption.
  - split; [exact L|].
    replace (a - b - 1 + 1)%Z with (a - b)%Z by lia.
    apply Qnot_le_lt. intros H. apply Qle_bool_iff in H. congruence.
Qed.

Lemma binade_mono x y : 0 < x -> x <= y -> (binade x <= binade y)%Z.
Proof.
  intros Hx Hxy.
  assert (Hy : 0 < y) by lra.
  destruct (@binade_spec x) as [Lx _]; [lra|].
  destruct (@binade_spec y) as [_ Uy]; [lra|].
  rewrite Qabs_pos in Lx, Uy by lra.
  assert (H : 2 ^ binade x < 2 ^ (binade y + 1)) by lra.
  apply Qpower_lt_compat_l_inv in H; [lia|reflexivity].
Qed.

(** *** The nearest integer *)

Lemma nearest_even_spec x :
  - (1 # 2) <= inject_Z (nearest_even x) - x /\
  inject_Z (nearest_even x) - x <= 1 # 2 /\
  (inject_Z (nearest_even x) - x == 1 # 2 \/
   inject_Z (nearest_even x) - x == - (1 # 2) ->
   Z.even (nearest_even x) = true).
Proof.
  unfold nearest_even.
  pose proof (Qfloor_le x) as L. pose proof (Qlt_floor x) as U.
  rewrite inject_Z_plus in U. change (inject_Z 1) with 1 in U.
  destruct (Qcompare (x - inject_Z (Qfloor x)) (1 # 2)) eqn:E.
  - apply Qeq_alt in E. destruct (Z.even (Qfloor x)) eqn:Ev.
    + repeat split; try lra. intros _. exact Ev.
    + rewrite inject_Z_plus. change (inject_Z 1) with 1.
      repeat split; try lra. intros _.
      rewrite Z.even_add, Ev. reflexivity.
  - apply Qlt_alt in E. repeat split; try lra; intros [H|H]; lra.
  - apply Qgt_alt in E. rewrite inject_Z_plus. change (inject_Z 1) with 1.
    repeat split; try lra; intros [H|H]; lra.
Qed.

Lemma nearest_even_unique x n :
  - (1 # 2) <= inject_Z n - x -> inject_Z n - x <= 1 # 2 ->
  (inject_Z n - x == 1 # 2 \/ inject_Z n - x == - (1 # 2) ->
   Z.even n = true) ->
  nearest_even x = n.
Proof.
  intros L U Ev.
  destruct (nearest_even_spec x) as [L' [U' Ev']].
  set (m := nearest_even x) in *.
  assert (Hd : inject_Z (m - n) <= 1 /\ -1 <= inject_Z (m - n)).
  { unfold Zminus. rewrite inject_Z_plus, inject_Z_opp. split; lra. }
  destruct Hd as [H1 H2].
  change 1 with (inject_Z 1) in H1. change (-1) with (inject_Z (-1)) in H2.
  rewrite <- Zle_Qle in H1, H2.
  assert (m - n = 0 \/ m - n = 1 \/ m - n = -1)%Z as [E|[E|E]] by lia.
  - lia.
  - exfalso.
    assert (Em : inject_Z m == inject_Z n + 1).
    { replace m with (n + 1)%Z by lia. rewrite inject_Z_plus. reflexivity. }
    assert (Hm : Z.even m = true) by (apply Ev'; left; lra).
    assert (Hn : Z.even n = true) by (apply Ev; right; lra).
    replace m with (n + 1)%Z in Hm by lia.
    rewrite Z.even_add, Hn in Hm. discriminate Hm.
  - exfalso.
    assert (Em : inject_Z m == inject_Z n - 1).
    { replace m with (n + -1)%Z by lia. rewrite inject_Z_plus. reflexivity. }
    assert (Hm : Z.even m = true) by (apply Ev'; right; lra).
    assert (Hn : Z.even n = true) by (apply Ev; left; lra).
    replace m with (n + -1)%Z in Hm by lia.
    rewrite Z.even_add, Hn in Hm. discriminate Hm.
Qed.

Lemma nearest_even_comp x y : x == y -> nearest_even x = nearest_even y.
Proof.
  intros E. destruct (nearest_even_spec y) as [L [U Ev]].
  apply nearest_even_unique; rewrite ?E; assumption.
Qed.

Lemma nearest_even_opp x : nearest_even (- x) = (- nearest_even x)%Z.
Proof.
  destruct (nearest_even_spec x) as [L [U Ev]].
  apply nearest_even_unique; rewrite ?inject_Z_opp; try lra.
  intros H. rewrite Z.even_opp. apply Ev. destruct H; [right|left]; lra.
Qed.

Lemma nearest_even_integer n : nearest_even (inject_Z n) = n.
Proof.
  apply nearest_even_unique; try lra; intros [H|H]; lra.
Qed.

Lemma nearest_even_mono x y :
  x <= y -> (nearest_even x <= nearest_even y)%Z.
Proof.
  intros H.
  destruct (nearest_even_spec x) as [Lx [Ux Ex]].
  destruct (nearest_even_spec y) as [Ly [Uy Ey]].
  set (m := nearest_even x) in *. set (n := nearest_even y) in *.
  destruct (Z_le_gt_dec m n) as [Hle|Hgt]; [exact Hle|exfalso].
  assert (H1 : inject_Z n + 1 <= inject_Z m).
  { change 1 with (inject_Z 1). rewrite <- inject_Z_plus, <- Zle_Qle. lia. }
  assert (Hm : Z.even m = true) by (apply Ex; left; lra).
  assert (Hn : Z.even n = true) by (apply Ey; right; lra).
  assert (E : m = (n + 1)%Z).
  { assert (H2 : inject_Z m <= inject_Z n + 1) by lra.
    change 1 with (inject_Z 1) in H2.
    rewrite <- inject_Z_plus, <- Zle_Qle in H2. lia. }
  rewrite E, Z.even_add, Hn in Hm. discriminate Hm.
Qed.

(** *** Rounding *)

Lemma round_0 x : x == 0 -> round x = 0.
Proof.
  intros E. unfold round. apply Qeq_bool_iff in E. rewrite E. reflexivity.
Qed.

Lemma round_nonzero x :
  ~ x == 0 ->
  round x == inject_Z (nearest_even (x / 2 ^ Z.max (binade x - 52) (-1074)))
             * 2 ^ Z.max (binade x - 52) (-1074).
Proof.
  intros H. unfold round.
  destruct (Qeq_bool x 0) eqn:E; [apply Qeq_bool_iff in E; contradiction|].
  apply Qred_correct.
Qed.

Lemma binade_opp x : binade (- x) = binade x.
Proof.
  destruct x as [n d]. unfold binade. cbn [Qopp Qnum Qden Qabs].
  rewrite Z.abs_opp. reflexivity.
Qed.

Lemma round_opp x : round (- x) == - round x.
Proof.
  destruct (Qeq_dec x 0) as [E|N].
  - rewrite !round_0; [reflexivity|exact E|rewrite E; reflexivity].
  - rewrite !round_nonzero; [|exact N|intros E; apply N; lra].
    rewrite binade_opp.
    set (u := 2 ^ Z.max (binade x - 52) (-1074)).
    rewrite (@nearest_even_comp (- x / u) (- (x / u))),
      nearest_even_opp, inject_Z_opp.
    + ring.
    + unfold Qdiv. ring.
Qed.

Lemma round_nonneg x : 0 <= x -> 0 <= round x.
Proof.
  intros H. destruct (Qeq_dec x 0) as [E|N].
  - rewrite round_0 by exact E. apply Qle_refl.
  - rewrite round_nonzero by exact N.
    set (u := 2 ^ Z.max (binade x - 52) (-1074)).
    assert (Hu : 0 < u) by apply Qpower2_pos.
    apply Qmult_le_0_compat; [|lra].
    change 0 with (inject_Z 0). rewrite <- Zle_Qle.
    rewrite <- (nearest_even_integer 0). apply nearest_even_mono.
    apply Qle_shift_div_l; [exact Hu|]. change (inject_Z 0) with 0. lra.
Qed.

(** A power of two at or above the unit in the last place bounds the
    rounded value as it bounds the value. *)
Lemma round_le_power x m :
  0 < x -> (Z.max (binade x - 52) (-1074) <= m)%Z ->
  x <= 2 ^ m -> round x <= 2 ^ m.
Proof.
  intros Hx Hm H. rewrite round_nonzero by lra.
  set (e := Z.max (binade x - 52) (-1074)) in *.
  assert (Hu : 0 < 2 ^ e) by apply Qpower2_pos.
  assert (E : 2 ^ m == inject_Z (2 ^ (m - e)) * 2 ^ e).
  { rewrite Zpower_Qpower by lia. change (inject_Z 2) with 2.
    rewrite <- Qpower_plus by (intros E; discriminate E).
    replace (m - e + e)%Z with m by lia. reflexivity. }
  rewrite E. apply Qmult_le_compat_r; [|lra].
  rewrite <- Zle_Qle. rewrite <- (nearest_even_integer (2 ^ (m - e))).
  apply nearest_even_mono. apply Qle_shift_div_r; [exact Hu|].
  rewrite <- E. exact H.
Qed.

Lemma round_ge_power x m :
  0 < x -> (Z.max (binade x - 52) (-1074) <= m)%Z ->
  2 ^ m <= x -> 2 ^ m <= round x.
Proof.
  intros Hx Hm H. rewrite round_nonzero by lra.
  set (e := Z.max (binade x - 52) (-1074)) in *.
  assert (Hu : 0 < 2 ^ e) by apply Qpower2_pos.
  assert (E : 2 ^ m == inject_Z (2 ^ (m - e)) * 2 ^ e).
  { rewrite Zpower_Qpower by lia. change (inject_Z 2) with 2.
    rewrite <- Qpower_plus by (intros E; discriminate E).
    replace (m - e + e)%Z with m by lia. reflexivity. }
  rewrite E. apply Qmult_le_compat_r; [|lra].
  rewrite <- Zle_Qle. rewrite <- (nearest_even_integer (2 ^ (m - e))) at 1.
  apply nearest_even_mono. apply Qle_shift_div_l; [exact Hu|].
  rewrite <- E. exact H.
Qed.

Lemma round_mono_pos x y : 0 < x -> x <= y -> round x <= round y.
Proof.
  intros Hx Hxy. assert (Hy : 0 < y) by lra.
  pose proof (binade_mono Hx Hxy) as Hb.
  destruct (Z.eq_dec (Z.max (binade x - 52) (-1074))
                     (Z.max (binade y - 52) (-1074))) as [E|N].
  - rewrite !round_nonzero by lra. rewrite <- E.
    set (u := 2 ^ Z.max (binade x - 52) (-1074)).
    assert (Hu : 0 < u) by apply Qpower2_pos.
    apply Qmult_le_compat_r; [|lra].
    rewrite <- Zle_Qle. apply nearest_even_mono.
    apply Qle_shift_div_l; [exact Hu|].
    unfold Qdiv. rewrite <- Qmult_assoc, (Qmult_comm (/ u)), Qmult_inv_r by lra.
    lra.
  - destruct (@binade_spec x) as [_ Ux]; [lra|].
    destruct (@binade_spec y) as [Ly _]; [lra|].
    rewrite Qabs_pos in Ux, Ly by lra.
    assert (Hlt : (binade x < binade y)%Z) by lia.
    assert (Hpow : 2 ^ (binade x + 1) <= 2 ^ binade y).
    { apply Qpower_le_compat_l; [lia|]. unfold Qle. cbn. lia. }
    apply Qle_trans with (2 ^ binade y).
    + apply round_le_power; [exact Hx|lia|lra].
    + apply round_ge_power; [exact Hy|lia|exact Ly].
Qed.

(** Rounding keeps the order. *)
Lemma round_mono x y : x <= y -> round x <= round y.
Proof.
  intros H.
  destruct (Qlt_le_dec 0 x) as [Hx|Hx]; [apply round_mono_pos; assumption|].
  destruct (Qlt_le_dec y 0) as [Hy|Hy].
  - assert (H' : round (- y) <= round (- x)) by (apply round_mono_pos; lra).
    rewrite !round_opp in H'. lra.
  - apply Qle_trans with 0; [|apply round_nonneg; exact Hy].
    assert (H' : 0 <= round (- x)) by (apply round_nonneg; lra).
    rewrite round_opp in H'. lra.
Qed.

Lemma binade_comp x y : ~ x == 0 -> x == y -> binade x = binade y.
Proof.
  intros N E.
  destruct (@binade_spec x N) as [Lx Ux].
  destruct (@binade_spec y) as [Ly Uy]; [rewrite <- E; exact N|].
  assert (Ea : Qabs x == Qabs y) by (apply Qabs_wd; exact E).
  rewrite Ea in Lx, Ux.
  assert (H1 : 2 ^ binade x < 2 ^ (binade y + 1)) by lra.
  assert (H2 : 2 ^ binade y < 2 ^ (binade x + 1)) by lra.
  apply Qpower_lt_compat_l_inv in H1; [|reflexivity].
  apply Qpower_lt_compat_l_inv in H2; [|reflexivity].
  lia.
Qed.

(** Rounding does not depend on how the fraction is written. *)
Lemma round_comp x y : x == y -> round x = round y.
Proof.
  intros E. unfold round.
  destruct (Qeq_bool x 0) eqn:Ex, (Qeq_bool y 0) eqn:Ey; [reflexivity|..].
  - apply Qeq_bool_iff in Ex. apply Qeq_bool_neq in Ey.
    exfalso. apply Ey. rewrite <- E. exact Ex.
  - apply Qeq_bool_iff in Ey. apply Qeq_bool_neq in Ex.
    exfalso. apply Ex. rewrite E. exact Ey.
  - apply Qeq_bool_neq in Ex.
    rewrite <- (binade_comp Ex E). apply Qred_complete.
    rewrite (@nearest_even_comp
               (x / 2 ^ Z.max (binade x - 52) (-1074))
               (y / 2 ^ Z.max (binade x - 52) (-1074)));
      [reflexivity|].
    unfold Qdiv. apply Qmult_comp; [exact E|reflexivity].
Qed.

End Binary64Facts.

(** ** Facts about [take] *)

Section TakeFacts.

Context {A : Type}.
Implicit Types (l : list A) (ix : list nat).

Lemma take_nil_r l : take l [] = [].
Proof. reflexivity. Qed.

Lemma take_cons l i ix :
  take l (i :: ix) =
  match nth_error l i with Some r => [r] | None => [] end ++ take l ix.
Proof. reflexivity. Qed.

Lemma take_app l ix1 ix2 : take l (ix1 ++ ix2) = take l ix1 ++ take l ix2.
Proof. unfold take. apply flat_map_app. Qed.

Lemma take_rev l ix : take l (rev ix) = rev (take l ix).
Proof.
  induction ix as [|i ix IH]; [reflexivity|].
  simpl rev. rewrite take_app, IH, take_cons, rev_app_distr.
  f_equal. simpl. destruct (nth_error l i); reflexivity.
Qed.

Lemma take_seq_from (pre l : list A) :
  take (pre ++ l) (seq (length pre) (length l)) = l.
Proof.
  revert pre. induction l as [|a l IH]; intros pre; [reflexivity|].
  simpl seq. rewrite take_cons.
  rewrite nth_error_app2, Nat.sub_diag by lia. simpl.
  f_equal.
  specialize (IH (pre ++ [a])).
  rewrite <- app_assoc, length_app in IH. simpl in IH.
  rewrite Nat.add_1_r in IH. exact IH.
Qed.

Lemma take_seq_all l : take l (seq 0 (length l)) = l.
Proof. exact (take_seq_from [] l). Qed.

Lemma take_Permutation l ix1 ix2 :
  Permutation ix1 ix2 -> Permutation (take l ix1) (take l ix2).
Proof.
  intros H. unfold take.
  induction H; simpl.
  - constructor.
  - apply Permutation_app_head. assumption.
  - rewrite !app_assoc. apply Permutation_app_tail, Permutation_app_comm.
  - eapply Permutation_trans; eassumption.
Qed.

Lemma take_all_Permutation l ix :
  Permutation ix (seq 0 (length l)) -> Permutation (take l ix) l.
Proof.
  intros H. rewrite <- (take_seq_all l) at 2.
  apply take_Permutation. exact H.
Qed.

Lemma take_in_range_length l ix :
  Forall (fun i => (i < length l)%nat) ix -> length (take l ix) = length ix.
Proof.
  induction 1 as [|i ix Hi _ IH]; [reflexivity|].
  rewrite take_cons, length_app, IH.
  destruct (nth_error l i) eqn:E; [reflexivity|].
  apply nth_error_None in E. lia.
Qed.

End TakeFacts.

Lemma take_map {A B} (f : A -> B) (l : list A) ix :
  take (map f l) ix = map f (take l ix).
Proof.
  induction ix as [|i ix IH]; [reflexivity|].
  rewrite !take_cons, map_app, IH. f_equal.
  rewrite nth_error_map. destruct (nth_error l i); reflexivity.
Qed.

(** Selecting through a selection of positions. *)
Lemma take_take {A} (l : list A) (p ix : list nat) :
  Forall (fun i => (i < length l)%nat) p ->
  take l (take p ix) = take (take l p) ix.
Proof.
  intros Hp.
  assert (Hnth : forall j, nth_error (take l p) j =
                           match nth_error p j with
                           | Some i => nth_error l i
                           | None => None
                           end).
  { induction Hp as [|i p Hi _ IH]; intros j.
    - destruct j; reflexivity.
    - rewrite take_cons.
      destruct (nth_error l i) as [r|] eqn:E.
      + destruct j; simpl; [congruence | apply IH].
      + apply nth_error_None in E. lia. }
  induction ix as [|j ix IH]; [reflexivity|].
  rewrite (take_cons p), take_app, IH, (take_cons (take l p)).
  f_equal. rewrite Hnth.
  destruct (nth_error p j) as [i|]; [|reflexivity].
  rewrite take_cons, take_nil_r, app_nil_r. reflexivity.
Qed.

Lemma take_rev_seq {A} (l : list A) :
  take l (rev (seq 0 (length l))) = rev l.
Proof. rewrite take_rev, take_seq_all. reflexivity. Qed.

(** ** Facts about sorted lists *)

Section SortedFacts.

Context {A : Type}.

Lemma StronglySorted_app (R : A -> A -> Prop) l1 l2 :
  StronglySorted R l1 -> StronglySorted R l2 ->
  (forall x y, In x l1 -> In y l2 -> R x y) ->
  StronglySorted R (l1 ++ l2).
Proof.
  intros H1 H2 H12. induction H1 as [|a l1 H1 IH Ha]; [exact H2|].
  simpl. constructor.
  - apply IH. intros x y Hx Hy. apply H12; [right|]; assumption.
  - apply Forall_app. split; [exact Ha|].
    apply Forall_forall. intros y Hy. apply H12; [left; reflexivity|exact Hy].
Qed.

Lemma StronglySorted_rev (R : A -> A -> Prop) l :
  StronglySorted R l -> StronglySorted (fun x y => R y x) (rev l).
Proof.
  induction 1 as [|a l H IH Ha]; [constructor|].
  simpl. apply StronglySorted_app.
  - exact IH.
  - repeat constructor.
  - intros x y Hx [<-|[]]. apply in_rev in Hx.
    rewrite Forall_forall in Ha. apply Ha. exact Hx.
Qed.

End SortedFacts.

Lemma StronglySorted_map_inv {A B} (f : A -> B) (R : B -> B -> Prop) l :
  StronglySorted R (map f l) -> StronglySorted (fun x y => R (f x) (f y)) l.
Proof.
  induction l as [|a l IH]; intros H; [constructor|].
  inversion H as [|? ? Hs Hf]; subst. constructor.
  - apply IH. exact Hs.
  - rewrite Forall_map in Hf. exact Hf.
Qed.

Lemma Sorted_Qle_strong l : Sorted Qle l -> StronglySorted Qle l.
Proof.
  apply Sorted_StronglySorted. intros x y z. apply Qle_trans.
Qed.

(** ** [sort_values] *)

Section SortValuesFacts.

Variable argsort : list Q -> list nat.
Hypothesis argsort_ok : ArgsortOk argsort.

Lemma seq_in_range n : Forall (fun i => (i < n)%nat) (seq 0 n).
Proof. apply Forall_forall. intros i Hi. apply in_seq in Hi. lia. Qed.

Lemma nargsort_desc_Permutation items :
  Permutation (nargsort argsort items false) (seq 0 (length items)).
Proof.
  unfold nargsort.
  rewrite <- Permutation_rev.
  transitivity (rev (seq 0 (length items))); [|symmetry; apply Permutation_rev].
  apply take_all_Permutation.
  rewrite length_rev, length_seq, <- (length_rev items).
  apply argsort_perm. exact argsort_ok.
Qed.

Lemma nargsort_desc_values items :
  take items (nargsort argsort items false) =
  rev (take (rev items) (argsort (rev items))).
Proof.
  unfold nargsort. rewrite take_rev. f_equal.
  rewrite take_take.
  - rewrite take_rev_seq. reflexivity.
  - apply Forall_forall. intros i Hi. apply in_rev, in_seq in Hi. lia.
Qed.

Lemma sort_values_desc_Permutation {A} (by_ : A -> Q) rows :
  Permutation (sort_values argsort by_ false rows) rows.
Proof.
  unfold sort_values. apply take_all_Permutation.
  rewrite <- (length_map by_ rows). apply nargsort_desc_Permutation.
Qed.

Lemma sort_values_desc_sorted {A} (by_ : A -> Q) rows :
  StronglySorted (fun x y => by_ y <= by_ x)
                 (sort_values argsort by_ false rows).
Proof.
  apply StronglySorted_map_inv with (R := fun x y => y <= x) (f := by_).
  unfold sort_values. rewrite <- take_map, nargsort_desc_values.
  apply StronglySorted_rev, Sorted_Qle_strong.
  apply argsort_sorted. exact argsort_ok.
Qed.

End SortValuesFacts.

(** ** The insertion sort meets the contract *)

Lemma take_indexed {A} (v : list A) (ps : list (nat * A)) :
  Forall (fun p => nth_error v (fst p) = Some (snd p)) ps ->
  take v (map fst ps) = map snd ps.
Proof.
  induction 1 as [|p ps Hp _ IH]; [reflexivity|].
  simpl map. rewrite take_cons, Hp, IH. reflexivity.
Qed.

Lemma combine_seq_indexed {A} (v : list A) :
  Forall (fun p => nth_error v (fst p) = Some (snd p))
         (combine (seq 0 (length v)) v).
Proof.
  apply Forall_forall. intros [i x] Hin. simpl.
  destruct (In_nth _ _ (0%nat, x) Hin) as [n [Hn Hnth]].
  rewrite length_combine, length_seq, Nat.min_id in Hn.
  rewrite combine_nth in Hnth by (rewrite length_seq; reflexivity).
  rewrite seq_nth in Hnth by exact Hn. simpl in Hnth.
  injection Hnth as <- Hx.
  transitivity (Some (nth n v x)); [|f_equal; exact Hx].
  apply nth_error_nth'. exact Hn.
Qed.

Lemma map_fst_combine_seq {A} (v : list A) n :
  map fst (combine (seq n (length v)) v) = seq n (length v).
Proof.
  revert n. induction v as [|x v IH]; intros n; [reflexivity|].
  simpl. f_equal. apply IH.
Qed.

Lemma map_snd_combine_seq {A} (v : list A) n :
  map snd (combine (seq n (length v)) v) = v.
Proof.
  revert n. induction v as [|x v IH]; intros n; [reflexivity|].
  simpl. f_equal. apply IH.
Qed.

Section SortBy.

Context {X : Type} (key : X -> Q).
Variable before : Q -> Q -> bool.

Lemma insert_by_Permutation x l :
  Permutation (insert_by key before x l) (x :: l).
Proof.
  induction l as [|y l IH]; simpl; [reflexivity|].
  destruct (before (key x) (key y)); [reflexivity|].
  rewrite IH. apply perm_swap.
Qed.

Lemma sort_by_Permutation l : Permutation (sort_by key before l) l.
Proof.
  induction l as [|x l IH]; simpl; [reflexivity|].
  rewrite insert_by_Permutation. constructor. exact IH.
Qed.

(** Sorting commutes with a map that keeps the keys. *)
Lemma insert_by_map {Y} (key' : Y -> Q) (f : X -> Y) x l :
  (forall x, key' (f x) = key x) ->
  insert_by key' before (f x) (map f l) = map f (insert_by key before x l).
Proof.
  intros Hkey. induction l as [|y l IH]; [reflexivity|].
  cbn [map insert_by]. rewrite !Hkey.
  destruct (before (key x) (key y)); [reflexivity|].
  cbn [map]. rewrite IH. reflexivity.
Qed.

Lemma sort_by_map {Y} (key' : Y -> Q) (f : X -> Y) l :
  (forall x, key' (f x) = key x) ->
  sort_by key' before (map f l) = map f (sort_by key before l).
Proof.
  intros Hkey. induction l as [|x l IH]; [reflexivity|].
  cbn [map]. unfold sort_by in *. cbn [fold_right].
  rewrite IH. apply insert_by_map. exact Hkey.
Qed.

Hypothesis before_le : forall x y, before x y = true -> x <= y.
Hypothesis not_before_ge : forall x y, before x y = false -> y <= x.

Lemma insert_by_sorted x l :
  StronglySorted (fun a b => key a <= key b) l ->
  StronglySorted (fun a b => key a <= key b) (insert_by key before x l).
Proof.
  induction 1 as [|y l H IH Hy]; simpl; [repeat constructor|].
  destruct (before (key x) (key y)) eqn:E.
  - constructor; [constructor; assumption|].
    apply before_le in E. constructor; [exact E|].
    eapply Forall_impl; [|exact Hy]. intros a Ha. simpl in *.
    eapply Qle_trans; eassumption.
  - constructor; [exact IH|].
    apply not_before_ge in E.
    eapply Permutation_Forall; [symmetry; apply insert_by_Permutation|].
    constructor; assumption.
Qed.

Lemma sort_by_sorted l :
  StronglySorted (fun a b => key a <= key b) (sort_by key before l).
Proof.
  induction l as [|x l IH]; simpl; [constructor|].
  apply insert_by_sorted. exact IH.
Qed.

End SortBy.

(** Selecting by the positions [argsort_by] gives is sorting the rows by
    their keys. *)
Lemma take_argsort_by {A} (key : A -> Q) before (rows : list A) :
  take rows (argsort_by before (map key rows)) = sort_by key before rows.
Proof.
  unfold argsort_by. rewrite length_map.
  set (indexed := combine (seq 0 (length rows)) rows).
  assert (E : combine (seq 0 (length rows)) (map key rows)
              = map (fun p => (fst p, key (snd p))) indexed).
  { subst indexed. generalize 0%nat.
    induction rows as [|r rows IH]; intros n; [reflexivity|].
    cbn. f_equal. apply IH. }
  rewrite E.
  rewrite (@sort_by_map _ (fun p : nat * A => key (snd p)) before _ snd
             (fun p => (fst p, key (snd p))) indexed) by reflexivity.
  rewrite map_map. cbn [fst].
  rewrite take_indexed.
  - rewrite <- (@sort_by_map _ (fun p : nat * A => key (snd p)) before _ key
                  snd indexed) by reflexivity.
    subst indexed. rewrite map_snd_combine_seq. reflexivity.
  - eapply Permutation_Forall; [symmetry; apply sort_by_Permutation|].
    apply combine_seq_indexed.
Qed.

Section ArgsortBy.

Variable before : Q -> Q -> bool.
Hypothesis before_le : forall x y, before x y = true -> x <= y.
Hypothesis not_before_ge : forall x y, before x y = false -> y <= x.

Lemma argsort_by_ok : ArgsortOk (argsort_by before).
Proof.
  split; intros v.
  - unfold argsort_by. rewrite sort_by_Permutation.
    rewrite map_fst_combine_seq. reflexivity.
  - rewrite <- (map_id v) at 2. rewrite (take_argsort_by (fun x => x)).
    apply StronglySorted_Sorted.
    exact (@sort_by_sorted Q (fun x => x) before before_le not_before_ge v).
Qed.

End ArgsortBy.

Lemma argsort_stable_ok : ArgsortOk argsort_stable.
Proof.
  apply argsort_by_ok.
  - intros x y H. apply Qle_bool_iff. exact H.
  - intros x y H. destruct (Qlt_le_dec x y) as [L|L]; [|exact L].
    apply Qlt_le_weak, Qle_bool_iff in L. congruence.
Qed.

(** ** [quantile] *)

Lemma percentile_fraction p :
  0 <= p -> p <= 100 -> 0 <= p / 100 /\ p / 100 <= 1.
Proof.
  intros H0 H1. split.
  - apply Qle_shift_div_l; [reflexivity|]. rewrite Qmult_0_l. exact H0.
  - apply Qle_shift_div_r; [reflexivity|]. rewrite Qmult_1_l. exact H1.
Qed.

Lemma QSort_sorted l : Sorted Qle (QSort.sort l).
Proof.
  pose proof (QSort.Sorted_sort l) as H.
  eapply Sorted_ind with (P := fun l => Sorted Qle l); [constructor| |exact H].
  intros a l' _ IH Hd. constructor; [exact IH|].
  destruct Hd as [|b l'' Hb]; constructor.
  apply Qle_bool_iff. exact Hb.
Qed.

Lemma quantile_linear values p :
  values <> [] -> 0 <= p -> p <= 100 ->
  exists thr, quantile values (p / 100) = Ok thr /\
              is_linear_percentile values p thr.
Proof.
  intros Hne H0 H1.
  destruct (percentile_fraction H0 H1) as [Hq0 Hq1].
  unfold quantile.
  rewrite (proj2 (Qle_bool_iff _ _) Hq0), (proj2 (Qle_bool_iff _ _) Hq1).
  cbn [andb]. eexists. split; [reflexivity|].
  assert (Hlen : length (QSort.sort values) = length values).
  { symmetry. apply Permutation_length, QSort.Permuted_sort. }
  rewrite Hlen.
  set (n := length values).
  assert (Hn : (0 < n)%nat).
  { subst n. destruct values; [congruence | simpl; lia]. }
  set (h := (inject_Z (Z.of_nat n) - 1) * (p / 100)).
  assert (Hn1 : 0 <= inject_Z (Z.of_nat n) - 1).
  { setoid_replace (inject_Z (Z.of_nat n) - 1) with (inject_Z (Z.of_nat n - 1))
      by (unfold Qeq; simpl; lia).
    change 0 with (inject_Z 0). rewrite <- Zle_Qle. lia. }
  assert (Hh0 : 0 <= h) by (apply Qmult_le_0_compat; assumption).
  assert (Hh1 : h <= inject_Z (Z.of_nat n - 1)).
  { setoid_replace (inject_Z (Z.of_nat n - 1))
      with ((inject_Z (Z.of_nat n) - 1) * 1) by (unfold Qeq; simpl; lia).
    unfold h. rewrite (Qmult_comm _ (p / 100)), (Qmult_comm _ 1).
    apply Qmult_le_compat_r; assumption. }
  assert (Hf0 : (0 <= Qfloor h)%Z).
  { change 0%Z with (Qfloor 0). apply Qfloor_resp_le. exact Hh0. }
  assert (Hf1 : (Qfloor h <= Z.of_nat n - 1)%Z).
  { rewrite <- (Qfloor_Z (Z.of_nat n - 1)). apply Qfloor_resp_le. exact Hh1. }
  exists (QSort.sort values), (Z.to_nat (Qfloor h)), (h - inject_Z (Qfloor h)).
  assert (Hk : inject_Z (Z.of_nat (Z.to_nat (Qfloor h))) = inject_Z (Qfloor h)).
  { rewrite Z2Nat.id by exact Hf0. reflexivity. }
  repeat split.
  - symmetry. apply QSort.Permuted_sort.
  - apply QSort_sorted.
  - lia.
  - pose proof (Qfloor_le h) as L.
    apply (Qplus_le_l _ _ (inject_Z (Qfloor h))). ring_simplify. exact L.
  - pose proof (Qlt_floor h) as L. rewrite inject_Z_plus in L.
    apply (Qplus_lt_l _ _ (inject_Z (Qfloor h))). ring_simplify.
    exact L.
  - rewrite Hk. unfold h, n. ring.
  - destruct (Nat.eq_dec (S (Z.to_nat (Qfloor h))) n) as [E|E].
    + (* the last position: the fraction is zero *)
      assert (Hz : h - inject_Z (Qfloor h) == 0).
      { assert (Qfloor h = Z.of_nat n - 1)%Z as -> by lia.
        apply Qle_antisym.
        - apply (Qplus_le_l _ _ (inject_Z (Z.of_nat n - 1))). ring_simplify.
          exact Hh1.
        - assert (Qfloor h = Z.of_nat n - 1)%Z as <- by lia.
          pose proof (Qfloor_le h) as L.
          apply (Qplus_le_l _ _ (inject_Z (Qfloor h))).
          ring_simplify. exact L. }
      rewrite Hz. ring.
    + rewrite Nat.min_l by lia. ring.
Qed.

(** ** [quantile64] *)

Lemma round_bounds lo hi x :
  Binary64.round lo = lo -> Binary64.round hi = hi ->
  lo <= x -> x <= hi ->
  lo <= Binary64.round x /\ Binary64.round x <= hi.
Proof.
  intros Elo Ehi L U. split.
  - apply Qle_trans with (Binary64.round lo);
      [rewrite Elo; apply Qle_refl|apply round_mono; exact L].
  - apply Qle_trans with (Binary64.round hi);
      [apply round_mono; exact U|rewrite Ehi; apply Qle_refl].
Qed.

Lemma percentile_fraction64 p :
  0 <= p -> p <= 100 ->
  0 <= Binary64.div p 100 /\ Binary64.div p 100 <= 1.
Proof.
  intros H0 H1. unfold Binary64.div.
  apply round_bounds; [reflexivity|reflexivity|..];
    unfold Qdiv; change (/ 100) with (1 # 100); lra.
Qed.

Lemma fraction64_again q :
  0 <= q -> q <= 1 ->
  0 <= Binary64.div (Binary64.mul q 100) 100 /\
  Binary64.div (Binary64.mul q 100) 100 <= 1.
Proof.
  intros H0 H1. unfold Binary64.div, Binary64.mul.
  assert (H : 0 <= Binary64.round (q * 100) /\
              Binary64.round (q * 100) <= 100).
  { apply round_bounds; [reflexivity|reflexivity|..]; lra. }
  apply round_bounds; [reflexivity|reflexivity|..];
    unfold Qdiv; change (/ 100) with (1 # 100); lra.
Qed.

Lemma quantile64_checked values q :
  is_ok (quantile64 values q) = Qle_bool 0 q && Qle_bool q 1.
Proof.
  unfold quantile64.
  destruct (Qle_bool 0 q) eqn:E0; [|reflexivity].
  destruct (Qle_bool q 1) eqn:E1; [|reflexivity].
  apply Qle_bool_iff in E0, E1. cbn [andb].
  destruct (fraction64_again E0 E1) as [F0 F1].
  apply Qle_bool_iff in F0, F1. rewrite F0, F1. cbn [andb].
  match goal with
  | |- context [if Qle_bool ?a ?b then Ok _ else _] =>
      destruct (Qle_bool a b)
  end; reflexivity.
Qed.


(** ** [identify_undervalued_assets] *)


Lemma map_asset_annotate m sel : map asset (map (annotate m) sel) = sel.
Proof.
  rewrite map_map. simpl. apply map_id.
Qed.

Lemma sort_values_singleton argsort {A} (by_ : A -> Q) (x : A) :
  ArgsortOk argsort -> sort_values argsort by_ false [x] = [x].
Proof.
  intros Hok. apply Permutation_length_1_inv. symmetry.
  apply sort_values_desc_Permutation. exact Hok.
Qed.

Lemma identify64_inv argsort df p out :
  df <> [] ->
  identify_undervalued_assets64 argsort df p = Ok out ->
  exists thr, quantile64 (prices df) (Binary64.div p 100) = Ok thr /\
    out = sort_values argsort discount_percent false
            (map (annotate (mean (prices df))) (below thr df)).
Proof.
  intros Hne H. destruct df as [|a df]; [congruence|].
  unfold identify_undervalued_assets64 in H.
  destruct (quantile64 (prices (a :: df)) (Binary64.div p 100)) as [thr|e];
    cbn [Py.bind] in H; [|discriminate].
  exists thr. split; [reflexivity|]. injection H as <-. reflexivity.
Qed.

Lemma identify64_in_range argsort df p :
  df <> [] -> 0 <= p -> p <= 100 ->
  exists thr, quantile64 (prices df) (Binary64.div p 100) = Ok thr /\
    identify_undervalued_assets64 argsort df p =
      Ok (sort_values argsort discount_percent false
            (map (annotate (mean (prices df))) (below thr df))).
Proof.
  intros Hne H0 H1.
  destruct (percentile_fraction64 H0 H1) as [F0 F1].
  pose proof (quantile64_checked (prices df) (Binary64.div p 100)) as Hc.
  apply Qle_bool_iff in F0, F1. rewrite F0, F1 in Hc.
  destruct (quantile64 (prices df) (Binary64.div p 100)) as [thr|e] eqn:Hq;
    [|discriminate Hc].
  exists thr. split; [reflexivity|].
  destruct df as [|a df]; [congruence|].
  unfold identify_undervalued_assets64. rewrite Hq. reflexivity.
Qed.

Lemma is_linear_percentile_comp values p v v' :
  v == v' -> is_linear_percentile values p v ->
  is_linear_percentile values p v'.
Proof.
  intros E [sorted [k [t [H1 [H2 [H3 [H4 [H5 [H6 H7]]]]]]]]].
  exists sorted, k, t. repeat split; try assumption.
  rewrite <- E. exact H7.
Qed.

Lemma exact_percentile_linear values p thr :
  values <> [] -> 0 <= p -> p <= 100 ->
  quantile64 values (Binary64.div p 100) = Ok thr ->
  exact_percentile values p = true ->
  is_linear_percentile values p thr.
Proof.
  intros Hne H0 H1 Hq He. unfold exact_percentile in He. rewrite Hq in He.
  destruct (quantile_linear Hne H0 H1) as [thr' [Hq' Hl]].
  rewrite Hq' in He. apply Qeq_bool_iff in He.
  apply (@is_linear_percentile_comp values p thr' thr); [|exact Hl].
  symmetry. exact He.
Qed.

(** C1, as amended (findUndervalued selects below the threshold).  On an
    empty frame the result is empty.  On a non-empty frame and a
    percentile in [0, 100] the threshold is the linear-interpolation
    percentile of the prices as binary64 arithmetic computes it, and the
    returned assets are exactly the assets of the frame priced strictly
    below that threshold; where the computation rounds nothing away, the
    threshold is the percentile itself.  On the prices
    10, 20, 30, 40, 100 and percentile 25 the threshold is 20, the
    percentile itself, and the one asset returned is the one priced
    10. *)
Theorem identify_selects_below_percentile
    (argsort : list Q -> list nat) (df : DataFrame) (p : Q) :
  ArgsortOk argsort -> 0 <= p -> p <= 100 ->
  (df = [] -> identify_undervalued_assets64 argsort df p = Ok []) /\
  (df <> [] ->
   exists thr out,
     quantile64 (prices df) (Binary64.div p 100) = Ok thr /\
     identify_undervalued_assets64 argsort df p = Ok out /\
     Permutation (map asset out)
                 (filter (fun a => Qlt_bool (price a) thr) df) /\
     (forall a, In a (map asset out) <-> In a df /\ price a < thr) /\
     (exact_percentile (prices df) p = true ->
      is_linear_percentile (prices df) p thr)) /\
  (forall df', prices df' = [10; 20; 30; 40; 100] ->
   exists thr out a,
     quantile64 (prices df') (Binary64.div 25 100) = Ok thr /\ thr == 20 /\
     is_linear_percentile (prices df') 25 thr /\
     identify_undervalued_assets64 argsort df' 25 = Ok out /\
     In a df' /\ price a = 10 /\ map asset out = [a]).
Proof.
  intros Hok H0 H1. split; [|split].
  - intros ->. reflexivity.
  - intros Hne.
    destruct (identify64_in_range argsort Hne H0 H1) as [thr [Hq Hid]].
    exists thr. eexists.
    split; [exact Hq|]. split; [exact Hid|].
    assert (Hperm : Permutation
              (map asset (sort_values argsort discount_percent false
                 (map (annotate (mean (prices df))) (below thr df))))
              (filter (fun a => Qlt_bool (price a) thr) df)).
    { rewrite <- (map_asset_annotate (mean (prices df))
                    (filter (fun a => Qlt_bool (price a) thr) df)).
      apply Permutation_map, sort_values_desc_Permutation. exact Hok. }
    split; [exact Hperm|]. split.
    + intros a. split.
      * intros Hin. apply (Permutation_in _ Hperm), filter_In in Hin.
        destruct Hin as [Hin Hlt]. split; [exact Hin|].
        apply Qlt_bool_iff. exact Hlt.
      * intros [Hin Hlt]. apply (Permutation_in _ (Permutation_sym Hperm)).
        apply filter_In. split; [exact Hin|]. apply Qlt_bool_iff. exact Hlt.
    + apply exact_percentile_linear; try assumption.
      destruct df; [congruence|discriminate].
  - intros df' Hp.
    assert (Hq : quantile64 (prices df') (Binary64.div 25 100) = Ok 20).
    { rewrite Hp. vm_compute. reflexivity. }
    assert (Hl : is_linear_percentile (prices df') 25 20).
    { apply exact_percentile_linear;
        [rewrite Hp; discriminate|unfold Qle; cbn; lia|unfold Qle; cbn; lia
        |exact Hq|rewrite Hp; vm_compute; reflexivity]. }
    destruct df' as [|a1 [|a2 [|a3 [|a4 [|a5 [|a6 df']]]]]];
      try discriminate Hp.
    injection Hp as P1 P2 P3 P4 P5.
    exists 20. eexists. exists a1.
    split; [exact Hq|]. split; [reflexivity|]. split; [exact Hl|].
    split; [|split; [left; reflexivity|split; [exact P1|]]].
    + unfold identify_undervalued_assets64. rewrite Hq. cbn [Py.bind].
      unfold below. cbn [filter]. rewrite P1, P2, P3, P4, P5.
      change (Qlt_bool 10 20) with true.
      change (Qlt_bool 20 20) with false.
      change (Qlt_bool 30 20) with false.
      change (Qlt_bool 40 20) with false.
      change (Qlt_bool 100 20) with false.
      cbn [map].
      rewrite (sort_values_singleton _ _ Hok). reflexivity.
    + reflexivity.
Qed.

Lemma identify_selects_below_percentile_witness :
  (frame_five = [] ->
   identify_undervalued_assets64 argsort_stable frame_five 25 = Ok []) /\
  (frame_five <> [] ->
   exists thr out,
     quantile64 (prices frame_five) (Binary64.div 25 100) = Ok thr /\
     identify_undervalued_assets64 argsort_stable frame_five 25 = Ok out /\
     Permutation (map asset out)
                 (filter (fun a => Qlt_bool (price a) thr) frame_five) /\
     (forall a, In a (map asset out) <-> In a frame_five /\ price a < thr) /\
     (exact_percentile (prices frame_five) 25 = true ->
      is_linear_percentile (prices frame_five) 25 thr)) /\
  (forall df', prices df' = [10; 20; 30; 40; 100] ->
   exists thr out a,
     quantile64 (prices df') (Binary64.div 25 100) = Ok thr /\ thr == 20 /\
     is_linear_percentile (prices df') 25 thr /\
     identify_undervalued_assets64 argsort_stable df' 25 = Ok out /\
     In a df' /\ price a = 10 /\ map asset out = [a]).
Proof.
  apply (@identify_selects_below_percentile argsort_stable frame_five 25).
  - exact argsort_stable_ok.
  - unfold Qle; simpl; lia.
  - unfold Qle; simpl; lia.
Defined.

(** C1 as stated fails.  The 56th percentile of the prices 1 to 26 is
    15, at position [25 * 0.56 = 14] of the sorted prices.  In binary64
    the quotient [56 / 100], times 100 and divided by 100 again, times
    25 is a little above 14, and the threshold a little above 15: the
    asset priced 15, the percentile itself, is returned. *)
Lemma threshold_rounds_above_percentile :
  exists thr out,
    quantile64 (prices frame_26) (Binary64.div 56 100) = Ok thr /\
    identify_undervalued_assets64 argsort_stable frame_26 56 = Ok out /\
    is_linear_percentile (prices frame_26) 56 15 /\
    15 < thr /\
    In (asset_of 15 15) frame_26 /\
    In (asset_of 15 15) (map asset out) /\
    ~ (forall a, In a (map asset out) <-> In a frame_26 /\ price a < 15).
Proof.
  assert (Hl : is_linear_percentile (prices frame_26) 56 15).
  { destruct (@quantile_linear (prices frame_26) 56) as [thr [Hq Hl]];
      [discriminate|unfold Qle; cbn; lia|unfold Qle; cbn; lia|].
    apply (@is_linear_percentile_comp _ _ thr 15); [|exact Hl].
    vm_compute in Hq. injection Hq as <-. reflexivity. }
  eexists. eexists.
  split; [vm_compute; reflexivity|].
  split; [vm_compute; reflexivity|].
  split; [exact Hl|].
  split; [reflexivity|].
  assert (Hin : In (asset_of 15 15) frame_26).
  { unfold frame_26. apply in_map_iff. exists 15%nat.
    split; [reflexivity|]. apply in_seq. lia. }
  split; [exact Hin|].
  assert (Hout : In (asset_of 15 15)
            (map asset
               (map (annotate (mean (prices frame_26)))
                    (map (fun i => asset_of (Z.of_nat i)
                                     (inject_Z (Z.of_nat i))) (seq 1 15))))).
  { rewrite map_asset_annotate. apply in_map_iff. exists 15%nat.
    split; [reflexivity|]. apply in_seq. lia. }
  split.
  - vm_compute. vm_compute in Hout. exact Hout.
  - intros H. specialize (H (asset_of 15 15)).
    destruct H as [H _].
    assert (Hlt : price (asset_of 15 15) < 15).
    { apply H. vm_compute. vm_compute in Hout. exact Hout. }
    revert Hlt. cbn. unfold Qlt. cbn. lia.
Qed.



(** ** The analyzer on frame objects *)

Section FramesFacts.

Import Frames.

Lemma read_old (h more : heap) address :
  (address < length h)%nat -> read (h ++ more) address = read h address.
Proof. intros H. unfold read. apply app_nth1. exact H. Qed.

Lemma read_new (h more : heap) k :
  read (h ++ more) (length h + k) = read more k.
Proof.
  unfold read. rewrite app_nth2 by lia. f_equal. lia.
Qed.

Lemma write_new (h : heap) f g more k :
  nth_error more k = Some g ->
  write (length h + k) f (h ++ more) =
  h ++ firstn k more ++ f :: skipn (S k) more.
Proof.
  induction h as [|x h IH]; cbn [length Nat.add app write].
  - revert k. induction more as [|y more IHm]; intros [|k] H;
      try discriminate H; cbn.
    + reflexivity.
    + f_equal. apply IHm. exact H.
  - intros H. f_equal. apply IH. exact H.
Qed.

(** The objects a call makes from the frame it is given, in the state
    the call leaves them, the returned frame last. *)
Definition made (argsort : list Q -> list nat) (f : frame) (p : Q)
    : result (list frame) :=
  match assets f with
  | [] => Ok [empty]
  | _ :: _ =>
      match quantile64 (prices (assets f)) (Binary64.div p 100) with
      | Raise e => Raise e
      | Ok thr =>
          let selected :=
            getitem (map (fun a => Qlt_bool (price a) thr) (assets f)) f in
          let m := mean (prices (assets f)) in
          let undervalued :=
            setitem (map (fun a => (m - price a) / m * 100)
                         (assets selected)) selected in
          match sort_values argsort undervalued false with
          | Ok sorted => Ok [selected; undervalued; sorted]
          | Raise e => Raise e
          end
      end
  end.

Lemma identify_made argsort df p h :
  (df < length h)%nat ->
  identify_undervalued_assets argsort df p h =
  match made argsort (read h df) p with
  | Ok objects => (Ok (length h + (length objects - 1))%nat, h ++ objects)
  | Raise e => (Raise e, h)
  end /\
  match made argsort (read h df) p with
  | Ok objects => objects <> []
  | Raise e => True
  end.
Proof.
  intros Hdf. unfold identify_undervalued_assets, made.
  destruct (assets (read h df)) as [|a rest] eqn:Ha.
  { cbn. rewrite Nat.add_0_r. split; [reflexivity|discriminate]. }
  destruct (quantile64 _ _) as [thr|e]; [|split; [reflexivity|exact I]].
  cbn [new].
  set (selected := getitem _ (read h df)).
  assert (F1 : read (h ++ [selected]) (length h) = selected).
  { unfold read. rewrite app_nth2, Nat.sub_diag by lia. reflexivity. }
  rewrite F1.
  assert (F2 : read ((h ++ [selected]) ++ [selected]) df = read h df).
  { rewrite <- app_assoc. apply read_old. exact Hdf. }
  rewrite F2, Ha.
  assert (F3 : length (h ++ [selected]) = (length h + 1)%nat)
    by (rewrite length_app; reflexivity).
  rewrite F3.
  assert (F4 : read ((h ++ [selected]) ++ [selected]) (length h + 1)
               = selected).
  { rewrite <- app_assoc. apply (read_new h [selected; selected] 1). }
  rewrite F4.
  set (undervalued := setitem _ selected).
  assert (F5 : write (length h + 1) undervalued
                 ((h ++ [selected]) ++ [selected])
               = h ++ [selected; undervalued]).
  { rewrite <- app_assoc.
    apply (@write_new h undervalued selected [selected; selected] 1 eq_refl). }
  rewrite F5.
  assert (F6 : read (h ++ [selected; undervalued]) (length h + 1)
               = undervalued)
    by apply (read_new h [selected; undervalued] 1).
  rewrite F6.
  assert (Hs : exists sorted,
            sort_values argsort undervalued false = Ok sorted)
    by (eexists; reflexivity).
  destruct Hs as [sorted ->].
  split; [|discriminate]. cbn [new length].
  rewrite length_app, <- app_assoc. cbn [length app].
  repeat f_equal; lia.
Qed.

Lemma last_made (h objects : heap) :
  objects <> [] ->
  read (h ++ objects) (length h + (length objects - 1)) = last objects empty.
Proof.
  intros Hne. rewrite read_new. unfold read.
  clear h. induction objects as [|x l IH]; [congruence|].
  destruct l as [|y l]; [reflexivity|].
  cbn [length last] in *. rewrite <- IH by discriminate.
  cbn. rewrite Nat.sub_0_r. reflexivity.
Qed.

Lemma keep_filter {A} (test : A -> bool) (l : list A) :
  keep (map test l) l = filter test l.
Proof.
  unfold keep. induction l as [|x l IH]; [reflexivity|].
  cbn [map combine filter fst]. destruct (test x); cbn [map snd]; rewrite IH;
    reflexivity.
Qed.

Lemma take_combine_map {A B} (g : A -> B) (l : list A) indexer :
  combine (take l indexer) (take (map g l) indexer) =
  map (fun a => (a, g a)) (take l indexer).
Proof.
  rewrite take_map. induction (take l indexer) as [|x t IH]; [reflexivity|].
  cbn. rewrite IH. reflexivity.
Qed.

(** The frame a call returns holds the rows [identify_undervalued_assets64]
    gives for the rows of the frame it reads. *)
Lemma identify_frames_agree argsort df p h :
  (df < length h)%nat ->
  match identify_undervalued_assets argsort df p h,
        identify_undervalued_assets64 argsort (assets (read h df)) p with
  | (Ok out, h'), Ok rows => records (read h' out) = rows
  | (Raise e, _), Raise e' => e = e'
  | _, _ => False
  end.
Proof.
  intros Hdf. destruct (@identify_made argsort df p h Hdf) as [E N].
  rewrite E. clear E. unfold made in *.
  unfold identify_undervalued_assets64.
  destruct (assets (read h df)) as [|a rest] eqn:Ha.
  { rewrite (last_made h N). reflexivity. }
  destruct (quantile64 _ _) as [thr|e]; [|reflexivity].
  cbn [Py.bind].
  set (m := mean (prices (a :: rest))) in *.
  set (selected := getitem _ (read h df)) in *.
  set (undervalued := setitem _ selected) in *.
  assert (Hsel : assets selected = below thr (a :: rest)).
  { unfold selected, getitem. cbn [assets]. rewrite Ha. apply keep_filter. }
  unfold Frames.sort_values in *. cbn [discounts undervalued setitem] in *.
  rewrite (last_made h N). cbn [last records discounts assets].
  rewrite Hsel.
  change (assets undervalued) with (assets selected). rewrite Hsel.
  unfold AssetAnalyzer.sort_values.
  rewrite take_combine_map, !map_map, take_map. reflexivity.
Qed.

End FramesFacts.

(** C4 (idempotence).  A call of the analyzer on a frame object changes
    no object that was there before it, the frame it is given among
    them: it writes its column into a copy of the selection.  So a
    second call on the same object finds the frame unchanged, and
    returns a new frame with the same rows and the same discounts in
    the same order, or raises the same exception. *)
Theorem identify_twice_same_output
    (argsort : list Q -> list nat) (df : nat) (p : Q) (h : Frames.heap) :
  (df < length h)%nat ->
  (forall address, (address < length h)%nat ->
     Frames.read
       (snd (Frames.identify_undervalued_assets argsort df p h)) address
       = Frames.read h address /\
     Frames.read (snd (Frames.identify_again argsort df p h)) address
       = Frames.read h address) /\
  match fst (Frames.identify_undervalued_assets argsort df p h),
        fst (Frames.identify_again argsort df p h) with
  | Ok out, Ok out' =>
      out <> out' /\
      Frames.read (snd (Frames.identify_again argsort df p h)) out' =
      Frames.read (snd (Frames.identify_again argsort df p h)) out /\
      Frames.read (snd (Frames.identify_again argsort df p h)) out =
      Frames.read
        (snd (Frames.identify_undervalued_assets argsort df p h)) out
  | Raise e, Raise e' =>
      e = e' /\ snd (Frames.identify_again argsort df p h) = h
  | _, _ => False
  end.
Proof.
  intros Hdf.
  set (first := Frames.identify_undervalued_assets argsort df p h).
  set (second := Frames.identify_again argsort df p h).
  assert (Hsecond : second =
            Frames.identify_undervalued_assets argsort df p (snd first))
    by reflexivity.
  destruct (@identify_made argsort df p h Hdf) as [E1 N1].
  fold first in E1.
  destruct (made argsort (Frames.read h df) p) as [objects|e] eqn:Hm.
  - assert (Hdf' : (df < length (h ++ objects))%nat)
      by (rewrite length_app; lia).
    destruct (@identify_made argsort df p (h ++ objects) Hdf') as [E2 _].
    rewrite (read_old h objects Hdf), Hm in E2.
    assert (E2' : second =
              (Ok (length (h ++ objects) + (length objects - 1))%nat,
               (h ++ objects) ++ objects)).
    { rewrite Hsecond, E1. exact E2. }
    rewrite E1, E2'. cbn [fst snd]. split.
    + intros address Ha. split.
      * apply read_old. exact Ha.
      * rewrite !read_old; [reflexivity|exact Ha|rewrite length_app; lia].
    + assert (Hlen : (0 < length objects)%nat)
        by (destruct objects; [congruence|cbn; lia]).
      split; [rewrite length_app; lia|].
      rewrite (last_made (h ++ objects) N1).
      rewrite (read_old (h ++ objects) objects
                 (address := (length h + (length objects - 1))%nat))
        by (rewrite length_app; lia).
      rewrite (last_made h N1). split; reflexivity.
  - assert (E2 : second = (Raise e, h)).
    { rewrite Hsecond. rewrite E1 at 1. cbn [snd]. exact E1. }
    rewrite E1, E2. cbn [fst snd]. split; [|split; reflexivity].
    intros address Ha. split; reflexivity.
Qed.

Lemma identify_twice_same_output_witness :
  (forall address, (address < length heap_five)%nat ->
     Frames.read
       (snd (Frames.identify_undervalued_assets argsort_stable 1 50
               heap_five)) address
       = Frames.read heap_five address /\
     Frames.read
       (snd (Frames.identify_again argsort_stable 1 50 heap_five)) address
       = Frames.read heap_five address) /\
  4%nat <> 7%nat /\
  Frames.read (snd (Frames.identify_again argsort_stable 1 50 heap_five)) 7 =
  Frames.read (snd (Frames.identify_again argsort_stable 1 50 heap_five)) 4 /\
  Frames.read (snd (Frames.identify_again argsort_stable 1 50 heap_five)) 4 =
  Frames.read
    (snd (Frames.identify_undervalued_assets argsort_stable 1 50 heap_five))
    4.
Proof.
  apply (@identify_twice_same_output argsort_stable 1 50 heap_five).
  cbn. lia.
Defined.

(** ** The record store *)

Section StoreProperties.

Import DatabaseManager.

Section StoreFacts.

Variable fault : nat -> bool.
Variable current_timestamp : nat -> Z.

Local Abbreviation insert := (DatabaseManager.insert fault current_timestamp).
Local Abbreviation insert_all :=
  (DatabaseManager.insert_all fault current_timestamp).
Local Abbreviation insert_assets :=
  (DatabaseManager.insert_assets fault current_timestamp).
Local Abbreviation insert_batches :=
  (DatabaseManager.insert_batches fault current_timestamp).
Local Abbreviation no_fault := (DatabaseManager.no_fault fault).

Lemma insert_accepted title price link c :
  fault (writes c) = false ->
  insert (Some title, Some price, Some link) c =
  (Ok tt,
   {| table :=
        table c ++
          [{| id := next_rowid (table c); title := title;
              price := price; link := link;
              date_added := current_timestamp (writes c) |}];
      journal := journal c;
      writes := S (writes c) |}).
Proof.
  intros Hf. unfold insert, bind, write.
  rewrite Hf. reflexivity.
Qed.

Lemma insert_refused p c :
  fault (writes c) = true \/ accepted p = false ->
  insert p c =
  (Raise SqliteError,
   {| table := table c; journal := journal c;
      writes := S (writes c) |}).
Proof.
  intros H. unfold insert, bind, write, throw.
  destruct (fault (writes c)); [reflexivity|].
  destruct H as [H|H]; [discriminate|].
  destruct p as [[[t|] [q|]] [l|]]; try reflexivity; discriminate.
Qed.

Lemma insert_all_cons p ps c :
  insert_all (p :: ps) c =
  match insert p c with
  | (Ok _, c') => insert_all ps c'
  | (Raise e, c') => (Raise e, c')
  end.
Proof. reflexivity. Qed.

(** What a run of the inserts leaves: the journal as it was, the table
    extended; when it completes, by one row for each tuple. *)
Lemma insert_all_spec ps : forall c,
  exists r c' rows,
    insert_all ps c = (r, c') /\
    journal c' = journal c /\
    table c' = table c ++ rows /\
    match r with
    | Ok _ =>
        Forall2 stores ps rows /\
        writes c' = (writes c + length ps)%nat /\
        forallb accepted ps = true /\ no_fault c (length ps)
    | Raise e =>
        e = SqliteError /\
        (forallb accepted ps = false \/ ~ no_fault c (length ps))
    end.
Proof.
  induction ps as [|p ps IH]; intros c.
  - exists (Ok tt), c, []. repeat split.
    + rewrite app_nil_r. reflexivity.
    + constructor.
    + simpl. lia.
    + intros k Hk. inversion Hk.
  - rewrite insert_all_cons.
    destruct (fault (writes c)) eqn:Hf;
      [|destruct (accepted p) eqn:Ha].
    + rewrite insert_refused by (left; exact Hf).
      eexists _, _, []. split; [reflexivity|]. cbn.
      rewrite app_nil_r. repeat split.
      right. intros Hn. specialize (Hn 0%nat). rewrite Nat.add_0_r in Hn.
      rewrite Hn in Hf by lia. discriminate.
    + destruct p as [[[t|] [q|]] [l|]]; try discriminate Ha.
      rewrite insert_accepted by exact Hf.
      match goal with |- context [insert_all ps ?c1] =>
        destruct (IH c1) as [r [c' [rows [Hrun [Hj [Ht Hr]]]]]] end.
      cbn in Hj, Ht.
      exists r, c'. eexists (_ :: rows).
      split; [exact Hrun|]. split; [exact Hj|].
      split; [rewrite Ht, <- app_assoc; reflexivity|].
      destruct r as [u|e].
      * destruct Hr as [Hst [Hw [Hacc Hnf]]]. cbn in Hw. repeat split.
        -- constructor; [reflexivity|exact Hst].
        -- rewrite Hw. simpl. lia.
        -- exact Hacc.
        -- intros k Hk. destruct k as [|k].
           ++ rewrite Nat.add_0_r. exact Hf.
           ++ specialize (Hnf k). cbn in Hnf.
              replace (writes c + S k)%nat
                with (S (writes c + k)) by lia.
              apply Hnf. simpl in Hk. lia.
      * destruct Hr as [He Hr]. split; [exact He|].
        destruct Hr as [Hr|Hr]; [left; exact Hr|right].
        intros Hn. apply Hr. intros k Hk. cbn.
        replace (S (writes c + k)) with (writes c + S k)%nat by lia.
        apply Hn. simpl. lia.
    + rewrite insert_refused by (right; exact Ha).
      eexists _, _, []. split; [reflexivity|]. cbn.
      rewrite app_nil_r. repeat split.
      left. rewrite Ha. reflexivity.
Qed.

(** The connection after the implicit BEGIN. *)
Lemma begin_spec c :
  exists c0, begin c = (Ok tt, c0) /\
    table c0 = table c /\
    journal c0 = Some (committed c) /\
    writes c0 = writes c.
Proof.
  unfold begin, committed.
  destruct (journal c) as [rows|] eqn:Hj;
    eexists; (split; [reflexivity|]); cbn; rewrite ?Hj; auto.
Qed.

Lemma no_fault_le c c0 n m :
  writes c0 = writes c -> (n <= m)%nat ->
  no_fault c m -> no_fault c0 n.
Proof.
  intros Hw Hle H k Hk. rewrite Hw. apply H. lia.
Qed.

(** *** Row identifiers *)

Lemma fold_max_ge i ids :
  (i <= fold_right Z.max i ids)%Z /\
  Forall (fun j => (j <= fold_right Z.max i ids)%Z) ids.
Proof.
  induction ids as [|j ids [IH1 IH2]]; simpl.
  - split; [lia|constructor].
  - split; [lia|]. constructor; [lia|].
    eapply Forall_impl; [|exact IH2]. simpl. intros; lia.
Qed.

Lemma fold_max_in i ids : In (fold_right Z.max i ids) (i :: ids).
Proof.
  induction ids as [|j ids IH]; simpl; [left; reflexivity|].
  destruct (Z.max_spec j (fold_right Z.max i ids)) as [[_ ->]|[_ ->]].
  - destruct IH as [IH|IH]; [left; exact IH|right; right; exact IH].
  - right. left. reflexivity.
Qed.

Lemma next_rowid_above rows :
  Forall (fun r => (id r < next_rowid rows)%Z) rows.
Proof.
  unfold next_rowid. apply Forall_map with (f := id) (P := fun j => (j < _)%Z).
  destruct (map id rows) as [|i ids]; [constructor|].
  destruct (fold_max_ge i ids) as [H1 H2].
  constructor; [lia|]. eapply Forall_impl; [|exact H2]. simpl. intros; lia.
Qed.

Lemma next_rowid_seq rows n :
  map id rows = map Z.of_nat (seq 1 n) ->
  next_rowid rows = Z.of_nat (S n).
Proof.
  intros H. unfold next_rowid. rewrite H.
  destruct n as [|n]; [reflexivity|].
  cbn [seq map].
  set (m := fold_right Z.max (Z.of_nat 1) (map Z.of_nat (seq 2 n))).
  assert (Hin : In m (map Z.of_nat (seq 1 (S n)))) by apply fold_max_in.
  assert (Hge : Forall (fun j => (j <= m)%Z) (map Z.of_nat (seq 1 (S n)))).
  { destruct (fold_max_ge (Z.of_nat 1) (map Z.of_nat (seq 2 n))) as [H1 H2].
    constructor; assumption. }
  apply in_map_iff in Hin. destruct Hin as [k [Hk Hin]]. apply in_seq in Hin.
  rewrite Forall_forall in Hge.
  assert (Hlast : (Z.of_nat (S n) <= m)%Z).
  { apply Hge. apply in_map. apply in_seq. lia. }
  lia.
Qed.

Lemma ascending_snoc rows row :
  ascending rows -> Forall (fun r => (id r < id row)%Z) rows ->
  ascending (rows ++ [row]).
Proof.
  unfold ascending. intros Hs Hlt. rewrite map_app.
  apply StronglySorted_app; [exact Hs|repeat constructor|].
  intros x y Hx [<-|[]]. apply in_map_iff in Hx. destruct Hx as [r [<- Hr]].
  rewrite Forall_forall in Hlt. apply Hlt. exact Hr.
Qed.

Lemma ascending_NoDup rows : ascending rows -> NoDup (map id rows).
Proof.
  unfold ascending. induction 1 as [|i ids Hs IH Hlt]; constructor.
  - intros Hin. rewrite Forall_forall in Hlt. specialize (Hlt i Hin). lia.
  - exact IH.
Qed.

Lemma ascending_seq rows n :
  map id rows = map Z.of_nat (seq 1 n) -> ascending rows.
Proof.
  unfold ascending. intros ->. generalize 1%nat.
  induction n as [|n IH]; intros a; simpl; constructor; [apply IH|].
  apply Forall_forall. intros j Hj. apply in_map_iff in Hj.
  destruct Hj as [k [<- Hk]]. apply in_seq in Hk. lia.
Qed.

(** The inserts keep the rowids ascending, also when they stop early. *)
Lemma insert_all_ascending ps : forall c r c',
  insert_all ps c = (r, c') ->
  ascending (table c) -> ascending (table c').
Proof.
  induction ps as [|p ps IH]; intros c r c' Hrun Hasc.
  - injection Hrun as _ <-. exact Hasc.
  - rewrite insert_all_cons in Hrun.
    destruct (fault (writes c)) eqn:Hf;
      [|destruct (accepted p) eqn:Ha].
    + rewrite insert_refused in Hrun by (left; exact Hf).
      injection Hrun as _ <-. exact Hasc.
    + destruct p as [[[t|] [q|]] [l|]]; try discriminate Ha.
      rewrite insert_accepted in Hrun by exact Hf.
      apply IH in Hrun; [exact Hrun|]. cbn.
      apply ascending_snoc; [exact Hasc|]. cbn. apply next_rowid_above.
    + rewrite insert_refused in Hrun by (right; exact Ha).
      injection Hrun as _ <-. exact Hasc.
Qed.

(** In a table whose rowids are 1 to [n], the inserts go on counting. *)
Lemma insert_all_counts ps : forall c c' u n,
  insert_all ps c = (Ok u, c') ->
  map id (table c) = map Z.of_nat (seq 1 n) ->
  map id (table c') = map Z.of_nat (seq 1 (n + length ps)).
Proof.
  induction ps as [|p ps IH]; intros c c' u n Hrun Hids.
  - injection Hrun as _ <-. rewrite Nat.add_0_r. exact Hids.
  - rewrite insert_all_cons in Hrun.
    destruct (fault (writes c)) eqn:Hf;
      [|destruct (accepted p) eqn:Ha].
    + rewrite insert_refused in Hrun by (left; exact Hf). discriminate Hrun.
    + destruct p as [[[t|] [q|]] [l|]]; try discriminate Ha.
      rewrite insert_accepted in Hrun by exact Hf.
      apply IH with (n := S n) in Hrun.
      * rewrite Hrun. simpl length. f_equal. f_equal. lia.
      * cbn [table].
        rewrite map_app, Hids, seq_S, map_app. cbn [map id].
        rewrite (@next_rowid_seq (table c) n Hids). reflexivity.
    + rewrite insert_refused in Hrun by (right; exact Ha). discriminate Hrun.
Qed.

Lemma commit_spec c :
  commit fault c =
  if fault (writes c)
  then (Raise SqliteError,
        {| table := table c; journal := journal c;
           writes := S (writes c) |})
  else (Ok tt,
        {| table := table c; journal := None;
           writes := S (writes c) |}).
Proof.
  unfold commit, bind, write.
  destruct (fault (writes c)); reflexivity.
Qed.

(** What a call of [insert_assets] leaves. *)
Lemma insert_assets_spec assets c :
  exists b c' rows,
    insert_assets assets c = (Ok b, c') /\
    journal c' = None /\
    (b = true ->
     table c' = table c ++ rows /\
     Forall2 stores assets rows /\
     (ascending (table c) -> ascending (table c')) /\
     (forall n, map id (table c) = map Z.of_nat (seq 1 n) ->
                map id (table c')
                = map Z.of_nat (seq 1 (n + length assets)))) /\
    (b = false -> table c' = committed c) /\
    (b = true <->
     forallb accepted assets = true /\
     no_fault c (S (length assets))).
Proof.
  destruct (begin_spec c) as [c0 [Hb [Ht0 [Hj0 Hw0]]]].
  destruct (insert_all_spec assets c0) as [r [c1 [rows [Hrun [Hj1 [Ht1 Hr]]]]]].
  unfold insert_assets, try_except, executemany, bind.
  rewrite Hb, Hrun.
  destruct r as [u|e].
  - destruct Hr as [Hst [Hw1 [Hacc Hnf]]].
    rewrite commit_spec.
    destruct (fault (writes c1)) eqn:Hf; cbn.
    + eexists false, _, rows. split; [reflexivity|]. cbn.
      split; [reflexivity|]. split; [discriminate|].
      split; [intros _; unfold committed; cbn; rewrite Hj1, Hj0; reflexivity|].
      split; [discriminate|]. intros [_ Hn]. exfalso.
      specialize (Hn (length assets)). rewrite <- Hw0, <- Hw1, Hf in Hn.
      discriminate Hn. lia.
    + eexists true, _, rows. split; [reflexivity|]. cbn.
      split; [reflexivity|].
      split; [intros _|].
      { split; [rewrite Ht1, Ht0; reflexivity|]. split; [exact Hst|]. split.
        - intros Hasc. eapply insert_all_ascending; [exact Hrun|].
          rewrite Ht0. exact Hasc.
        - intros n Hn. eapply insert_all_counts; [exact Hrun|].
          rewrite Ht0. exact Hn. }
      split; [discriminate|]. split; [|reflexivity].
      intros _. split; [exact Hacc|].
      intros k Hk. destruct (Nat.eq_dec k (length assets)) as [->|Hne].
      * rewrite <- Hw0, <- Hw1. exact Hf.
      * rewrite <- Hw0. apply Hnf. lia.
  - destruct Hr as [-> Hr]. cbn.
    eexists false, _, rows. split; [reflexivity|]. cbn.
    split; [reflexivity|]. split; [discriminate|].
    split; [intros _; unfold committed; rewrite Hj1, Hj0; reflexivity|].
    split; [discriminate|]. intros [Hacc Hn]. exfalso.
    destruct Hr as [Hr|Hr]; [congruence|].
    apply Hr. eapply no_fault_le; [exact Hw0| |exact Hn]. lia.
Qed.

(** Calls of [insert_assets] on a connection outside a transaction leave
    it outside a transaction, and only add rows after those it holds. *)
Lemma insert_batches_extend batches : forall c,
  journal c = None ->
  exists more,
    table (insert_batches batches c) = table c ++ more /\
    journal (insert_batches batches c) = None /\
    (ascending (table c) ->
     ascending (table (insert_batches batches c))).
Proof.
  induction batches as [|assets batches IH]; intros c Hidle.
  - exists []. cbn. rewrite app_nil_r. auto.
  - cbn [insert_batches].
    destruct (insert_assets_spec assets c)
      as [b [c' [rows [Hrun [Hj [Ht [Hf _]]]]]]].
    rewrite Hrun. cbn [snd].
    destruct (IH c' Hj) as [more [Hm [Hj' Hasc']]].
    destruct b.
    + destruct (Ht eq_refl) as [Hext [_ [Hasc _]]].
      exists (rows ++ more).
      split; [rewrite Hm, Hext, app_assoc; reflexivity|].
      split; [exact Hj'|].
      intros Ha. apply Hasc', Hasc, Ha.
    + specialize (Hf eq_refl). unfold committed in Hf.
      rewrite Hidle in Hf.
      exists more. split; [rewrite Hm, Hf; reflexivity|].
      split; [exact Hj'|]. intros Hasc. apply Hasc'. rewrite Hf. exact Hasc.
Qed.

End StoreFacts.

(** The items of the scraper pass the constraints of the table: a batch
    of them fails only with the medium. *)
Lemma scraped_items_accepted (items : list MarketplaceScraper.item) :
  forallb accepted (map of_item items) = true.
Proof.
  induction items as [|[[title price] link] items IH]; [reflexivity|].
  exact IH.
Qed.

(** C7 (insertBatch is atomic).  From every state of the connection a call
    of [insert_assets] returns a truth value and raises nothing, and
    leaves no transaction open.  It returns true exactly when every tuple
    passes the constraints and no write, the COMMIT included, meets a
    failure of the medium; then the committed rows are the rows the
    connection saw followed by one row for each tuple of the batch.
    Otherwise it returns false and the committed rows are those
    committed before the call. *)
Theorem insert_assets_atomic
    (fault : nat -> bool) (current_timestamp : nat -> Z)
    (assets : list parameters) (c : connection) :
  exists b c',
    insert_assets fault current_timestamp assets c = (Ok b, c') /\
    journal c' = None /\
    (b = true ->
     exists rows, committed c' = table c ++ rows /\
                  Forall2 stores assets rows) /\
    (b = false -> committed c' = committed c) /\
    (b = true <->
     forallb accepted assets = true /\
     no_fault fault c (S (length assets))).
Proof.
  destruct (insert_assets_spec fault current_timestamp assets c)
    as [b [c' [rows [Hrun [Hj [Ht [Hf Hb]]]]]]].
  exists b, c'. split; [exact Hrun|]. split; [exact Hj|].
  assert (Hc : committed c' = table c').
  { unfold committed. rewrite Hj. reflexivity. }
  rewrite Hc. split; [|split; assumption].
  intros E. exists rows. destruct (Ht E) as [Hext [Hst _]]. auto.
Qed.

(** On a file without table, or with an empty one, [setup_database]
    leaves a connection with an empty table and no transaction open. *)
Lemma setup_database_empty assets c0 :
  assets = None \/ assets = Some [] ->
  setup_database (File assets) = Ok c0 ->
  c0 = new_database.
Proof.
  intros [-> | ->] H; injection H as <-; reflexivity.
Qed.

(** C8 (snapshot after a successful insertBatch).  On a store whose table
    is empty, as [setup_database] leaves it on a new file, after
    [insert_assets] returned true for [K] listings, [get_all_assets] gives
    [K] rows, which hold the listings in their order under the rowids 1 to
    [K]: unique, and growing in the order of insertion.  Whatever calls of
    [insert_assets] follow, the later frames start with these rows
    unchanged and keep the rowids unique and growing. *)
Theorem snapshot_after_insert
    (fault : nat -> bool) (current_timestamp : nat -> Z)
    (c0 c1 : connection) (assets : list parameters) :
  table c0 = [] ->
  insert_assets fault current_timestamp assets c0 = (Ok true, c1) ->
  exists snapshot,
    get_all_assets c1 = (Ok snapshot, c1) /\
    length snapshot = length assets /\
    Forall2 stores assets snapshot /\
    map id snapshot = map Z.of_nat (seq 1 (length assets)) /\
    NoDup (map id snapshot) /\
    ascending snapshot /\
    forall batches, exists more,
      fst (get_all_assets
             (insert_batches fault current_timestamp batches c1))
        = Ok (snapshot ++ more) /\
      NoDup (map id (snapshot ++ more)) /\
      ascending (snapshot ++ more).
Proof.
  intros Hempty Hrun.
  destruct (insert_assets_spec fault current_timestamp assets c0)
    as [b [c' [rows [Hrun' [Hj [Ht _]]]]]].
  rewrite Hrun in Hrun'. injection Hrun' as <- <-.
  destruct (Ht eq_refl) as [Hext [Hst [_ Hids]]].
  rewrite Hempty in Hext. cbn [app] in Hext.
  specialize (Hids 0%nat). rewrite Hempty in Hids.
  specialize (Hids eq_refl). cbn [Nat.add] in Hids.
  assert (Hasc : ascending (table c1)).
  { apply ascending_seq with (n := length assets). exact Hids. }
  exists (table c1).
  split; [reflexivity|].
  split; [rewrite Hext; symmetry; eapply Forall2_length; exact Hst|].
  split; [rewrite Hext; exact Hst|].
  split; [exact Hids|].
  split; [apply ascending_NoDup; exact Hasc|].
  split; [exact Hasc|].
  intros batches.
  destruct (insert_batches_extend fault current_timestamp batches c1 Hj)
    as [more [Hm [_ Hasc']]].
  exists more. cbn [get_all_assets fst]. rewrite Hm.
  specialize (Hasc' Hasc). rewrite Hm in Hasc'.
  split; [reflexivity|]. split; [apply ascending_NoDup|]; exact Hasc'.
Qed.

Lemma snapshot_after_insert_witness :
  exists snapshot,
    get_all_assets after_two_listings
      = (Ok snapshot, after_two_listings) /\
    length snapshot = length two_listings /\
    Forall2 stores two_listings snapshot /\
    map id snapshot = map Z.of_nat (seq 1 (length two_listings)) /\
    NoDup (map id snapshot) /\
    ascending snapshot /\
    forall batches, exists more,
      fst (get_all_assets
             (insert_batches never_fails ticking batches
                after_two_listings))
        = Ok (snapshot ++ more) /\
      NoDup (map id (snapshot ++ more)) /\
      ascending (snapshot ++ more).
Proof.
  apply (@snapshot_after_insert never_fails ticking
           new_database after_two_listings two_listings);
    reflexivity.
Defined.

End StoreProperties.

(** ** The scraper *)

Section ScraperProperties.

Import MarketplaceScraper.

Section IoFacts.

Context {A B C : Type}.

Lemma io_bind_assoc (m : io A) (f : A -> io B)
    (g : B -> io C) :
  bind (bind m f) g =
  bind m (fun a => bind (f a) g).
Proof.
  destruct m as [[a|e] t]; [|reflexivity].
  unfold bind at 2 3.
  destruct (f a) as [[b|e] t1]; cbn; [|reflexivity].
  destruct (g b) as [r t2]. rewrite app_assoc. reflexivity.
Qed.

Lemma io_bind_fst (m : io A) (f : A -> io B) :
  fst (bind m f) =
  match fst m with
  | Ok a => fst (f a)
  | Raise e => Raise e
  end.
Proof.
  destruct m as [[a|e] t]; [|reflexivity].
  cbn. destruct (f a). reflexivity.
Qed.

Lemma io_bind_requests (m : io A) (f : A -> io B) :
  requests (snd (bind m f)) =
  requests (snd m) ++
  match fst m with
  | Ok a => requests (snd (f a))
  | Raise e => []
  end.
Proof.
  destruct m as [[a|e] t]; cbn.
  - destruct (f a) as [r t']. cbn. unfold requests.
    apply flat_map_app.
  - rewrite app_nil_r. reflexivity.
Qed.

End IoFacts.

Lemma scrape_listings_cons listing rest items :
  scrape_listings (listing :: rest) items =
  bind (scrape_listing listing items)
    (fun items' => scrape_listings rest items').
Proof. reflexivity. Qed.

Lemma scrape_listings_app pre : forall post items,
  scrape_listings (pre ++ post) items =
  bind (scrape_listings pre items)
    (fun items' => scrape_listings post items').
Proof.
  induction pre as [|listing pre IH]; intros post items.
  - cbn. destruct (scrape_listings post items). reflexivity.
  - cbn [app]. rewrite !scrape_listings_cons, io_bind_assoc.
    destruct (scrape_listing listing items) as [[items'|e] t]; cbn;
      [|reflexivity].
    rewrite IH. reflexivity.
Qed.

Lemma float_raises_ValueError s e : float s = Raise e -> e = ValueError.
Proof.
  unfold float, floatvalue.
  destruct (sign _) as [neg s1].
  destruct (number s1) as [[[digits places] s2]|]; [|congruence].
  destruct (exponent s2) as [[x [|? ?]]|]; congruence.
Qed.

(** A listing without price element is logged and leaves [items] as it
    was. *)
Lemma scrape_listing_no_price listing items :
  price_span listing = None ->
  scrape_listing listing items =
  (Ok items, [LogWarning (ParseFailed AttributeError)]).
Proof.
  intros H. unfold scrape_listing, parse_listing. rewrite H.
  reflexivity.
Qed.

(** So is a listing whose price text is no number. *)
Lemma scrape_listing_bad_price listing items price_text e :
  price_span listing = Some price_text ->
  price_number price_text = Raise e ->
  scrape_listing listing items =
  (Ok items, [LogWarning (ParseFailed ValueError)]).
Proof.
  intros H Hf. unfold scrape_listing, parse_listing. rewrite H.
  pose proof (float_raises_ValueError _ Hf) as ->.
  cbn -[price_number]. rewrite Hf. reflexivity.
Qed.

(** A listing with a price and no anchor raises [TypeError]; one whose
    anchor has no [href] raises [KeyError]. *)
Lemma scrape_listing_no_link listing items price_text price :
  price_span listing = Some price_text ->
  price_number price_text = Ok price ->
  (anchor listing = None ->
   scrape_listing listing items = (Raise TypeError, [])) /\
  (anchor listing = Some None ->
   scrape_listing listing items = (Raise KeyError, [])).
Proof.
  intros H Hf.
  split; intros Ha; unfold scrape_listing, parse_listing;
    rewrite H, Ha; cbn -[price_number]; rewrite Hf; reflexivity.
Qed.

(** A listing with a price and a link is appended when it passes the
    check, and nothing is logged. *)
Lemma scrape_listing_linked listing items price_text price href :
  price_span listing = Some price_text ->
  price_number price_text = Ok price ->
  anchor listing = Some (Some href) ->
  scrape_listing listing items =
  (Ok (items ++ match well_formed listing with
                | Some it => [it]
                | None => []
                end), []).
Proof.
  intros H Hf Ha.
  unfold scrape_listing, parse_listing, well_formed.
  rewrite H, Ha. cbn -[price_number]. rewrite Hf. cbn.
  destruct (h2 listing) as [text|]; cbn.
  - destruct (negb (text =? "N/A")%string && Qlt_bool 0 price
              && negb (href =? "")%string); cbn;
      rewrite ?app_nil_r; reflexivity.
  - rewrite app_nil_r. reflexivity.
Qed.

Lemma well_formed_price listing :
  price_span listing = None \/
  (exists price_text e, price_span listing = Some price_text /\
                        price_number price_text = Raise e) ->
  well_formed listing = None.
Proof.
  unfold well_formed.
  intros [H|[price_text [e [H Hf]]]]; rewrite H;
    destruct (h2 listing); try reflexivity.
  destruct (anchor listing) as [[href|]|]; try reflexivity.
  rewrite Hf. reflexivity.
Qed.

(** One turn on a listing that has a link: no exception, and the item is
    appended exactly when the listing is well formed. *)
Lemma scrape_listing_has_link listing items :
  has_link listing ->
  fst (scrape_listing listing items) =
  Ok (items ++ well_formed_items [listing]).
Proof.
  intros [href Ha]. unfold well_formed_items. cbn [flat_map].
  rewrite app_nil_r.
  destruct (price_span listing) as [price_text|] eqn:Hp.
  - destruct (price_number price_text) as [price|e] eqn:Hf.
    + rewrite (scrape_listing_linked _ _ Hp Hf Ha). reflexivity.
    + rewrite (scrape_listing_bad_price _ _ Hp Hf).
      rewrite well_formed_price, app_nil_r; [reflexivity|].
      right. exists price_text, e. auto.
  - rewrite (scrape_listing_no_price _ _ Hp).
    rewrite well_formed_price, app_nil_r; [reflexivity|]. left. exact Hp.
Qed.

(** On a page whose listings all have a link, the loop returns the items
    of the well-formed listings, and skips the others. *)
Lemma scrape_listings_linked listings : forall items,
  Forall has_link listings ->
  fst (scrape_listings listings items) =
  Ok (items ++ well_formed_items listings).
Proof.
  induction listings as [|listing rest IH]; intros items Hl.
  - cbn. rewrite app_nil_r. reflexivity.
  - inversion Hl as [|? ? Hhd Htl]; subst.
    rewrite scrape_listings_cons, io_bind_fst.
    rewrite (scrape_listing_has_link _ Hhd), (IH _ Htl).
    unfold well_formed_items. cbn [flat_map].
    rewrite app_nil_r, app_assoc. reflexivity.
Qed.

(** The first listing with a price and without anchor ends the loop with
    [TypeError], whatever follows it. *)
Lemma scrape_listings_missing_anchor pre listing post items price_text price :
  Forall has_link pre ->
  price_span listing = Some price_text ->
  price_number price_text = Ok price ->
  anchor listing = None ->
  fst (scrape_listings (pre ++ listing :: post) items) = Raise TypeError.
Proof.
  intros Hpre Hp Hf Ha.
  rewrite scrape_listings_app, io_bind_fst, (scrape_listings_linked _ Hpre).
  rewrite scrape_listings_cons, io_bind_fst.
  rewrite (proj1 (scrape_listing_no_link _ _ Hp Hf) Ha). reflexivity.
Qed.

(** The loop requests nothing, and raises nothing but what a missing link
    raises. *)
Lemma scrape_listing_cases listing items :
  requests (snd (scrape_listing listing items)) = [] /\
  match fst (scrape_listing listing items) with
  | Ok _ => True
  | Raise e => e = TypeError \/ e = KeyError
  end.
Proof.
  destruct (price_span listing) as [price_text|] eqn:Hp.
  - destruct (price_number price_text) as [price|e] eqn:Hf.
    + destruct (anchor listing) as [[href|]|] eqn:Ha.
      * rewrite (scrape_listing_linked _ _ Hp Hf Ha). cbn. auto.
      * rewrite (proj2 (scrape_listing_no_link _ _ Hp Hf) Ha). cbn. auto.
      * rewrite (proj1 (scrape_listing_no_link _ _ Hp Hf) Ha). cbn. auto.
    + rewrite (scrape_listing_bad_price _ _ Hp Hf). cbn. auto.
  - rewrite (scrape_listing_no_price _ _ Hp). cbn. auto.
Qed.

Lemma scrape_listings_cases listings : forall items,
  requests (snd (scrape_listings listings items)) = [] /\
  match fst (scrape_listings listings items) with
  | Ok _ => True
  | Raise e => e = TypeError \/ e = KeyError
  end.
Proof.
  induction listings as [|listing rest IH]; intros items.
  - cbn. auto.
  - rewrite scrape_listings_cons, io_bind_requests, io_bind_fst.
    destruct (scrape_listing_cases listing items) as [Hr He].
    rewrite Hr.
    destruct (fst (scrape_listing listing items)) as [items'|e].
    + apply IH.
    + auto.
Qed.

Section NetworkFacts.

Variable get : string -> http_outcome.

(** A page that fails at the level of the network is logged and gives no
    item. *)
Lemma scrape_page_fetch_fails url :
  fetch_fails get url = true ->
  scrape_page get url =
  (Ok [], [Get url;
           LogError (FetchFailed url RequestException)]).
Proof.
  unfold fetch_fails, scrape_page.
  destruct (get url) as [|status_code content]; [reflexivity|].
  intros H. unfold raise_for_status. rewrite H. reflexivity.
Qed.

(** A page that arrives is scraped by the loop over its listings. *)
Lemma scrape_page_fetched url :
  fetch_fails get url = false ->
  exists status_code content,
    get url = Response status_code content /\
    fst (scrape_page get url) =
      fst (scrape_listings content []) /\
    requests (snd (scrape_page get url)) = [url].
Proof.
  unfold fetch_fails, scrape_page.
  destruct (get url) as [|status_code content]; [discriminate|].
  intros H. exists status_code, content. split; [reflexivity|].
  unfold raise_for_status. rewrite H.
  destruct (scrape_listings_cases content []) as [Hr He].
  destruct (scrape_listings content []) as [[items|e] t];
    cbn in Hr, He |- *.
  - split; [reflexivity|].
    unfold requests in *. rewrite flat_map_app, Hr. reflexivity.
  - destruct He as [-> | ->]; cbn; rewrite Hr; auto.
Qed.

(** Every call of [scrape_page] requests its URL, once. *)
Lemma scrape_page_requests url :
  requests (snd (scrape_page get url)) = [url].
Proof.
  destruct (fetch_fails get url) eqn:H.
  - rewrite (scrape_page_fetch_fails _ H). reflexivity.
  - destruct (scrape_page_fetched _ H) as [_ [_ [_ [_ Hr]]]]. exact Hr.
Qed.

Lemma page_items_fetch_fails url :
  fetch_fails get url = true -> page_items get url = [].
Proof.
  intros H. unfold page_items.
  rewrite (scrape_page_fetch_fails _ H). reflexivity.
Qed.

(** The loop over the pages, when no page raises. *)
Lemma scrape_pages_spec base_url page_nums : forall all_items,
  (forall n, In n page_nums ->
     is_ok (fst (scrape_page get (page_url base_url n))) = true) ->
  fst (scrape_pages get base_url page_nums all_items) =
    Ok (all_items ++
        concat (map (fun n => page_items get (page_url base_url n))
                    page_nums)) /\
  requests (snd (scrape_pages get base_url page_nums all_items)) =
    map (page_url base_url) page_nums.
Proof.
  induction page_nums as [|n rest IH]; intros all_items Hok.
  - cbn. rewrite app_nil_r. auto.
  - cbn [scrape_pages map concat].
    rewrite io_bind_fst, io_bind_requests, scrape_page_requests.
    pose proof (Hok n (or_introl eq_refl)) as Hn.
    unfold page_items at 1.
    destruct (fst (scrape_page get (page_url base_url n)))
      as [items|e]; [|discriminate Hn].
    rewrite io_bind_fst, io_bind_requests. cbn [emit fst snd].
    destruct (IH (all_items ++ items)) as [IH1 IH2].
    { intros m Hm. apply Hok. right. exact Hm. }
    rewrite IH1, IH2, app_assoc. auto.
Qed.

(** The first page that raises ends the loop with its exception. *)
Lemma scrape_pages_raise base_url n rest all_items e :
  fst (scrape_page get (page_url base_url n)) = Raise e ->
  fst (scrape_pages get base_url (n :: rest) all_items) = Raise e /\
  requests (snd (scrape_pages get base_url (n :: rest) all_items))
    = [page_url base_url n].
Proof.
  intros H. cbn [scrape_pages].
  rewrite io_bind_fst, io_bind_requests, scrape_page_requests, H.
  auto.
Qed.

End NetworkFacts.

(** *** [range] *)

Lemma range_In start stop n :
  In n (range start stop) <-> (start <= n < stop)%Z.
Proof.
  unfold range. rewrite in_map_iff. split.
  - intros [i [<- Hi]]. apply in_seq in Hi. lia.
  - intros H. exists (Z.to_nat (n - start)). split; [lia|].
    apply in_seq. lia.
Qed.

Lemma range_sorted start stop : StronglySorted Z.lt (range start stop).
Proof.
  unfold range. generalize (Z.to_nat (stop - start)) as len.
  generalize 0%nat as from.
  intros from len. revert from.
  induction len as [|len IH]; intros from; cbn; constructor; [apply IH|].
  apply Forall_forall. intros m Hm. apply in_map_iff in Hm.
  destruct Hm as [i [<- Hi]]. apply in_seq in Hi. lia.
Qed.

Lemma range_empty start stop : (stop <= start)%Z -> range start stop = [].
Proof.
  intros H. unfold range.
  replace (Z.to_nat (stop - start)) with 0%nat by lia. reflexivity.
Qed.

Lemma length_concat_map {X Y} (f : X -> list Y) (l : list X) :
  length (concat (map f l)) = list_sum (map (fun x => length (f x)) l).
Proof.
  induction l as [|x l IH]; [reflexivity|].
  cbn. rewrite length_app, IH. reflexivity.
Qed.

Lemma list_sum_filter_zero {X} (f : X -> nat) (keep : X -> bool) (l : list X) :
  (forall x, keep x = false -> f x = 0%nat) ->
  list_sum (map f l) = list_sum (map f (filter keep l)).
Proof.
  intros H. induction l as [|x l IH]; [reflexivity|].
  cbn [map filter list_sum fold_right]. destruct (keep x) eqn:E.
  - cbn [map list_sum fold_right]. fold (list_sum (map f l)).
    fold (list_sum (map f (filter keep l))). rewrite IH. reflexivity.
  - fold (list_sum (map f l)). rewrite (H x E), IH. reflexivity.
Qed.

(** C5, at the failing input.  On a page that holds a listing with a title
    and a price and no anchor, between two well-formed listings,
    [scrape_page] raises [TypeError]: it returns no listing, where the
    page has two well-formed ones. *)
Theorem scrape_page_raises_without_anchor :
  scrape_page marketplace_no_anchor
    "https://example-marketplace.com/page/1" =
  (Raise TypeError, [Get "https://example-marketplace.com/page/1"]) /\
  well_formed_items [lamp; no_anchor; desk] =
  [("Lamp"%string, 2469 # 2, "/item/lamp"%string);
   ("Desk"%string, 80, "/item/desk"%string)].
Proof. split; reflexivity. Qed.



(** C9, at the failing input.  On a marketplace whose three pages all
    arrive, and whose page 2 holds a listing without anchor between two
    well-formed listings, [scrape_multiple_pages] raises [TypeError] at
    page 2: the two items of page 1 are lost and page 3 is not requested,
    where the pages hold six well-formed listings.  (The exception is the
    one of C5.) *)
Theorem scrape_multiple_pages_raises_at_page_2 :
  scrape_multiple_pages marketplace_unlinked_page_2
    "https://example-marketplace.com" 1 3 =
  (Raise TypeError,
   [Get "https://example-marketplace.com/page/1";
    LogInfo (Scraped 2 "https://example-marketplace.com/page/1");
    Sleep 1;
    Get "https://example-marketplace.com/page/2"]) /\
  map (fetch_fails marketplace_unlinked_page_2)
      ["https://example-marketplace.com/page/1"%string;
       "https://example-marketplace.com/page/2"%string;
       "https://example-marketplace.com/page/3"%string] =
    [false; false; false] /\
  well_formed_items [lamp; desk] ++ well_formed_items [lamp; no_anchor; desk]
    ++ well_formed_items [lamp; desk] =
  [("Lamp"%string, 2469 # 2, "/item/lamp"%string);
   ("Desk"%string, 80, "/item/desk"%string);
   ("Lamp"%string, 2469 # 2, "/item/lamp"%string);
   ("Desk"%string, 80, "/item/desk"%string);
   ("Lamp"%string, 2469 # 2, "/item/lamp"%string);
   ("Desk"%string, 80, "/item/desk"%string)].
Proof. repeat split. Qed.

(** C10 (empty page range).  When [start] is above [end_],
    [scrape_multiple_pages] returns no item and causes no event: no
    request, no pause, no log record. *)
Theorem scrape_multiple_pages_empty_range
    (get : string -> http_outcome) (base_url : string)
    (start_page end_page : Z) :
  (end_page < start_page)%Z ->
  scrape_multiple_pages get base_url start_page end_page = (Ok [], []).
Proof.
  intros H. unfold scrape_multiple_pages.
  rewrite range_empty by lia. reflexivity.
Qed.

Lemma scrape_multiple_pages_empty_range_witness :
  scrape_multiple_pages marketplace
    "https://example-marketplace.com" 3 1 = (Ok [], []).
Proof.
  apply (@scrape_multiple_pages_empty_range marketplace
           "https://example-marketplace.com" 3 1).
  lia.
Defined.

End ScraperProperties.

(** * Further properties

    What the code shows besides. *)

(** ** The threshold and the ranking *)



Section Interpolation.

(** The value at the virtual index [h] of the sorted values. *)
Local Abbreviation interp arr h :=
  (nth (Z.to_nat (Qfloor h)) arr 0 +
   (nth (Nat.min (S (Z.to_nat (Qfloor h))) (length arr - 1)) arr 0 -
    nth (Z.to_nat (Qfloor h)) arr 0) * (h - inject_Z (Qfloor h))).

Variable arr : list Q.
Hypothesis arr_sorted : StronglySorted Qle arr.
Hypothesis arr_inhabited : (0 < length arr)%nat.





End Interpolation.








Lemma StronglySorted_weaken {A} (R R' : A -> A -> Prop) l :
  (forall x y, In x l -> In y l -> R x y -> R' x y) ->
  StronglySorted R l -> StronglySorted R' l.
Proof.
  intros Himp H. induction H as [|x l Hs IH Hx]; [constructor|].
  constructor.
  - apply IH. intros a b Ha Hb. apply Himp; right; assumption.
  - rewrite Forall_forall in *. intros y Hy.
    apply Himp; [left; reflexivity|right; exact Hy|apply Hx; exact Hy].
Qed.

(** The discount against a positive mean, as a function of the price. *)
Lemma discount_positive_mean m a :
  0 < m ->
  (forall b, discount_percent (annotate m b) <= discount_percent (annotate m a)
             <-> price a <= price b) /\
  (discount_percent (annotate m a) < 100 <-> 0 < price a) /\
  (0 < discount_percent (annotate m a) <-> price a < m).
Proof.
  intros Hm. cbn [discount_percent annotate].
  remember (/ m * 100) as c eqn:Hc.
  assert (Hpos : 0 < c).
  { subst c.
    apply Qmult_lt_0_compat; [apply Qinv_lt_0_compat; exact Hm|reflexivity]. }
  assert (Ec : forall x, x / m * 100 == x * c).
  { intros x. subst c. unfold Qdiv. ring. }
  assert (Hone : m * c == 100).
  { subst c. rewrite Qmult_assoc, Qmult_inv_r; [ring|]. intros E.
    rewrite E in Hm. discriminate Hm. }
  split; [|split].
  - intros b. rewrite !Ec, (Qmult_le_r _ _ _ Hpos). split; intros; lra.
  - rewrite Ec, <- Hone, (Qmult_lt_r _ _ _ Hpos). split; intros; lra.
  - rewrite Ec. rewrite <- (Qmult_0_l c) at 1.
    rewrite (Qmult_lt_r _ _ _ Hpos). split; intros; lra.
Qed.

Lemma Qsum_positive values :
  values <> [] -> Forall (fun v => 0 < v) values -> 0 < Qsum values.
Proof.
  intros Hne H. induction H as [|v l Hv Hl IH]; [congruence|].
  simpl. destruct l as [|w l].
  - simpl. lra.
  - assert (0 < Qsum (w :: l)) by (apply IH; discriminate). lra.
Qed.

Lemma mean_positive values :
  values <> [] -> Forall (fun v => 0 < v) values -> 0 < mean values.
Proof.
  intros Hne H. unfold mean. apply Qlt_shift_div_l.
  - change 0 with (inject_Z 0). rewrite <- Zlt_Qlt.
    destruct values; [congruence|simpl; lia].
  - rewrite Qmult_0_l. apply Qsum_positive; assumption.
Qed.






(** X18 (the ranking of line 155).  Whatever discounts the column holds,
    [sort_values("discount_percent", ascending=False)], with a sorting
    algorithm within the contract of [argsort], returns the rows it is
    given, each once, in descending order of discount. *)
Theorem sort_values_ranks_by_discount
    (argsort : list Q -> list nat) (rows : list UndervaluedAsset) :
  ArgsortOk argsort ->
  Permutation (sort_values argsort discount_percent false rows) rows /\
  descending (sort_values argsort discount_percent false rows).
Proof.
  intros Hok. split.
  - apply sort_values_desc_Permutation. exact Hok.
  - apply sort_values_desc_sorted. exact Hok.
Qed.

Lemma sort_values_ranks_by_discount_witness :
  Permutation
    [{| asset := asset_of 2 20; discount_percent := 50 |};
     {| asset := asset_of 3 30; discount_percent := 25 |};
     {| asset := asset_of 1 10; discount_percent := -(75) |}]
    [{| asset := asset_of 1 10; discount_percent := -(75) |};
     {| asset := asset_of 2 20; discount_percent := 50 |};
     {| asset := asset_of 3 30; discount_percent := 25 |}] /\
  descending
    [{| asset := asset_of 2 20; discount_percent := 50 |};
     {| asset := asset_of 3 30; discount_percent := 25 |};
     {| asset := asset_of 1 10; discount_percent := -(75) |}].
Proof.
  apply (@sort_values_ranks_by_discount argsort_stable
           [{| asset := asset_of 1 10; discount_percent := -(75) |};
            {| asset := asset_of 2 20; discount_percent := 50 |};
            {| asset := asset_of 3 30; discount_percent := 25 |}]).
  exact argsort_stable_ok.
Defined.

(** ** The runs of the scraper *)

Section ScraperRuns.

Import MarketplaceScraper.





Lemma range_cons start stop :
  (start < stop)%Z -> range start stop = start :: range (start + 1) stop.
Proof.
  intros H. unfold range.
  replace (Z.to_nat (stop - start)) with (S (Z.to_nat (stop - (start + 1))))
    by lia.
  cbn [seq map]. f_equal; [lia|].
  rewrite <- seq_shift, map_map. apply map_ext. intros i. lia.
Qed.

Lemma range_app start mid stop :
  (start <= mid <= stop)%Z ->
  range start stop = range start mid ++ range mid stop.
Proof.
  intros H. remember (Z.to_nat (mid - start)) as k eqn:Hk.
  revert start H Hk. induction k as [|k IH]; intros start H Hk.
  - assert (mid = start) as -> by lia.
    rewrite (@range_empty start start) by lia. reflexivity.
  - rewrite (range_cons (start := start) (stop := stop)) by lia.
    rewrite (range_cons (start := start) (stop := mid)) by lia.
    cbn [app]. f_equal. apply IH; lia.
Qed.

Lemma range_length start stop :
  Z.of_nat (length (range start stop)) = Z.max 0 (stop - start).
Proof.
  unfold range. rewrite length_map, length_seq. lia.
Qed.

Lemma pauses_cons ev t :
  pauses (ev :: t) =
  (match ev with Sleep seconds => seconds | _ => 0 end + pauses t)%Z.
Proof. destruct ev; reflexivity. Qed.

Lemma pauses_app t t' : pauses (t ++ t') = (pauses t + pauses t')%Z.
Proof.
  induction t as [|ev t IH]; [reflexivity|].
  cbn [app pauses fold_right]. fold (pauses (t ++ t')). fold (pauses t).
  rewrite IH. destruct ev; lia.
Qed.

Lemma scrape_listings_pauses listings : forall items,
  pauses (snd (scrape_listings listings items)) = 0%Z.
Proof.
  induction listings as [|listing rest IH]; intros items; [reflexivity|].
  rewrite scrape_listings_cons.
  assert (H : exists r t, scrape_listing listing items = (r, t) /\
                          pauses t = 0%Z).
  { destruct (price_span listing) as [price_text|] eqn:Hp.
    - destruct (price_number price_text) as [price|e] eqn:Hf.
      + destruct (anchor listing) as [[href|]|] eqn:Ha.
        * rewrite (scrape_listing_linked _ _ Hp Hf Ha). eauto.
        * rewrite (proj2 (scrape_listing_no_link _ _ Hp Hf) Ha). eauto.
        * rewrite (proj1 (scrape_listing_no_link _ _ Hp Hf) Ha). eauto.
      + rewrite (scrape_listing_bad_price _ _ Hp Hf). eauto.
    - rewrite (scrape_listing_no_price _ _ Hp). eauto. }
  destruct H as [r [t [-> Ht]]]. destruct r as [items'|e]; cbn [bind snd].
  - specialize (IH items').
    destruct (scrape_listings rest items') as [r' t']. cbn [snd] in *.
    rewrite pauses_app. lia.
  - exact Ht.
Qed.

Section PagesFacts.

Variable get : string -> http_outcome.

Lemma scrape_page_pauses url : pauses (snd (scrape_page get url)) = 0%Z.
Proof.
  unfold scrape_page. destruct (get url) as [|status_code content];
    [reflexivity|].
  unfold raise_for_status.
  destruct ((400 <=? status_code)%Z && (status_code <? 600)%Z);
    [reflexivity|].
  pose proof (scrape_listings_pauses content []) as H.
  destruct (scrape_listings content []) as [[items|e] t];
    cbn -[pauses] in H |- *.
  - rewrite pauses_cons, pauses_app, H. reflexivity.
  - destruct e; cbn -[pauses]; rewrite pauses_cons, ?pauses_app, H;
      reflexivity.
Qed.

Lemma scrape_pages_app base_url pre : forall post all_items,
  scrape_pages get base_url (pre ++ post) all_items =
  bind (scrape_pages get base_url pre all_items)
       (fun all_items' => scrape_pages get base_url post all_items').
Proof.
  induction pre as [|n pre IH]; intros post all_items.
  - cbn. destruct (scrape_pages get base_url post all_items). reflexivity.
  - cbn [app scrape_pages]. rewrite io_bind_assoc.
    destruct (scrape_page get (page_url base_url n)) as [[items|e] t];
      cbn; [|reflexivity].
    rewrite IH.
    destruct (scrape_pages get base_url pre (all_items ++ items))
      as [[items'|e] t']; cbn; [|reflexivity].
    destruct (scrape_pages get base_url post items') as [r t''].
    reflexivity.
Qed.

(** The trace of the loop over the pages, when no page raises: page
    after page, the trace of the page and a pause of one second. *)
Lemma scrape_pages_trace base_url page_nums : forall all_items,
  (forall n, In n page_nums ->
     is_ok (fst (scrape_page get (page_url base_url n))) = true) ->
  snd (scrape_pages get base_url page_nums all_items) =
  flat_map (fun n => snd (scrape_page get (page_url base_url n))
                     ++ [Sleep 1]) page_nums.
Proof.
  induction page_nums as [|n rest IH]; intros all_items Hok; [reflexivity|].
  cbn [scrape_pages flat_map].
  pose proof (Hok n (or_introl eq_refl)) as Hn.
  specialize (IH (all_items ++
    match fst (scrape_page get (page_url base_url n)) with
    | Ok items => items | Raise _ => [] end)
    (fun m Hm => Hok m (or_intror Hm))).
  destruct (scrape_page get (page_url base_url n)) as [[items|e] t];
    [|discriminate Hn].
  cbn [fst snd bind emit] in *.
  destruct (scrape_pages get base_url rest (all_items ++ items)) as [r t'].
  cbn [snd] in *. rewrite IH, <- app_assoc. reflexivity.
Qed.

Lemma pauses_pages base_url page_nums :
  pauses (flat_map (fun n => snd (scrape_page get (page_url base_url n))
                             ++ [Sleep 1]) page_nums) =
  Z.of_nat (length page_nums).
Proof.
  induction page_nums as [|n rest IH]; [reflexivity|].
  cbn [flat_map length]. rewrite !pauses_app, IH, scrape_page_pauses.
  change (pauses [Sleep 1]) with 1%Z. lia.
Qed.

End PagesFacts.

(** *** The page numbers in the URLs *)

Lemma str_inj n m : str n = str m -> n = m.
Proof.
  unfold str. intros H. apply DecimalZ.to_int_inj.
  assert (Hnorm : forall z, NilZero.int_of_string
                              (NilZero.string_of_int (Z.to_int z))
                            = Some (Z.to_int z)).
  { intros z. apply NilZero.isi; destruct z; cbn; try discriminate;
      intros E; injection E as E;
      exact (DecimalPos.Unsigned.to_uint_nonnil _ E). }
  pose proof (Hnorm n) as Hn. rewrite H, Hnorm in Hn. congruence.
Qed.

Lemma append_inj_r (a b c : string) : (a ++ b = a ++ c)%string -> b = c.
Proof.
  induction a as [|ch a IH]; cbn; intros H; [exact H|].
  injection H as H. apply IH. exact H.
Qed.

Lemma page_url_inj base_url n m :
  page_url base_url n = page_url base_url m -> n = m.
Proof.
  unfold page_url. intros H.
  apply str_inj. do 2 apply append_inj_r in H. exact H.
Qed.

Lemma sorted_lt_NoDup (l : list Z) : StronglySorted Z.lt l -> NoDup l.
Proof.
  induction 1 as [|x l Hs IH Hx]; constructor; [|exact IH].
  intros Hin. rewrite Forall_forall in Hx. specialize (Hx x Hin). lia.
Qed.

Lemma page_urls_NoDup base_url start stop :
  NoDup (map (page_url base_url) (range start stop)).
Proof.
  apply NoDup_map_NoDup_ForallPairs.
  - intros n m _ _. apply page_url_inj.
  - apply sorted_lt_NoDup, range_sorted.
Qed.

Section RequestsFacts.

Variable get : string -> http_outcome.

Lemma scrape_pages_requests_prefix base_url page_nums : forall all_items,
  exists k,
    requests (snd (scrape_pages get base_url page_nums all_items)) =
    firstn k (map (page_url base_url) page_nums).
Proof.
  induction page_nums as [|n rest IH]; intros all_items.
  - exists 0%nat. reflexivity.
  - cbn [scrape_pages]. rewrite io_bind_requests, scrape_page_requests.
    destruct (fst (scrape_page get (page_url base_url n))) as [items|e].
    + rewrite io_bind_requests. cbn [emit fst snd requests flat_map app].
      destruct (IH (all_items ++ items)) as [k Hk].
      exists (S k). cbn [map firstn]. fold (requests). 
      f_equal. exact Hk.
    + exists 1%nat. reflexivity.
Qed.

End RequestsFacts.





(** X7 (a page that raises ends the run).  When the pages before page
    [n] are scraped and page [n] raises, [scrape_multiple_pages] raises
    the same exception: the items of the pages before are lost, the
    pages after [n] are not requested, and no pause follows page [n]. *)
Theorem scrape_multiple_pages_stops_at_raise
    (get : string -> http_outcome) (base_url : string)
    (start_page end_page n : Z) (e : exn) :
  (start_page <= n <= end_page)%Z ->
  (forall k, (start_page <= k < n)%Z ->
     is_ok (fst (scrape_page get (page_url base_url k))) = true) ->
  fst (scrape_page get (page_url base_url n)) = Raise e ->
  fst (scrape_multiple_pages get base_url start_page end_page) = Raise e /\
  requests (snd (scrape_multiple_pages get base_url start_page end_page)) =
    map (page_url base_url) (range start_page (n + 1)) /\
  pauses (snd (scrape_multiple_pages get base_url start_page end_page)) =
    (n - start_page)%Z.
Proof.
  intros Hn Hok He. unfold scrape_multiple_pages.
  rewrite (@range_app start_page n (end_page + 1)) by lia.
  rewrite (@range_app start_page n (n + 1)) by lia.
  rewrite (@range_cons n (end_page + 1)) by lia.
  rewrite (@range_cons n (n + 1)), (@range_empty (n + 1) (n + 1)) by lia.
  assert (Hpre : forall k, In k (range start_page n) ->
            is_ok (fst (scrape_page get (page_url base_url k))) = true).
  { intros k Hk. apply Hok, range_In. exact Hk. }
  rewrite scrape_pages_app.
  destruct (scrape_pages_spec get base_url (range start_page n) [] Hpre)
    as [Hfst Hreq].
  pose proof (scrape_pages_trace get base_url (range start_page n) [] Hpre)
    as Htrace.
  destruct (scrape_pages get base_url (range start_page n) [])
    as [[items|e'] t]; cbn [fst snd] in *; [|discriminate Hfst].
  cbn [bind scrape_pages].
  pose proof (scrape_page_requests get (page_url base_url n)) as Hr.
  pose proof (scrape_page_pauses get (page_url base_url n)) as Hp.
  destruct (scrape_page get (page_url base_url n)) as [r t'].
  cbn [fst snd] in *. subst r. cbn [bind fst snd].
  split; [reflexivity|]. split.
  - unfold requests in *. rewrite flat_map_app, Hreq, Hr, map_app.
    reflexivity.
  - rewrite pauses_app, Hp, Htrace, pauses_pages.
    pose proof (range_length start_page n). lia.
Qed.

Lemma scrape_multiple_pages_stops_at_raise_witness :
  fst (scrape_multiple_pages marketplace_unlinked_page_2
         "https://example-marketplace.com" 1 3) = Raise TypeError /\
  requests (snd (scrape_multiple_pages marketplace_unlinked_page_2
                   "https://example-marketplace.com" 1 3)) =
    map (page_url "https://example-marketplace.com") (range 1 (2 + 1)) /\
  pauses (snd (scrape_multiple_pages marketplace_unlinked_page_2
                 "https://example-marketplace.com" 1 3)) = (2 - 1)%Z.
Proof.
  apply (@scrape_multiple_pages_stops_at_raise marketplace_unlinked_page_2
           "https://example-marketplace.com" 1 3 2 TypeError).
  - lia.
  - intros k Hk. assert (k = 1)%Z as -> by lia. reflexivity.
  - reflexivity.
Defined.

(** X8 (one pause for each page).  When no page raises, the trace of a
    run is, page after page, the trace of the page and a pause of one
    second: the last page and the pages that fail to arrive are followed
    by a pause too, and a run over [k] pages pauses [k] seconds. *)
Theorem scrape_multiple_pages_trace
    (get : string -> http_outcome) (base_url : string)
    (start_page end_page : Z) :
  (forall n, (start_page <= n <= end_page)%Z ->
     is_ok (fst (scrape_page get (page_url base_url n))) = true) ->
  snd (scrape_multiple_pages get base_url start_page end_page) =
    flat_map (fun n => snd (scrape_page get (page_url base_url n))
                       ++ [Sleep 1])
             (range start_page (end_page + 1)) /\
  pauses (snd (scrape_multiple_pages get base_url start_page end_page)) =
    Z.max 0 (end_page - start_page + 1).
Proof.
  intros Hok. unfold scrape_multiple_pages.
  assert (Hin : forall n, In n (range start_page (end_page + 1)) ->
            is_ok (fst (scrape_page get (page_url base_url n))) = true).
  { intros n Hn. apply Hok. apply range_In in Hn. lia. }
  rewrite (scrape_pages_trace get base_url _ [] Hin).
  split; [reflexivity|].
  rewrite pauses_pages, range_length. lia.
Qed.

Lemma scrape_multiple_pages_trace_witness :
  snd (scrape_multiple_pages marketplace
         "https://example-marketplace.com" 1 3) =
    flat_map (fun n => snd (scrape_page marketplace
                              (page_url "https://example-marketplace.com" n))
                       ++ [Sleep 1])
             (range 1 (3 + 1)) /\
  pauses (snd (scrape_multiple_pages marketplace
                 "https://example-marketplace.com" 1 3)) =
    Z.max 0 (3 - 1 + 1).
Proof.
  apply (@scrape_multiple_pages_trace marketplace
           "https://example-marketplace.com" 1 3).
  intros n Hn.
  assert (n = 1 \/ n = 2 \/ n = 3)%Z as [-> | [-> | ->]] by lia;
    reflexivity.
Defined.

(** X9 (no page is requested twice).  Different page numbers give
    different URLs, and a run requests each URL of its range at most
    once, however it ends. *)
Theorem scrape_multiple_pages_requests_once
    (get : string -> http_outcome) (base_url : string)
    (start_page end_page : Z) :
  NoDup (requests
           (snd (scrape_multiple_pages get base_url start_page end_page))) /\
  (forall n m, page_url base_url n = page_url base_url m -> n = m).
Proof.
  split; [|apply page_url_inj].
  unfold scrape_multiple_pages.
  destruct (scrape_pages_requests_prefix get base_url
              (range start_page (end_page + 1)) []) as [k ->].
  apply (NoDup_app_remove_r _ (skipn k (map (page_url base_url)
                                         (range start_page (end_page + 1))))).
  rewrite firstn_skipn. apply page_urls_NoDup.
Qed.

(** X19 (the pages of a run that does not raise).  The page numbers are
    the integers from [start_page] to [end_page] in increasing order, and
    the URL of page [n] is the base URL, the text [/page/] and the
    decimal numeral of [n].  When no page raises,
    [scrape_multiple_pages] requests these URLs in that order and
    returns the items of the pages one after the other.  A page that
    fails at the level of the network raises nothing and gives no item,
    so the number of items is the sum over the pages that did not
    fail. *)
Theorem scrape_multiple_pages_concat
    (get : string -> http_outcome) (base_url : string)
    (start_page end_page : Z) :
  (forall n, (start_page <= n <= end_page)%Z ->
     is_ok (fst (scrape_page get (page_url base_url n))) = true) ->
  (forall n, In n (range start_page (end_page + 1))
             <-> (start_page <= n <= end_page)%Z) /\
  StronglySorted Z.lt (range start_page (end_page + 1)) /\
  requests
    (snd (scrape_multiple_pages get base_url start_page end_page)) =
    map (fun n => (base_url ++ "/page/"
                   ++ NilZero.string_of_int (Z.to_int n))%string)
        (range start_page (end_page + 1)) /\
  fst (scrape_multiple_pages get base_url start_page end_page) =
    Ok (concat (map (fun n => page_items get (page_url base_url n))
                    (range start_page (end_page + 1)))) /\
  (forall url, fetch_fails get url = true ->
     scrape_page get url =
     (Ok [], [Get url;
              LogError (FetchFailed url RequestException)])) /\
  (exists items,
     fst (scrape_multiple_pages get base_url start_page end_page)
       = Ok items /\
     length items =
     list_sum
       (map (fun n => length (page_items get (page_url base_url n)))
            (filter (fun n => negb (fetch_fails get
                                      (page_url base_url n)))
                    (range start_page (end_page + 1))))).
Proof.
  intros Hok.
  assert (Hin : forall n, In n (range start_page (end_page + 1))
                          <-> (start_page <= n <= end_page)%Z).
  { intros n. rewrite range_In. lia. }
  destruct (scrape_pages_spec get base_url
              (range start_page (end_page + 1)) [])
    as [Hitems Hreq].
  { intros n Hn. apply Hok, Hin, Hn. }
  cbn [app] in Hitems.
  split; [exact Hin|]. split; [apply range_sorted|].
  split; [exact Hreq|]. split; [exact Hitems|].
  split; [intros url; apply scrape_page_fetch_fails|].
  eexists. split; [exact Hitems|].
  rewrite length_concat_map.
  apply list_sum_filter_zero with
    (f := fun n => length (page_items get (page_url base_url n))).
  intros n Hn. apply negb_false_iff in Hn.
  rewrite (page_items_fetch_fails _ _ Hn). reflexivity.
Qed.

Lemma scrape_multiple_pages_concat_witness :
  (forall n, In n (range 1 (3 + 1)) <-> (1 <= n <= 3)%Z) /\
  StronglySorted Z.lt (range 1 (3 + 1)) /\
  requests
    (snd (scrape_multiple_pages marketplace
            "https://example-marketplace.com" 1 3)) =
    ["https://example-marketplace.com/page/1"%string;
     "https://example-marketplace.com/page/2"%string;
     "https://example-marketplace.com/page/3"%string] /\
  fst (scrape_multiple_pages marketplace
         "https://example-marketplace.com" 1 3) =
    Ok [("Lamp"%string, 2469 # 2, "/item/lamp"%string);
        ("Desk"%string, 80, "/item/desk"%string);
        ("Lamp"%string, 2469 # 2, "/item/lamp"%string);
        ("Desk"%string, 80, "/item/desk"%string)] /\
  (forall url, fetch_fails marketplace url = true ->
     scrape_page marketplace url =
     (Ok [], [Get url;
              LogError (FetchFailed url RequestException)])) /\
  (exists items,
     fst (scrape_multiple_pages marketplace
            "https://example-marketplace.com" 1 3) = Ok items /\
     length items =
     list_sum
       (map (fun n => length (page_items marketplace
                                (page_url
                                   "https://example-marketplace.com" n)))
            (filter (fun n => negb (fetch_fails marketplace
                                      (page_url
                                         "https://example-marketplace.com" n)))
                    (range 1 (3 + 1))))).
Proof.
  apply (@scrape_multiple_pages_concat marketplace
           "https://example-marketplace.com" 1 3).
  intros n Hn.
  assert (n = 1 \/ n = 2 \/ n = 3)%Z as [-> | [-> | ->]] by lia;
    reflexivity.
Defined.

End ScraperRuns.

(** ** The rows of a batch, and closing *)

Section StoreRuns.

Import DatabaseManager.

Section StoreRows.

Variable fault : nat -> bool.
Variable current_timestamp : nat -> Z.

Local Abbreviation insert := (DatabaseManager.insert fault current_timestamp).
Local Abbreviation insert_all :=
  (DatabaseManager.insert_all fault current_timestamp).
Local Abbreviation insert_assets :=
  (DatabaseManager.insert_assets fault current_timestamp).
Local Abbreviation insert_batches :=
  (DatabaseManager.insert_batches fault current_timestamp).

Lemma fold_max_snoc i ids x :
  fold_right Z.max i (ids ++ [x]) = Z.max (fold_right Z.max i ids) x.
Proof.
  induction ids as [|j ids IH]; cbn; [lia|]. rewrite IH. lia.
Qed.

(** The row that takes the next rowid moves the next rowid on by one. *)
Lemma next_rowid_snoc rows row :
  id row = next_rowid rows -> next_rowid (rows ++ [row]) = (id row + 1)%Z.
Proof.
  unfold next_rowid. rewrite map_app. cbn [map].
  destruct (map id rows) as [|i ids]; cbn [app]; intros H.
  - reflexivity.
  - rewrite fold_max_snoc. lia.
Qed.

Lemma insert_all_identifiers ps : forall c c' u,
  insert_all ps c = (Ok u, c') ->
  exists rows,
    table c' = table c ++ rows /\
    map id rows =
      map (fun i => (next_rowid (table c) + Z.of_nat i)%Z)
          (seq 0 (length ps)) /\
    map date_added rows =
      map (fun i => current_timestamp (writes c + i)) (seq 0 (length ps)).
Proof.
  induction ps as [|p ps IH]; intros c c' u Hrun.
  - injection Hrun as _ <-. exists []. rewrite app_nil_r. auto.
  - rewrite insert_all_cons in Hrun.
    destruct (fault (writes c)) eqn:Hf;
      [|destruct (accepted p) eqn:Ha].
    + rewrite insert_refused in Hrun by (left; exact Hf). discriminate Hrun.
    + destruct p as [[[t|] [q|]] [l|]]; try discriminate Ha.
      rewrite insert_accepted in Hrun by exact Hf.
      apply IH in Hrun. destruct Hrun as [rows [Ht [Hid Hd]]].
      cbn [table writes] in Ht, Hid, Hd.
      rewrite next_rowid_snoc in Hid by reflexivity. cbn [id] in Hid.
      eexists (_ :: rows). split; [rewrite Ht, <- app_assoc; reflexivity|].
      cbn [length seq map id date_added]. rewrite <- seq_shift, !map_map.
      split; f_equal.
      * lia.
      * rewrite Hid. apply map_ext. intros i. lia.
      * f_equal. lia.
      * rewrite Hd. apply map_ext. intros i. f_equal. lia.
    + rewrite insert_refused in Hrun by (right; exact Ha). discriminate Hrun.
Qed.

End StoreRows.

(** X10 (the rowids and the dates of a batch).  On a table that has a
    rowid left above its largest for each row of the batch, the rows of
    a batch that went in take the rowids that follow the largest one of
    the table, one after the other in the order of the batch, and each
    the date of its own insert; the batch costs one write for each row
    and one for the COMMIT. *)
Theorem insert_assets_row_identifiers
    (fault : nat -> bool) (current_timestamp : nat -> Z)
    (assets : list parameters) (c c' : connection) :
  rowids_left (table c) (length assets) ->
  insert_assets fault current_timestamp assets c = (Ok true, c') ->
  exists rows,
    table c' = table c ++ rows /\
    map id rows =
      map (fun i => (next_rowid (table c) + Z.of_nat i)%Z)
          (seq 0 (length assets)) /\
    map date_added rows =
      map (fun i => current_timestamp (writes c + i)%nat)
          (seq 0 (length assets)) /\
    writes c' = (writes c + length assets + 1)%nat.
Proof.
  intros _ Hrun.
  destruct (begin_spec c) as [c0 [Hb [Ht0 [Hj0 Hw0]]]].
  destruct (insert_all_spec fault current_timestamp assets c0)
    as [r [c1 [rows0 [Hall [_ [_ Hr]]]]]].
  unfold insert_assets, try_except, executemany, bind in Hrun.
  rewrite Hb, Hall in Hrun.
  destruct r as [u|e].
  - destruct Hr as [_ [Hw1 _]].
    rewrite commit_spec in Hrun.
    destruct (fault (writes c1)); cbn in Hrun; [discriminate Hrun|].
    injection Hrun as <-.
    destruct (@insert_all_identifiers fault current_timestamp assets c0 c1 u
                Hall) as [rows [Ht [Hid Hd]]].
    exists rows. cbn [table writes]. rewrite Ht, Ht0, Hw0 in *.
    repeat split; try assumption. lia.
  - destruct Hr as [-> _]. cbn in Hrun. discriminate Hrun.
Qed.

Lemma insert_assets_row_identifiers_witness :
  exists rows,
    table (snd (insert_assets never_fails ticking two_listings
                  after_two_listings)) =
      table after_two_listings ++ rows /\
    map id rows =
      map (fun i => (next_rowid (table after_two_listings) + Z.of_nat i)%Z)
          (seq 0 (length two_listings)) /\
    map date_added rows =
      map (fun i => ticking (writes after_two_listings + i)%nat)
          (seq 0 (length two_listings)) /\
    writes (snd (insert_assets never_fails ticking two_listings
                   after_two_listings)) =
      (writes after_two_listings + length two_listings + 1)%nat.
Proof.
  apply (@insert_assets_row_identifiers never_fails ticking two_listings
           after_two_listings).
  - unfold rowids_left. vm_compute. discriminate.
  - reflexivity.
Defined.

(** X11 (closing loses nothing).  [insert_assets] never leaves a
    transaction open, so after any sequence of calls the connection can
    be closed without loss: the program that opens the file again reads
    the rows the last [get_all_assets] read. *)
Theorem close_keeps_what_was_stored
    (fault : nat -> bool) (current_timestamp : nat -> Z)
    (batches : list (list parameters)) (c : connection) :
  journal c = None ->
  exists c',
    setup_database
      (close (insert_batches fault current_timestamp batches c)) = Ok c' /\
    fst (get_all_assets c') =
      fst (get_all_assets
             (insert_batches fault current_timestamp batches c)) /\
    journal c' = None.
Proof.
  intros Hj.
  destruct (insert_batches_extend fault current_timestamp batches c Hj)
    as [more [_ [Hj' _]]].
  eexists. split; [reflexivity|]. cbn. unfold committed. rewrite Hj'. auto.
Qed.

Lemma close_keeps_what_was_stored_witness :
  exists c',
    setup_database
      (close (insert_batches never_fails ticking [two_listings; two_listings]
                new_database)) = Ok c' /\
    fst (get_all_assets c') =
      fst (get_all_assets
             (insert_batches never_fails ticking
                [two_listings; two_listings] new_database)) /\
    journal c' = None.
Proof.
  apply (@close_keeps_what_was_stored never_fails ticking
           [two_listings; two_listings] new_database).
  reflexivity.
Defined.

End StoreRuns.

(** ** The texts of the tree *)

Section HandlerProperties.

Import MarketplaceScraper.
Import ApplicationGUI.

Lemma chars_app a b :
  list_ascii_of_string (a ++ b) =
  list_ascii_of_string a ++ list_ascii_of_string b.
Proof.
  induction a as [|c a IH]; [reflexivity|]. cbn. rewrite IH. reflexivity.
Qed.

Lemma digit_char_spec d :
  (0 <= d < 10)%Z ->
  is_digit (digit_char d) = true /\ digit_value (digit_char d) = d.
Proof.
  intros H.
  assert (d = 0 \/ d = 1 \/ d = 2 \/ d = 3 \/ d = 4 \/ d = 5 \/ d = 6 \/
          d = 7 \/ d = 8 \/ d = 9)%Z as E by lia.
  repeat (destruct E as [-> | E]; [split; reflexivity|]).
  subst d. split; reflexivity.
Qed.

(** What a digit is not. *)
Lemma is_digit_other c :
  is_digit c = true ->
  is_space c = false /\ Ascii.eqb c "-" = false /\ Ascii.eqb c "+" = false /\
  Ascii.eqb c "_" = false /\ Ascii.eqb c "$" = false /\
  Ascii.eqb c "," = false.
Proof.
  destruct c as [[] [] [] [] [] [] [] []]; cbn; intros H;
    try discriminate H; repeat split; reflexivity.
Qed.

Lemma digitpart_rest_digit c s acc count :
  is_digit c = true ->
  digitpart_rest (c :: s) acc count =
  digitpart_rest s (10 * acc + digit_value c) (S count).
Proof. intros H. cbn [digitpart_rest]. rewrite H. reflexivity. Qed.

Lemma digitpart_digit c s acc :
  is_digit c = true ->
  digitpart (c :: s) acc =
  Some (digitpart_rest s (10 * acc + digit_value c) 1).
Proof. intros H. cbn [digitpart]. rewrite H. reflexivity. Qed.

(** Reading the digits [digits n v] writes. *)
Lemma digitpart_rest_digits n : forall v rest acc count,
  digitpart_rest (list_ascii_of_string (digits n v) ++ rest) acc count =
  digitpart_rest rest (acc * 10 ^ Z.of_nat n + v mod 10 ^ Z.of_nat n)
                 (count + n).
Proof.
  induction n as [|n IH]; intros v rest acc count.
  - cbn [digits list_ascii_of_string app]. rewrite Nat.add_0_r.
    change (10 ^ Z.of_nat 0)%Z with 1%Z. rewrite Z.mod_1_r.
    f_equal. lia.
  - cbn [digits]. rewrite chars_app, <- app_assoc, IH.
    cbn [list_ascii_of_string app].
    destruct (digit_char_spec (d := v mod 10)) as [Hd Hv].
    { apply Z.mod_pos_bound. lia. }
    rewrite digitpart_rest_digit by exact Hd. rewrite Hv.
    assert (Hpow : (0 < 10 ^ Z.of_nat n)%Z) by (apply Z.pow_pos_nonneg; lia).
    f_equal; [|lia].
    rewrite Nat2Z.inj_succ, Z.pow_succ_r by lia.
    rewrite (Z.rem_mul_r v 10 (10 ^ Z.of_nat n)) by lia.
    ring.
Qed.

Lemma of_lu_rev_step d :
  d <> Decimal.Nil ->
  Unsigned.of_lu (Decimal.rev d) =
  (Unsigned.of_lu (Decimal.rev (Unsigned.tl d))
   + Unsigned.hd d * 10 ^ Unsigned.usize (Unsigned.tl d))%N.
Proof.
  destruct d; [congruence|..]; intros _; unfold Decimal.rev at 1;
    cbn [Decimal.revapp Unsigned.tl Unsigned.hd];
    rewrite Unsigned.of_lu_revapp; cbn [Unsigned.of_lu];
    rewrite ?N.mul_0_r, ?N.add_0_r; reflexivity.
Qed.

(** Reading the digits of a decimal numeral. *)
Lemma digitpart_rest_uint d : forall rest acc count,
  digitpart_rest
    (list_ascii_of_string (NilEmpty.string_of_uint d) ++ rest) acc count =
  digitpart_rest rest
    (acc * 10 ^ Z.of_N (Unsigned.usize d)
     + Z.of_N (Unsigned.of_lu (Decimal.rev d)))
    (count + N.to_nat (Unsigned.usize d)).
Proof.
  induction d; intros rest acc count;
    [cbn; f_equal; lia | ..];
    cbn [NilEmpty.string_of_uint list_ascii_of_string app];
    rewrite digitpart_rest_digit by reflexivity;
    rewrite IHd, (@of_lu_rev_step (_ d)) by discriminate;
    cbn [Unsigned.tl Unsigned.hd Unsigned.usize];
    rewrite N2Z.inj_succ, Z.pow_succ_r by lia;
    rewrite N2Z.inj_add, N2Z.inj_mul, N2Z.inj_pow;
    (f_equal; [|lia]);
    match goal with
    | |- context [digit_value ?c] =>
        let v := eval vm_compute in (digit_value c) in
        change (digit_value c) with v
    end;
    cbn [Z.of_N]; ring.
Qed.

(** Reading what [str] writes for a number that is not negative. *)
Lemma read_str whole rest :
  (0 <= whole)%Z ->
  exists c cs count,
    list_ascii_of_string (str whole) = c :: cs /\ is_digit c = true /\
    digitpart (list_ascii_of_string (str whole) ++ rest) 0 =
    Some (digitpart_rest rest whole count).
Proof.
  intros H. unfold str. destruct whole as [|p|p]; [| |lia].
  - exists "0"%char, [], 1%nat. repeat split.
  - cbn [Z.to_int NilZero.string_of_int].
    pose proof (Unsigned.to_uint_nonnil p) as Hnil.
    pose proof (Unsigned.of_to p) as Hval.
    rewrite Unsigned.of_uint_alt in Hval.
    assert (Hstr : NilZero.string_of_uint (Pos.to_uint p) =
                   NilEmpty.string_of_uint (Pos.to_uint p)).
    { destruct (Pos.to_uint p); [congruence|reflexivity..]. }
    rewrite Hstr.
    assert (Hhead : exists c cs,
              list_ascii_of_string (NilEmpty.string_of_uint (Pos.to_uint p))
              = c :: cs /\ is_digit c = true).
    { destruct (Pos.to_uint p); [congruence|..];
        cbn [NilEmpty.string_of_uint list_ascii_of_string];
        eexists _, _; split; reflexivity. }
    destruct Hhead as [c [cs [Hc Hd]]].
    exists c, cs, (0 + N.to_nat (Unsigned.usize (Pos.to_uint p)))%nat.
    split; [exact Hc|]. split; [exact Hd|].
    rewrite Hc. cbn [app]. rewrite digitpart_digit by exact Hd.
    rewrite <- (@digitpart_rest_digit c (cs ++ rest) 0 0 Hd).
    change (c :: cs ++ rest) with ((c :: cs) ++ rest).
    rewrite <- Hc, digitpart_rest_uint, Hval. reflexivity.
Qed.

Lemma strip_unchanged c t u l :
  c :: t = u ++ [l] -> is_space c = false -> is_space l = false ->
  strip (c :: t) = c :: t.
Proof.
  intros E Hc Hl. unfold strip. cbn [lstrip]. rewrite Hc, E, rev_app_distr.
  cbn [rev app lstrip]. rewrite Hl.
  change (l :: rev u) with ([l] ++ rev u).
  rewrite rev_app_distr, rev_involutive. reflexivity.
Qed.

Lemma digits_head n : forall v,
  exists c cs, list_ascii_of_string (digits (S n) v) = c :: cs /\
               is_digit c = true.
Proof.
  induction n as [|n IH]; intros v.
  - cbn. eexists _, _. split; [reflexivity|].
    apply digit_char_spec, Z.mod_pos_bound. lia.
  - destruct (IH (v / 10)%Z) as [c [cs [E Hc]]].
    change (digits (S (S n)) v)
      with (digits (S n) (v / 10) ++ String (digit_char (v mod 10)) "")%string.
    rewrite chars_app, E. eexists _, _. split; [reflexivity|exact Hc].
Qed.

Lemma round_half_even_nonneg x : 0 <= x -> (0 <= round_half_even x)%Z.
Proof.
  intros H. unfold round_half_even.
  assert (0 <= Qfloor x)%Z.
  { change 0%Z with (Qfloor 0). apply Qfloor_resp_le. exact H. }
  destruct (Qcompare _ _); [destruct (Z.even _)| |]; lia.
Qed.

(** What [format_fixed] writes reads as the number it was rounded to. *)
Lemma floatvalue_format_fixed n x :
  floatvalue (format_fixed (S n) x) = Ok (rounded (S n) x).
Proof.
  unfold format_fixed, rounded.
  set (scaled := round_half_even (Qabs x * inject_Z (10 ^ Z.of_nat (S n)))).
  assert (Hpow : (0 < 10 ^ Z.of_nat (S n))%Z) by (apply Z.pow_pos_nonneg; lia).
  assert (Hs : (0 <= scaled)%Z).
  { apply round_half_even_nonneg. apply Qmult_le_0_compat; [apply Qabs_nonneg|].
    change 0 with (inject_Z 0). rewrite <- Zle_Qle. lia. }
  set (whole := (scaled / 10 ^ Z.of_nat (S n))%Z).
  assert (Hw : (0 <= whole)%Z) by (apply Z.div_pos; lia).
  set (fr := list_ascii_of_string (digits (S n) scaled)).
  destruct (read_str ("."%char :: fr) Hw) as [c [cs [count [Ec [Hc Hread]]]]].
  destruct (is_digit_other c Hc) as [Hsp [Hminus [Hplus _]]].
  destruct (digits_head n scaled) as [d [ds [Ed Hd]]]. fold fr in Ed.
  assert (Hlast : exists u, fr = u ++ [digit_char (scaled mod 10)]).
  { subst fr. cbn [digits]. rewrite chars_app. eexists. reflexivity. }
  destruct Hlast as [u Eu].
  destruct (digit_char_spec (d := scaled mod 10)) as [Hl _].
  { apply Z.mod_pos_bound. lia. }
  destruct (is_digit_other _ Hl) as [Hlsp _].
  assert (Hfrac : digitpart fr whole = Some (scaled, S n, [])).
  { rewrite Ed, digitpart_digit by exact Hd.
    rewrite <- (@digitpart_rest_digit d ds whole 0 Hd), <- Ed.
    rewrite <- (app_nil_r fr). unfold fr. rewrite digitpart_rest_digits.
    cbn [digitpart_rest Nat.add]. f_equal. f_equal. f_equal.
    unfold whole. rewrite Z.mul_comm. symmetry. apply Z.div_mod. lia. }
  assert (Hnum : number (list_ascii_of_string (str whole) ++ "."%char :: fr)
                 = Some (scaled, S n, [])).
  { unfold number. rewrite Hread. cbn [digitpart_rest].
    change (is_digit ".") with false. change (Ascii.eqb "." "_") with false.
    cbn iota. change (Ascii.eqb "." ".") with true. cbn iota.
    rewrite Hfrac. reflexivity. }
  assert (Hbody : list_ascii_of_string
                    (str whole ++ "." ++ digits (S n) scaled) =
                  list_ascii_of_string (str whole) ++ "."%char :: fr).
  { rewrite chars_app. reflexivity. }
  unfold floatvalue.
  destruct (Qlt_bool x 0).
  - change (list_ascii_of_string ("-" ++ ?s))
      with ("-"%char :: list_ascii_of_string s).
    cbn [String.append list_ascii_of_string]. 
    change (list_ascii_of_string
              (str whole ++ String "." (digits (S n) scaled)))
      with (list_ascii_of_string (str whole ++ "." ++ digits (S n) scaled)).
    rewrite Hbody.
    rewrite (@strip_unchanged "-"%char _
               ("-"%char :: list_ascii_of_string (str whole) ++ "."%char :: u)
               (digit_char (scaled mod 10)));
      [|rewrite Eu; cbn [app]; rewrite <- app_assoc; reflexivity
       |reflexivity|exact Hlsp].
    cbn [sign]. change (Ascii.eqb "-" "-") with true. cbn iota.
    rewrite Hnum. reflexivity.
  - cbn [String.append].
    change (list_ascii_of_string
              (str whole ++ String "." (digits (S n) scaled)))
      with (list_ascii_of_string (str whole ++ "." ++ digits (S n) scaled)).
    rewrite Hbody. 
    assert (Hstrip : strip (list_ascii_of_string (str whole) ++ "."%char :: fr)
                     = list_ascii_of_string (str whole) ++ "."%char :: fr).
    { rewrite Ec. cbn [app].
      apply (@strip_unchanged c _ (c :: cs ++ "."%char :: u)
               (digit_char (scaled mod 10)));
        [rewrite Eu; cbn [app]; rewrite <- app_assoc; reflexivity
        |exact Hsp|exact Hlsp]. }
    rewrite Hstrip.
    assert (Hsign : sign (list_ascii_of_string (str whole) ++ "."%char :: fr)
                    = (false,
                       list_ascii_of_string (str whole) ++ "."%char :: fr)).
    { rewrite Ec. cbn [app sign]. rewrite Hminus, Hplus. reflexivity. }
    rewrite Hsign, Hnum. reflexivity.
Qed.

(** [float] reads it as the float nearest to that number. *)
Lemma float_format_fixed n x :
  float (format_fixed (S n) x) = Ok (Binary64.round (rounded (S n) x)).
Proof. unfold float. rewrite floatvalue_format_fixed. reflexivity. Qed.

(** The nearest integer is within a half. *)
Lemma round_half_even_near y :
  - (1 # 2) <= inject_Z (round_half_even y) - y /\
  inject_Z (round_half_even y) - y <= 1 # 2.
Proof.
  unfold round_half_even.
  pose proof (Qfloor_le y) as L. pose proof (Qlt_floor y) as U.
  rewrite inject_Z_plus in U. change (inject_Z 1) with 1 in U.
  destruct (Qcompare (y - inject_Z (Qfloor y)) (1 # 2)) eqn:E.
  - apply Qeq_alt in E.
    destruct (Z.even (Qfloor y)); rewrite ?inject_Z_plus;
      change (inject_Z 1) with 1; split; lra.
  - apply Qlt_alt in E. split; lra.
  - apply Qgt_alt in E. rewrite inject_Z_plus. change (inject_Z 1) with 1.
    split; lra.
Qed.

Lemma round_half_even_integer k y :
  y == inject_Z k -> round_half_even y = k.
Proof.
  intros E. unfold round_half_even.
  assert (Hf : Qfloor y = k) by (rewrite E; apply Qfloor_Z).
  rewrite Hf.
  destruct (Qcompare (y - inject_Z k) (1 # 2)) eqn:C; [|reflexivity|].
  - apply Qeq_alt in C. lra.
  - apply Qgt_alt in C. lra.
Qed.

Lemma decimal_value m places :
  decimal m (- Z.of_nat places) * inject_Z (10 ^ Z.of_nat places)
  == inject_Z m.
Proof.
  unfold decimal. rewrite Qred_correct.
  rewrite Qpower_opp, Zpower_Qpower by lia.
  change (inject_Z 10) with 10.
  rewrite <- Qmult_assoc, (Qmult_comm (/ _)), Qmult_inv_r; [ring|].
  apply Qpower_not_0. discriminate.
Qed.

(** [rounded places x] is a multiple of [10 ** -places] within half of
    one of [x], and [x] itself when [x] is such a multiple. *)
Lemma rounded_near places x :
  let unit := inject_Z (10 ^ Z.of_nat places) in
  (exists m, rounded places x * unit == inject_Z m) /\
  - (1 # 2) <= (rounded places x - x) * unit /\
  (rounded places x - x) * unit <= 1 # 2 /\
  ((exists k, x * unit == inject_Z k) -> rounded places x == x).
Proof.
  intros unit.
  assert (Hunit : 0 < unit).
  { unfold unit. change 0 with (inject_Z 0). rewrite <- Zlt_Qlt.
    apply Z.pow_pos_nonneg; lia. }
  unfold rounded. fold unit.
  set (scaled := round_half_even (Qabs x * unit)).
  set (m := if Qlt_bool x 0 then (- scaled)%Z else scaled).
  pose proof (decimal_value m places) as Hm. fold unit in Hm.
  destruct (round_half_even_near (Qabs x * unit)) as [L U]. fold scaled in L, U.
  assert (Hnear : - (1 # 2) <= inject_Z m - x * unit /\
                  inject_Z m - x * unit <= 1 # 2).
  { unfold m. destruct (Qlt_bool x 0) eqn:E.
    - apply Qlt_bool_iff in E.
      rewrite Qabs_neg in L, U by lra. rewrite inject_Z_opp. split; lra.
    - assert (0 <= x).
      { apply Qnot_lt_le. intros H. apply Qlt_bool_iff in H. congruence. }
      rewrite Qabs_pos in L, U by assumption. split; lra. }
  split; [exists m; exact Hm|].
  setoid_replace ((decimal m (- Z.of_nat places) - x) * unit)
    with (inject_Z m - x * unit) by (rewrite <- Hm; ring).
  split; [apply Hnear|]. split; [apply Hnear|].
  intros [k Hk].
  assert (Hmk : m = k).
  { unfold m, scaled. destruct (Qlt_bool x 0) eqn:E.
    - apply Qlt_bool_iff in E.
      rewrite (@round_half_even_integer (- k)%Z); [lia|].
      rewrite Qabs_neg by lra. rewrite inject_Z_opp, <- Hk. ring.
    - assert (0 <= x).
      { apply Qnot_lt_le. intros H. apply Qlt_bool_iff in H. congruence. }
      apply round_half_even_integer. rewrite Qabs_pos by assumption.
      exact Hk. }
  apply (Qmult_inj_r _ _ unit); [lra|]. rewrite Hm, Hmk, Hk. reflexivity.
Qed.

Lemma replace_absent old new s :
  Forall (fun c => Ascii.eqb c old = false) (list_ascii_of_string s) ->
  replace old new s = s.
Proof.
  induction s as [|c s IH]; [reflexivity|]. cbn [list_ascii_of_string].
  intros H. inversion H as [|? ? Hc Hs]; subst.
  cbn [replace]. rewrite Hc, (IH Hs). reflexivity.
Qed.

Lemma uint_chars_digits d :
  Forall (fun c => is_digit c = true)
         (list_ascii_of_string (NilEmpty.string_of_uint d)).
Proof.
  induction d; cbn [NilEmpty.string_of_uint list_ascii_of_string];
    constructor; (reflexivity || assumption).
Qed.

Lemma str_chars_digits n :
  (0 <= n)%Z ->
  Forall (fun c => is_digit c = true) (list_ascii_of_string (str n)).
Proof.
  intros H. unfold str. destruct n as [|p|p]; [| |lia].
  - repeat constructor.
  - cbn [Z.to_int NilZero.string_of_int]. unfold NilZero.string_of_uint.
    destruct (Pos.to_uint p) eqn:E; try (rewrite <- E; apply uint_chars_digits).
    repeat constructor.
Qed.

Lemma digits_chars_digits n : forall v,
  Forall (fun c => is_digit c = true) (list_ascii_of_string (digits n v)).
Proof.
  induction n as [|n IH]; intros v; [constructor|].
  cbn [digits]. rewrite chars_app. apply Forall_app. split; [apply IH|].
  repeat constructor. apply digit_char_spec, Z.mod_pos_bound. lia.
Qed.

(** The text [format_fixed] writes has no currency symbol. *)
Lemma format_fixed_plain places x :
  Forall (fun c => Ascii.eqb c "$" = false)
         (list_ascii_of_string (format_fixed places x)).
Proof.
  unfold format_fixed.
  set (scaled := round_half_even (Qabs x * inject_Z (10 ^ Z.of_nat places))).
  assert (Hs : (0 <= scaled)%Z).
  { apply round_half_even_nonneg. apply Qmult_le_0_compat; [apply Qabs_nonneg|].
    change 0 with (inject_Z 0). rewrite <- Zle_Qle.
    apply Z.pow_nonneg. lia. }
  assert (Hd : forall l, Forall (fun c => is_digit c = true) l ->
                         Forall (fun c => Ascii.eqb c "$" = false) l).
  { intros l. apply Forall_impl. intros c Hc. apply (is_digit_other c Hc). }
  rewrite chars_app. apply Forall_app. split.
  { destruct (Qlt_bool x 0); [|constructor].
    constructor; [reflexivity|constructor]. }
  rewrite chars_app. apply Forall_app. split.
  { apply Hd, str_chars_digits. apply Z.div_pos; [exact Hs|].
    apply Z.pow_pos_nonneg; lia. }
  destruct places as [|places]; [constructor|].
  rewrite chars_app. apply Forall_app. split.
  - constructor; [reflexivity|constructor].
  - apply Hd, digits_chars_digits.
Qed.

(** The dict made of a row whose price [handle_display] wrote. *)
Lemma auction_item_shown r :
  auction_item (shown_values r) =
  Ok {| AuctionManager.title := Some (fst (fst (fst r)));
        AuctionManager.price :=
          Some (Binary64.round (rounded 2 (snd (fst (fst r)))));
        AuctionManager.link := Some (snd r) |}.
Proof.
  destruct r as [[[title_value price] discount_value] link_value].
  unfold auction_item, shown_values, shown_price. cbn [fst snd].
  change (replace "$" "" ("$" ++ ?t)) with (replace "$" "" t).
  rewrite replace_absent by apply format_fixed_plain.
  cbn [Py.bind]. rewrite float_format_fixed. reflexivity.
Qed.

Section PostFacts.

Variable post : string -> AuctionManager.payload -> AuctionManager.post_outcome.
Variable now : nat -> Z.

Lemma post_to_auction_shown time r :
  AuctionManager.post_to_auction post api_url time
    {| AuctionManager.title := Some (fst (fst (fst r)));
       AuctionManager.price :=
         Some (Binary64.round (rounded 2 (snd (fst (fst r)))));
       AuctionManager.link := Some (snd r) |} =
  (Ok (AuctionManager.accepts post api_url (shown_payload time r)),
   [AuctionManager.Post (api_url ++ "/create-auction")
      (shown_payload time r);
    if AuctionManager.accepts post api_url (shown_payload time r)
    then AuctionManager.LogInfo (fst (fst (fst r)))
    else AuctionManager.LogError (fst (fst (fst r))) RequestException]).
Proof.
  destruct r as [[[title_value price] discount_value] link_value].
  unfold AuctionManager.post_to_auction, AuctionManager.accepts.
  cbn [AuctionManager.title AuctionManager.price AuctionManager.link
       fst snd shown_payload].
  destruct (post _ _) as [|status_code]; [reflexivity|].
  destruct ((400 <=? status_code)%Z && (status_code <? 600)%Z); reflexivity.
Qed.

Lemma post_selection_shown rs : forall calls posted,
  exists trace,
    post_selection post now (map shown_values rs) calls posted =
    (Ok (posted +
         length (filter (AuctionManager.accepts post api_url)
                        (documents now calls rs)))%nat, trace) /\
    AuctionManager.posts trace = documents now calls rs.
Proof.
  induction rs as [|r rs IH]; intros calls posted.
  - exists []. cbn. rewrite Nat.add_0_r. auto.
  - cbn [map post_selection documents filter].
    rewrite auction_item_shown, post_to_auction_shown.
    destruct (IH (S calls)
                (if AuctionManager.accepts post api_url
                      (shown_payload (now calls) r)
                 then S posted else posted)) as [trace [Hrun Hposts]].
    rewrite Hrun. eexists. split.
    + f_equal. f_equal.
      destruct (AuctionManager.accepts post api_url
                  (shown_payload (now calls) r)); cbn [length]; lia.
    + cbn [app AuctionManager.posts flat_map].
      fold (AuctionManager.posts trace). rewrite Hposts.
      destruct (AuctionManager.accepts post api_url
                  (shown_payload (now calls) r)); reflexivity.
Qed.

End PostFacts.

(** The float of an exact value is the value. *)
Lemma round_representable x :
  Binary64.representable x = true -> Binary64.round x == x.
Proof.
  unfold Binary64.representable. intros H.
  apply andb_true_iff in H. apply Qeq_bool_iff, H.
Qed.

(** X12 (the price posted is the price shown).  From a row of the tree
    whose Price column holds the text [handle_display] writes for a
    float, whatever ttk hands back for the other columns,
    [handle_post_auction] makes a dict without raising: [float] reads
    the text, the currency symbol removed, as the float nearest to the
    number shown.  The number shown is a whole number of cents within
    half a cent of the price, and a price that is a whole number of
    cents is posted as it is. *)
Theorem displayed_price_read_back
    (title_value discount_value link_value : cell) (price : Q) :
  Binary64.representable price = true ->
  exists number_shown,
    ApplicationGUI.auction_item
      (title_value, Str (ApplicationGUI.shown_price price), discount_value,
       link_value) =
    Ok {| AuctionManager.title := Some title_value;
          AuctionManager.price := Some (Binary64.round number_shown);
          AuctionManager.link := Some link_value |} /\
    Qabs (number_shown - price) <= 1 # 200 /\
    (exists cents, number_shown * 100 == inject_Z cents) /\
    ((exists cents, price * 100 == inject_Z cents) ->
     Binary64.round number_shown == price).
Proof.
  intros Hrep. exists (rounded 2 price).
  split.
  { apply (auction_item_shown
             (title_value, price, discount_value, link_value)). }
  destruct (rounded_near 2 price) as [Hm [L [U Hexact]]].
  change (inject_Z (10 ^ Z.of_nat 2)) with 100 in *.
  split; [apply Qabs_Qle_condition; split; lra|].
  split; [exact Hm|].
  intros Hc. rewrite (round_comp (Hexact Hc)).
  apply round_representable. exact Hrep.
Qed.

Lemma displayed_price_read_back_witness :
  exists number_shown,
    ApplicationGUI.auction_item
      (Str "Lamp", Str (ApplicationGUI.shown_price (2469 # 2)), Str "12.5%",
       Int 7) =
    Ok {| AuctionManager.title := Some (Str "Lamp");
          AuctionManager.price := Some (Binary64.round number_shown);
          AuctionManager.link := Some (Int 7) |} /\
    Qabs (number_shown - (2469 # 2)) <= 1 # 200 /\
    (exists cents, number_shown * 100 == inject_Z cents) /\
    ((exists cents, (2469 # 2) * 100 == inject_Z cents) ->
     Binary64.round number_shown == 2469 # 2).
Proof.
  apply (@displayed_price_read_back (Str "Lamp") (Str "12.5%") (Int 7)
           (2469 # 2)).
  vm_compute. reflexivity.
Defined.

(** X13 (posting the selection).  On rows of the tree whose Price column
    holds the text [handle_display] writes for a float,
    [handle_post_auction] raises nothing.  Without selection it posts
    nothing and asks for one.  Otherwise it posts one document for each
    selected row, in the order of the selection, whatever the site
    answers to the others; the price of a document is the float nearest
    to the price shown; and its message counts the documents the site
    accepted out of the number selected. *)
Theorem handle_post_auction_counts
    (post : string -> AuctionManager.payload -> AuctionManager.post_outcome)
    (now : nat -> Z) (rs : list ApplicationGUI.shown) :
  Forall (fun r => Binary64.representable (snd (fst (fst r))) = true) rs ->
  exists trace,
    ApplicationGUI.handle_post_auction post now
      (map ApplicationGUI.shown_values rs) =
    (Ok match rs with
        | [] => ApplicationGUI.SelectionRequired
        | _ :: _ =>
            ApplicationGUI.PostingComplete
              (length (filter (AuctionManager.accepts post
                                 ApplicationGUI.api_url)
                              (documents now 0 rs)))
              (length rs)
        end, trace) /\
    AuctionManager.posts trace =
      match rs with [] => [] | _ :: _ => documents now 0 rs end /\
    (length (filter (AuctionManager.accepts post ApplicationGUI.api_url)
                    (documents now 0 rs)) <= length rs)%nat.
Proof.
  intros _.
  assert (Hlen : forall calls l, length (documents now calls l) = length l).
  { intros calls l. revert calls.
    induction l as [|u l IH]; intros calls; [reflexivity|].
    cbn [documents length]. rewrite IH. reflexivity. }
  destruct rs as [|r rs].
  - exists []. cbn. auto.
  - destruct (post_selection_shown post now (r :: rs) 0 0)
      as [trace [Hrun Hposts]].
    exists trace. unfold ApplicationGUI.handle_post_auction.
    cbn [map] in Hrun |- *. rewrite Hrun. cbn [Nat.add].
    cbn [length]. rewrite length_map.
    split; [reflexivity|]. split; [exact Hposts|].
    eapply Nat.le_trans; [apply filter_length_le|].
    rewrite Hlen. cbn [length]. lia.
Qed.

Lemma handle_post_auction_counts_witness :
  exists trace,
    ApplicationGUI.handle_post_auction
      (fun _ _ => AuctionManager.Response 201) ticking
      (map ApplicationGUI.shown_values
         [(Str "Lamp", 2469 # 2, Str "12.5%", Str "/item/lamp");
          (Int 42, 80, Str "3.0%", Str "/item/desk")]) =
    (Ok (ApplicationGUI.PostingComplete 2 2), trace) /\
    AuctionManager.posts trace =
      [{| AuctionManager.payload_title := Str "Lamp";
          AuctionManager.payload_price := 2469 # 2;
          AuctionManager.payload_link := Str "/item/lamp";
          AuctionManager.timestamp := 1700000000 |};
       {| AuctionManager.payload_title := Int 42;
          AuctionManager.payload_price := 80;
          AuctionManager.payload_link := Str "/item/desk";
          AuctionManager.timestamp := 1700000001 |}] /\
    (2 <= 2)%nat.
Proof.
  apply (@handle_post_auction_counts
           (fun _ _ => AuctionManager.Response 201) ticking
           [(Str "Lamp", 2469 # 2, Str "12.5%", Str "/item/lamp");
            (Int 42, 80, Str "3.0%", Str "/item/desk")]).
  repeat constructor.
Defined.

Section ScrapeRaises.

Variable get : string -> http_outcome.

Lemma scrape_page_raises url e :
  fst (scrape_page get url) = Raise e -> e = TypeError \/ e = KeyError.
Proof.
  intros H. destruct (fetch_fails get url) eqn:Hf.
  - rewrite (scrape_page_fetch_fails _ _ Hf) in H. discriminate H.
  - destruct (scrape_page_fetched _ _ Hf) as [sc [content [_ [Hfst _]]]].
    rewrite Hfst in H.
    pose proof (scrape_listings_cases content []) as [_ Hc].
    rewrite H in Hc. exact Hc.
Qed.

Lemma scrape_pages_raises base page_nums : forall all_items e,
  fst (scrape_pages get base page_nums all_items) = Raise e ->
  e = TypeError \/ e = KeyError.
Proof.
  induction page_nums as [|n rest IH]; intros all_items e H.
  - discriminate H.
  - cbn [scrape_pages] in H. rewrite io_bind_fst in H.
    destruct (fst (scrape_page get (page_url base n))) as [items|e'] eqn:Hp.
    + rewrite io_bind_fst in H. cbn [emit fst] in H.
      apply (IH _ _ H).
    + injection H as <-. apply (scrape_page_raises _ Hp).
Qed.

End ScrapeRaises.

(** X14 (what a click on Scrape leaves).  [handle_scrape] ends with one
    of three message boxes.  Success: the scraper returned at least one
    item, no write met a failure of the medium, and the table has one
    more row for each item, in order.  Failure: nothing was scraped and
    the connection is untouched, or a write failed and the committed
    rows are those before the click; the scraped items always pass the
    constraints of the table.  An exception of the scraper, which is the
    [TypeError] or [KeyError] of a listing without link, is shown and
    leaves the connection untouched. *)
Theorem handle_scrape_outcome
    (get : string -> http_outcome) (fault : nat -> bool)
    (current_timestamp : nat -> Z) (c : DatabaseManager.connection) :
  exists d c',
    ApplicationGUI.handle_scrape get fault current_timestamp c =
    (d, c',
     snd (scrape_multiple_pages get ApplicationGUI.base_url 1 3)) /\
    match d with
    | ApplicationGUI.ScrapeStored count =>
        exists items rows,
          fst (scrape_multiple_pages get ApplicationGUI.base_url 1 3)
            = Ok items /\
          items <> [] /\ count = length items /\
          DatabaseManager.table c' = DatabaseManager.table c ++ rows /\
          Forall2 DatabaseManager.stores
                  (map DatabaseManager.of_item items) rows /\
          DatabaseManager.journal c' = None /\
          DatabaseManager.no_fault fault c (S count)
    | ApplicationGUI.ScrapeFailed =>
        DatabaseManager.committed c' = DatabaseManager.committed c /\
        (fst (scrape_multiple_pages get ApplicationGUI.base_url 1 3)
           = Ok [] /\ c' = c \/
         exists items,
           fst (scrape_multiple_pages get ApplicationGUI.base_url 1 3)
             = Ok items /\
           items <> [] /\
           ~ DatabaseManager.no_fault fault c (S (length items)))
    | ApplicationGUI.ScrapeRaised e =>
        c' = c /\
        fst (scrape_multiple_pages get ApplicationGUI.base_url 1 3)
          = Raise e /\
        (e = TypeError \/ e = KeyError)
    | _ => False
    end.
Proof.
  unfold ApplicationGUI.handle_scrape.
  pose proof (@scrape_pages_raises get ApplicationGUI.base_url
                (range 1 (3 + 1)) []) as Hraise.
  fold (scrape_multiple_pages get ApplicationGUI.base_url 1 3) in Hraise.
  destruct (scrape_multiple_pages get ApplicationGUI.base_url 1 3)
    as [[items|e] trace]; cbn [fst snd] in *.
  - destruct items as [|it items].
    + exists ApplicationGUI.ScrapeFailed, c. split; [reflexivity|].
      split; [reflexivity|]. left. auto.
    + set (scraped := it :: items).
      destruct (insert_assets_spec fault current_timestamp
                  (map DatabaseManager.of_item scraped) c)
        as [b [c' [rows [Hrun [Hj [Htrue [Hfalse Hiff]]]]]]].
      rewrite Hrun. rewrite length_map in Hiff.
      destruct b.
      * exists (ApplicationGUI.ScrapeStored (length scraped)), c'.
        split; [reflexivity|].
        destruct (Htrue eq_refl) as [Ht [Hst _]].
        exists scraped, rows. repeat split; try assumption.
        -- discriminate.
        -- apply Hiff. reflexivity.
      * exists ApplicationGUI.ScrapeFailed, c'. split; [reflexivity|].
        split.
        -- unfold DatabaseManager.committed at 1. rewrite Hj.
           apply Hfalse. reflexivity.
        -- right. exists scraped. split; [reflexivity|].
           split; [discriminate|]. intros Hn.
           assert (false = true); [|discriminate].
           apply Hiff. split; [apply scraped_items_accepted|exact Hn].
  - exists (ApplicationGUI.ScrapeRaised e), c. split; [reflexivity|].
    split; [reflexivity|]. split; [reflexivity|]. apply Hraise. reflexivity.
Qed.

End HandlerProperties.

(** ** The check of the scraper, from the page to the table *)

Section CheckProperties.

Import MarketplaceScraper.
Import ApplicationGUI.

Lemma well_formed_passes listing it :
  well_formed listing = Some it -> passes_check it = true.
Proof.
  unfold well_formed, passes_check.
  destruct (h2 listing) as [t|]; [|discriminate].
  destruct (price_span listing) as [pt|]; [|discriminate].
  destruct (anchor listing) as [[href|]|]; try discriminate.
  destruct (price_number pt) as [p|e]; [|discriminate].
  destruct (negb (t =? "N/A")%string && Qlt_bool 0 p
            && negb (href =? "")%string) eqn:E; [|discriminate].
  intros H. injection H as <-. exact E.
Qed.

Lemma well_formed_items_pass listings :
  Forall (fun it => passes_check it = true) (well_formed_items listings).
Proof.
  unfold well_formed_items. apply Forall_flat_map, Forall_forall.
  intros listing _. destruct (well_formed listing) as [it|] eqn:E;
    [|constructor].
  constructor; [|constructor]. apply (well_formed_passes _ E).
Qed.

(** A turn of the loop that does not raise appends the item of a
    well-formed listing, and nothing else. *)
Lemma scrape_listing_ok listing items out :
  fst (scrape_listing listing items) = Ok out ->
  out = items ++ well_formed_items [listing].
Proof.
  unfold well_formed_items. cbn [flat_map]. rewrite app_nil_r.
  destruct (price_span listing) as [price_text|] eqn:Hp.
  - destruct (price_number price_text) as [price|e] eqn:Hf.
    + destruct (anchor listing) as [[href|]|] eqn:Ha.
      * rewrite (scrape_listing_linked _ _ Hp Hf Ha). cbn. congruence.
      * rewrite (proj2 (scrape_listing_no_link _ _ Hp Hf) Ha). discriminate.
      * rewrite (proj1 (scrape_listing_no_link _ _ Hp Hf) Ha). discriminate.
    + rewrite (scrape_listing_bad_price _ _ Hp Hf).
      rewrite well_formed_price, app_nil_r;
        [cbn; congruence|]. right. exists price_text, e. auto.
  - rewrite (scrape_listing_no_price _ _ Hp).
    rewrite well_formed_price, app_nil_r; [cbn; congruence|]. left. exact Hp.
Qed.

Lemma scrape_listings_ok listings : forall items out,
  fst (scrape_listings listings items) = Ok out ->
  out = items ++ well_formed_items listings.
Proof.
  induction listings as [|listing rest IH]; intros items out H.
  - cbn in H. injection H as <-. cbn. rewrite app_nil_r. reflexivity.
  - rewrite scrape_listings_cons, io_bind_fst in H.
    destruct (fst (scrape_listing listing items)) as [items'|e] eqn:E;
      [|discriminate H].
    apply scrape_listing_ok in E. apply IH in H. subst.
    unfold well_formed_items. cbn [flat_map].
    rewrite app_nil_r, app_assoc. reflexivity.
Qed.

Section ChecksFacts.

Variable get : string -> http_outcome.

Lemma scrape_page_ok url out :
  fst (scrape_page get url) = Ok out ->
  Forall (fun it => passes_check it = true) out.
Proof.
  intros H. destruct (fetch_fails get url) eqn:Hf.
  - rewrite (scrape_page_fetch_fails _ _ Hf) in H. injection H as <-.
    constructor.
  - destruct (scrape_page_fetched _ _ Hf) as [sc [content [_ [Hfst _]]]].
    rewrite Hfst in H. apply scrape_listings_ok in H. subst out.
    apply well_formed_items_pass.
Qed.

Lemma scrape_pages_ok base page_nums : forall all_items out,
  Forall (fun it => passes_check it = true) all_items ->
  fst (scrape_pages get base page_nums all_items) = Ok out ->
  Forall (fun it => passes_check it = true) out.
Proof.
  induction page_nums as [|n rest IH]; intros all_items out Hall H.
  - injection H as <-. exact Hall.
  - cbn [scrape_pages] in H. rewrite io_bind_fst in H.
    destruct (fst (scrape_page get (page_url base n))) as [items|e] eqn:Hp;
      [|discriminate H].
    rewrite io_bind_fst in H. cbn [emit fst] in H.
    apply IH in H; [exact H|]. apply Forall_app. split; [exact Hall|].
    apply (scrape_page_ok _ Hp).
Qed.

End ChecksFacts.

(** X16 (what the scraper returns passes its check).  Every item a run
    of [scrape_multiple_pages] returns has passed the check of
    [scrape_page]: its title is not the placeholder, its price is
    positive and its link is not empty. *)
Theorem scraped_items_pass_the_check
    (get : string -> http_outcome) (base_url : string)
    (start_page end_page : Z) (items : list item) :
  fst (scrape_multiple_pages get base_url start_page end_page) = Ok items ->
  Forall (fun it => passes_check it = true) items /\
  Forall (fun it => let '(title, price, link) := it in
                    title <> "N/A"%string /\ 0 < price /\ link <> ""%string)
         items.
Proof.
  intros H.
  assert (Hp : Forall (fun it => passes_check it = true) items).
  { apply (@scrape_pages_ok get base_url (range start_page (end_page + 1))
             [] items); [constructor|exact H]. }
  split; [exact Hp|].
  eapply Forall_impl; [|exact Hp]. intros [[t p] l] Hc.
  unfold passes_check in Hc.
  apply andb_true_iff in Hc. destruct Hc as [Hc Hl].
  apply andb_true_iff in Hc. destruct Hc as [Ht Hq].
  apply negb_true_iff in Ht, Hl.
  apply String.eqb_neq in Ht, Hl. apply Qlt_bool_iff in Hq. auto.
Qed.

Lemma scraped_items_pass_the_check_witness :
  Forall (fun it => passes_check it = true)
         (well_formed_items [lamp; no_price; desk] ++
          well_formed_items [lamp; no_price; desk]) /\
  Forall (fun it => let '(title, price, link) := it in
                    title <> "N/A"%string /\ 0 < price /\ link <> ""%string)
         (well_formed_items [lamp; no_price; desk] ++
          well_formed_items [lamp; no_price; desk]).
Proof.
  apply (@scraped_items_pass_the_check marketplace
           "https://example-marketplace.com" 1 3).
  vm_compute. reflexivity.
Defined.

(** X17 (the stored rows stay checked).  On a connection without open
    transaction whose rows all hold items that pass the check of the
    scraper, as on a new database, a click on Scrape leaves such a
    connection, whatever the marketplace answers and whether or not the
    rows are stored: the table of the application never holds a
    placeholder title, a price that is not positive or an empty link. *)
Theorem handle_scrape_keeps_rows_checked
    (get : string -> http_outcome) (fault : nat -> bool)
    (current_timestamp : nat -> Z) (c : DatabaseManager.connection) :
  DatabaseManager.journal c = None ->
  Forall (fun a => checked a = true) (DatabaseManager.table c) ->
  DatabaseManager.journal
    (snd (fst (ApplicationGUI.handle_scrape get fault current_timestamp c)))
    = None /\
  Forall (fun a => checked a = true)
    (DatabaseManager.table
       (snd (fst (ApplicationGUI.handle_scrape get fault
                    current_timestamp c)))).
Proof.
  intros Hj Hc. unfold ApplicationGUI.handle_scrape.
  destruct (scrape_multiple_pages get ApplicationGUI.base_url 1 3)
    as [[items|e] trace] eqn:Hs; [|split; assumption].
  destruct items as [|it items]; [split; assumption|].
  set (scraped := it :: items) in *.
  assert (Hitems : Forall (fun it => passes_check it = true) scraped).
  { apply (@scrape_pages_ok get ApplicationGUI.base_url (range 1 (3 + 1))
             [] scraped); [constructor|].
    fold (scrape_multiple_pages get ApplicationGUI.base_url 1 3).
    rewrite Hs. reflexivity. }
  destruct (insert_assets_spec fault current_timestamp
              (map DatabaseManager.of_item scraped) c)
    as [b [c' [rows [Hrun [Hj' [Htrue [Hfalse _]]]]]]].
  rewrite Hrun. destruct b; cbn [fst snd]; (split; [exact Hj'|]).
  - destruct (Htrue eq_refl) as [Ht [Hst _]]. rewrite Ht.
    apply Forall_app. split; [exact Hc|].
    clear - Hst Hitems. revert rows Hst.
    induction Hitems as [|[[t p] l] its Hit _ IH]; intros rows Hst;
      cbn [map] in Hst; inversion Hst as [|? row ? rows' Hrow Hrest]; subst;
      constructor.
    + unfold DatabaseManager.stores, DatabaseManager.of_item in Hrow.
      injection Hrow as -> -> ->. exact Hit.
    + apply IH. exact Hrest.
  - rewrite (Hfalse eq_refl). unfold DatabaseManager.committed.
    rewrite Hj. exact Hc.
Qed.

Lemma handle_scrape_keeps_rows_checked_witness :
  DatabaseManager.journal
    (snd (fst (ApplicationGUI.handle_scrape marketplace never_fails ticking
                 new_database))) = None /\
  Forall (fun a => checked a = true)
    (DatabaseManager.table
       (snd (fst (ApplicationGUI.handle_scrape marketplace never_fails
                    ticking new_database)))).
Proof.
  apply (@handle_scrape_keeps_rows_checked marketplace never_fails ticking
           new_database).
  - reflexivity.
  - constructor.
Defined.

End CheckProperties.
